(** * TerrainMesh: elevation sampling, triangle filtering, colouring and
      contour extraction of abovejs

    A shallow embedding of the numeric core of [terrain/TerrainMesh.js].

    Numbers.  A JavaScript number is modelled by [num]: a rational, [NaN],
    [+Infinity] or [-Infinity]; zero carries no sign, so that [x / 0] takes
    the sign of [x].  Module [JS] has the four arithmetic operations without
    rounding.  Module [Binary64] has them as IEEE 754 defines them for
    binary64: the exact result rounded to nearest, ties to even, with gradual
    underflow and with overflow to the infinities; it also has the rounding
    to binary32 of a [Float32Array] store.  Everything else (propagation of
    NaN, comparisons that are false on NaN, [Number.isFinite], [Math.floor],
    [Math.round], [Math.min], ...) rounds nothing, follows ECMAScript and is
    common to both.

    Methods.  The methods are embedded over the operations of [JS]; what is
    proved of them there is about the samples, indices, branches and
    comparisons that the code takes.  Module [Rounded] embeds a second time,
    over the operations of [Binary64], the methods of which a property below
    turns on the rounding: the bilinear sampler, the depth query, the
    threshold loop and the polyline simplifier.

    Control.  A method call either returns or throws; [completion] records
    which.  Loops that the source bounds by a counter are structural.  The
    threshold loop of [generateContours], whose bound comes from the caller,
    takes fuel; so do the recursion of the simplifier and the walks of the
    chaining, with fuel derived from their input, and those are shown to
    suffice. *)

From Stdlib Require Import QArith Qround Qminmax Qabs Qpower ZArith NArith List Bool Lia Lqa.
From stdpp Require Import base list.
Import ListNotations.

(* ===================================================================== *)
(** * JavaScript numbers *)
(* ===================================================================== *)

Module JS.

Inductive num : Type :=
| NaN
| PosInf
| NegInf
| Fin (q : Q).

(** [undefined] is what an out-of-range array read gives. *)
Inductive value : Type :=
| Undefined
| Num (n : num).

Definition of_Z (z : Z) : num := Fin (inject_Z z).
Definition of_nat (n : nat) : num := of_Z (Z.of_nat n).

(** [Number.isFinite] *)
Definition isFinite (x : num) : bool :=
  match x with Fin _ => true | _ => false end.

(** [Number.isFinite] on a value that may be [undefined]. *)
Definition Number_isFinite (v : value) : bool :=
  match v with Num x => isFinite x | Undefined => false end.

(** Sign of a number as a comparison with zero; [Eq] for zero. *)
Definition sgn (x : num) : comparison :=
  match x with
  | NaN => Eq
  | PosInf => Gt
  | NegInf => Lt
  | Fin q => (q ?= 0)%Q
  end.

Definition sign_mul (a b : comparison) : comparison :=
  match a, b with
  | Eq, _ | _, Eq => Eq
  | Gt, Gt | Lt, Lt => Gt
  | _, _ => Lt
  end.

(** The infinity of a given sign; a zero sign is the invalid operation. *)
Definition inf_of_sign (c : comparison) : num :=
  match c with Gt => PosInf | Lt => NegInf | Eq => NaN end.

Definition neg (x : num) : num :=
  match x with
  | NaN => NaN
  | PosInf => NegInf
  | NegInf => PosInf
  | Fin q => Fin (- q)
  end.

Definition add (x y : num) : num :=
  match x, y with
  | NaN, _ | _, NaN => NaN
  | PosInf, NegInf | NegInf, PosInf => NaN
  | PosInf, _ | _, PosInf => PosInf
  | NegInf, _ | _, NegInf => NegInf
  | Fin a, Fin b => Fin (a + b)
  end.

Definition sub (x y : num) : num :=
  match x, y with
  | Fin a, Fin b => Fin (a - b)
  | _, _ => add x (neg y)
  end.

Definition mul (x y : num) : num :=
  match x, y with
  | NaN, _ | _, NaN => NaN
  | Fin a, Fin b => Fin (a * b)
  | _, _ => inf_of_sign (sign_mul (sgn x) (sgn y))
  end.

Definition div (x y : num) : num :=
  match x, y with
  | NaN, _ | _, NaN => NaN
  | Fin a, Fin b =>
      if Qeq_bool b 0 then inf_of_sign (a ?= 0)%Q else Fin (a / b)
  | Fin _, _ => Fin 0
  | _, Fin b =>
      inf_of_sign (sign_mul (sgn x) (if Qeq_bool b 0 then Gt else (b ?= 0)%Q))
  | _, _ => NaN
  end.

(** Ordering; [None] when an operand is NaN, so every relational operator is
    false there. *)
Definition cmp (x y : num) : option comparison :=
  match x, y with
  | NaN, _ | _, NaN => None
  | Fin a, Fin b => Some (a ?= b)%Q
  | PosInf, PosInf | NegInf, NegInf => Some Eq
  | PosInf, _ | _, NegInf => Some Gt
  | NegInf, _ | _, PosInf => Some Lt
  end.

Definition lt (x y : num) : bool :=
  match cmp x y with Some Lt => true | _ => false end.
Definition gt (x y : num) : bool :=
  match cmp x y with Some Gt => true | _ => false end.
Definition le (x y : num) : bool :=
  match cmp x y with Some Lt | Some Eq => true | _ => false end.
Definition ge (x y : num) : bool :=
  match cmp x y with Some Gt | Some Eq => true | _ => false end.
(** [===] on numbers *)
Definition strict_eq (x y : num) : bool :=
  match cmp x y with Some Eq => true | _ => false end.
(** [!==] on numbers; [x !== x] is the NaN test of the source. *)
Definition strict_ne (x y : num) : bool := negb (strict_eq x y).

Definition floor (x : num) : num :=
  match x with Fin q => of_Z (Qfloor q) | _ => x end.
Definition ceil (x : num) : num :=
  match x with Fin q => of_Z (Qceiling q) | _ => x end.
(** [Math.round]: the nearest integer, halves towards [+Infinity]. *)
Definition round (x : num) : num :=
  match x with Fin q => of_Z (Qfloor (q + (1 # 2))) | _ => x end.

Definition min (x y : num) : num :=
  match cmp x y with
  | None => NaN
  | Some Gt => y
  | Some _ => x
  end.
Definition max (x y : num) : num :=
  match cmp x y with
  | None => NaN
  | Some Lt => y
  | Some _ => x
  end.

(** Equality of numbers as values (the rationals up to [==]). *)
Definition num_eq (x y : num) : Prop :=
  match x, y with
  | NaN, NaN | PosInf, PosInf | NegInf, NegInf => True
  | Fin a, Fin b => (a == b)%Q
  | _, _ => False
  end.

(** The index denoted by a number used as an array subscript: a non-negative
    integer, or nothing (the read then gives [undefined]). *)
Definition index_of (i : num) : option nat :=
  match i with
  | Fin q =>
      if Qeq_bool (inject_Z (Qfloor q)) q && (0 <=? Qfloor q)%Z
      then Some (Z.to_nat (Qfloor q)) else None
  | _ => None
  end.

(** [a[i]] on an array of numbers. *)
Definition array_get (a : list num) (i : num) : value :=
  match index_of i with
  | Some n => match a !! n with Some x => Num x | None => Undefined end
  | None => Undefined
  end.

(** A method call returns normally or throws; [OutOfFuel] marks a run of
    the model that was cut before the call finished. *)
Inductive completion (A : Type) : Type :=
| Normal (a : A)
| Throw
| OutOfFuel.
Arguments Normal {A} a.
Arguments Throw {A}.
Arguments OutOfFuel {A}.

Definition bind {A B} (c : completion A) (k : A -> completion B) : completion B :=
  match c with Normal a => k a | Throw => Throw | OutOfFuel => OutOfFuel end.

(** [for (let i = i0; i < i0 + n; i++) body(i)], threading the state. *)
Fixpoint for_range {St : Type} (body : nat -> St -> completion St)
    (i n : nat) (s : St) : completion St :=
  match n with
  | O => Normal s
  | S n' => bind (body i s) (for_range body (S i) n')
  end.

(** Read and write of a typed array at an index known to be a natural
    number; a read out of range gives [undefined], which arithmetic turns
    into NaN, and a write out of range is ignored. *)
Definition f32_get (a : list num) (n : nat) : num := default NaN (a !! n).
Definition f32_set (a : list num) (n : nat) (x : num) : list num := <[n := x]> a.

End JS.

Import JS.

Declare Scope js_scope.
Delimit Scope js_scope with js.
Bind Scope js_scope with num.
Notation "x + y" := (add x y) : js_scope.
Notation "x - y" := (sub x y) : js_scope.
Notation "x * y" := (mul x y) : js_scope.
Notation "x / y" := (div x y) : js_scope.
Notation "x <- c ;; k" := (bind c (fun x => k))
  (at level 100, c at next level, right associativity).

Definition zero : num := Fin 0.
Definition one : num := Fin 1.

(* ===================================================================== *)
(** * Binary64 arithmetic *)
(* ===================================================================== *)

Module Binary64.

(** [2^e] for an integer [e] of either sign. *)
Definition pow2 (e : Z) : Q := (2 ^ e)%Q.

(** [floor (log2 |q|)] for [q] other than 0. *)
Definition ilog2 (q : Q) : Z :=
  let e := (Z.log2 (Z.abs (Qnum q)) - Z.log2 (Zpos (Qden q)))%Z in
  if Qle_bool (pow2 e) (Qabs q) then e else (e - 1)%Z.

(** The integer nearest to [q]; a tie goes to the even one. *)
Definition nearest_even (q : Q) : Z :=
  let f := Qfloor q in
  match (q - inject_Z f ?= 1 # 2)%Q with
  | Lt => f
  | Gt => (f + 1)%Z
  | Eq => if Z.even f then f else (f + 1)%Z
  end.

(** The exponent of the last place of [q] in a format of [prec] significant
    bits whose smallest positive number is [2^emin]. *)
Definition last_place (prec emin : Z) (q : Q) : Z :=
  Z.max (ilog2 q - (prec - 1)) emin.

(** Rounding to nearest, ties to even, without a bound on the exponent. *)
Definition round_fin (prec emin : Z) (q : Q) : Q :=
  let e := last_place prec emin q in
  (inject_Z (nearest_even (q / pow2 e)) * pow2 e)%Q.

(** Rounding of an exact result to the format: a result that rounds to
    [2^emax] or beyond in magnitude overflows to the infinity of its sign. *)
Definition round_to (prec emin emax : Z) (q : Q) : num :=
  let r := round_fin prec emin q in
  if Qle_bool (pow2 emax) (Qabs r) then inf_of_sign (q ?= 0)%Q else Fin (Qred r).

(** binary64, the format of a JavaScript number. *)
Definition binary64 : Q -> num := round_to 53 (-1074) 1024.

(** binary32, the format of a [Float32Array] element ([Math.fround]). *)
Definition binary32 : Q -> num := round_to 24 (-149) 128.

Definition fround (x : num) : num :=
  match x with Fin q => binary32 q | _ => x end.

Definition add (x y : num) : num :=
  match x, y with
  | Fin a, Fin b => binary64 (a + b)
  | _, _ => JS.add x y
  end.

Definition sub (x y : num) : num :=
  match x, y with
  | Fin a, Fin b => binary64 (a - b)
  | _, _ => JS.sub x y
  end.

Definition mul (x y : num) : num :=
  match x, y with
  | Fin a, Fin b => binary64 (a * b)
  | _, _ => JS.mul x y
  end.

Definition div (x y : num) : num :=
  match x, y with
  | Fin a, Fin b => if Qeq_bool b 0 then JS.div x y else binary64 (a / b)
  | _, _ => JS.div x y
  end.

(** The number that a decimal literal denotes. *)
Definition lit (q : Q) : num := binary64 q.

End Binary64.

Declare Scope f64_scope.
Delimit Scope f64_scope with f64.
Arguments Binary64.add (x y)%_f64.
Arguments Binary64.sub (x y)%_f64.
Arguments Binary64.mul (x y)%_f64.
Arguments Binary64.div (x y)%_f64.
Notation "x + y" := (Binary64.add x y) : f64_scope.
Notation "x - y" := (Binary64.sub x y) : f64_scope.
Notation "x * y" := (Binary64.mul x y) : f64_scope.
Notation "x / y" := (Binary64.div x y) : f64_scope.

(* ===================================================================== *)
(** * The terrain object *)
(* ===================================================================== *)

(** [THREE.BufferGeometry]: the attributes that the code reads and writes. *)
Record BufferGeometry : Type := {
  uv : option (list (num * num));      (* geometry.attributes.uv *)
  index : option (list N);             (* geometry.index.array *)
  color : option (list num)            (* geometry.attributes.color *)
}.

Record TerrainMesh : Type := {
  geometry : option BufferGeometry;
  elevationData : option (list num);
  elevationWidth : num;
  elevationHeight : num;
  originalIndices : option (list N);
  modelWidth : num;
  modelHeight : num;
  zExaggeration : num;
  referenceElevation : num;
  depthRange : num * num;
  noDataValue : option num;
  realWorldScale : num;
  gridWidth : nat;
  gridHeight : nat
}.

Section Elevation.

Variable this : TerrainMesh.

(** [_isNoData(value)] *)
Definition _isNoData (value : value) : bool :=
  if negb (Number_isFinite value) then true
  else match value with
       | Undefined => true
       | Num v =>
           if ge v (Fin 100000) then true
           else match noDataValue this with
                | Some nd => if strict_eq v nd then true else false
                | None => false
                end
       end.

(** [this.elevationData[i]]: a [TypeError] when the grid is [null]. *)
Definition elevationData_get (i : num) : completion value :=
  match elevationData this with
  | Some d => Normal (array_get d i)
  | None => Throw
  end.

(** [_hasNearbyNoData(u, v)] *)
Definition _hasNearbyNoData (u v : num) : completion bool :=
  let x := (u * (elevationWidth this - one))%js in
  let y := (v * (elevationHeight this - one))%js in
  let x0 := floor x in
  let y0 := floor y in
  let x1 := min (x0 + one)%js (elevationWidth this - one)%js in
  let y1 := min (y0 + one)%js (elevationHeight this - one)%js in
  let w := elevationWidth this in
  d00 <- elevationData_get (y0 * w + x0)%js ;;
  if _isNoData d00 then Normal true else
  d10 <- elevationData_get (y0 * w + x1)%js ;;
  if _isNoData d10 then Normal true else
  d01 <- elevationData_get (y1 * w + x0)%js ;;
  if _isNoData d01 then Normal true else
  d11 <- elevationData_get (y1 * w + x1)%js ;;
  Normal (_isNoData d11).

(** [_getElevationAt(x, y)] *)
Definition _getElevationAt (x y : num) : completion num :=
  let index := (y * elevationWidth this + x)%js in
  value <- elevationData_get index ;;
  if _isNoData value then Normal NaN
  else match value with
       | Num v => Normal v
       | Undefined => Normal NaN
       end.

(** [_sampleElevation(u, v)] *)
Definition _sampleElevation (u v : num) : completion num :=
  match elevationData this with
  | None => Normal zero
  | Some _ =>
      let x := (u * (elevationWidth this - one))%js in
      let y := (v * (elevationHeight this - one))%js in
      let x0 := floor x in
      let y0 := floor y in
      let x1 := min (x0 + one)%js (elevationWidth this - one)%js in
      let y1 := min (y0 + one)%js (elevationHeight this - one)%js in
      let fx := (x - x0)%js in
      let fy := (y - y0)%js in
      v00 <- _getElevationAt x0 y0 ;;
      v10 <- _getElevationAt x1 y0 ;;
      v01 <- _getElevationAt x0 y1 ;;
      v11 <- _getElevationAt x1 y1 ;;
      if negb (isFinite v00) || negb (isFinite v10) ||
         negb (isFinite v01) || negb (isFinite v11)
      then Normal NaN
      else
        let vA := (v00 * (one - fx) + v10 * fx)%js in
        let vB := (v01 * (one - fx) + v11 * fx)%js in
        Normal (vA * (one - fy) + vB * fy)%js
  end.

(** [getHeightScale()] *)
Definition getHeightScale : num :=
  let scale := (zExaggeration this / realWorldScale this)%js in
  if isFinite scale && gt scale zero then scale else Fin (1 # 1000).

(** [getHeightAtLocalPosition(x, z)] *)
Definition getHeightAtLocalPosition (x z : num) : completion num :=
  let halfWidth := (modelWidth this / Fin 2)%js in
  let halfHeight := (modelHeight this / Fin 2)%js in
  let u := ((x + halfWidth) / modelWidth this)%js in
  let v := ((z + halfHeight) / modelHeight this)%js in
  if lt u zero || gt u one || lt v zero || gt v one then Normal zero
  else
    elevation <- _sampleElevation u v ;;
    if negb (isFinite elevation) then Normal zero
    else
      let heightScale := getHeightScale in
      Normal ((elevation - referenceElevation this) * heightScale)%js.

End Elevation.

(* ===================================================================== *)
(** * Vertex colouring and triangle filtering *)
(* ===================================================================== *)

(** An RGB colour [[r, g, b]]. *)
Abbreviation rgb := (num * num * num)%type.

(** Modelled from the spec: [processInChunks(total, chunkSize, fn,
    onProgress)] of [utils.js] is not among the sources.  Per the overview it
    processes the items [0 .. total-1] in order, [chunkSize] at a time,
    yielding to the event loop between chunks; the yield has no effect on the
    data.  The items are the naturals [i] with [i < total]. *)
Definition processInChunks {St : Type} (total : Q) (chunkSize : Z)
    (fn : nat -> St -> completion St) (s : St) : completion St :=
  for_range fn 0 (Z.to_nat (Qceiling total)) s.

(** [uvs.getX(i)] and [uvs.getY(i)]; [undefined] out of range, NaN once it
    meets arithmetic. *)
Definition uv_getX (uvs : list (num * num)) (i : nat) : num :=
  match uvs !! i with Some p => p.1 | None => NaN end.
Definition uv_getY (uvs : list (num * num)) (i : nat) : num :=
  match uvs !! i with Some p => p.2 | None => NaN end.

(** An element of the index buffer is a 32-bit unsigned integer, kept in
    [N]; the code copies such elements and never computes with them.
    [to_uint32] is the conversion of [new Uint32Array(newIndices)] on an
    element of [newIndices], which is an index read from a [Uint32Array] or
    [undefined]. *)
Definition to_uint32 (o : option N) : N :=
  match o with Some n => n | None => 0%N end.

(** [flags[i]] as a condition, for a [Uint8Array] of flags and an index read
    from the index buffer: [undefined], hence false, out of range. *)
Definition flag_at (flags : list bool) (i : option N) : bool :=
  match i with
  | Some n => default false (flags !! N.to_nat n)
  | None => false
  end.

Definition set_geometry (tm : TerrainMesh) (g : BufferGeometry) : TerrainMesh :=
  {| geometry := Some g;
     elevationData := elevationData tm;
     elevationWidth := elevationWidth tm;
     elevationHeight := elevationHeight tm;
     originalIndices := originalIndices tm;
     modelWidth := modelWidth tm;
     modelHeight := modelHeight tm;
     zExaggeration := zExaggeration tm;
     referenceElevation := referenceElevation tm;
     depthRange := depthRange tm;
     noDataValue := noDataValue tm;
     realWorldScale := realWorldScale tm;
     gridWidth := gridWidth tm;
     gridHeight := gridHeight tm |}.

Definition set_originalIndices (tm : TerrainMesh) (o : list N) : TerrainMesh :=
  {| geometry := geometry tm;
     elevationData := elevationData tm;
     elevationWidth := elevationWidth tm;
     elevationHeight := elevationHeight tm;
     originalIndices := Some o;
     modelWidth := modelWidth tm;
     modelHeight := modelHeight tm;
     zExaggeration := zExaggeration tm;
     referenceElevation := referenceElevation tm;
     depthRange := depthRange tm;
     noDataValue := noDataValue tm;
     realWorldScale := realWorldScale tm;
     gridWidth := gridWidth tm;
     gridHeight := gridHeight tm |}.

Section Colouring.

(** The 256-entry table of [utils.js], which is not among the sources. *)
Variable TURBO_COLORMAP : list rgb.
Variable this : TerrainMesh.

(** [TURBO_COLORMAP[i]] *)
Definition colormap_get (i : num) : option rgb :=
  match index_of i with
  | Some n => TURBO_COLORMAP !! n
  | None => None
  end.

(** [_getColorForDepth(depth, minDepth, maxDepth)]; reading a channel of an
    [undefined] table entry is a [TypeError]. *)
Definition _getColorForDepth (depth minDepth maxDepth : num) : completion rgb :=
  let normalized := ((depth - minDepth) / (maxDepth - minDepth))%js in
  let clamped := max zero (min one normalized) in
  let inverted := (one - clamped)%js in
  let index := (inverted * (of_nat (length TURBO_COLORMAP) - one))%js in
  let lower := floor index in
  let upper := ceil index in
  let frac := (index - lower)%js in
  match colormap_get lower, colormap_get upper with
  | Some cL, Some cU =>
      Normal ((cL.1.1 + (cU.1.1 - cL.1.1) * frac)%js,
              (cL.1.2 + (cU.1.2 - cL.1.2) * frac)%js,
              (cL.2 + (cU.2 - cL.2) * frac)%js)
  | _, _ => Throw
  end.

(** [colors[idx] = r; colors[idx + 1] = g; colors[idx + 2] = b] *)
Definition set_rgb (colors : list num) (idx : nat) (c : rgb) : list num :=
  f32_set (f32_set (f32_set colors idx c.1.1) (idx + 1) c.1.2) (idx + 2) c.2.

Definition gray : rgb := (Fin (1 # 2), Fin (1 # 2), Fin (1 # 2)).

(** The callback that [_computeVertexColorsAsync] hands to
    [processInChunks]; the two counters it keeps are only logged. *)
Definition color_vertex (uvs : list (num * num)) (minDepth maxDepth : num)
    (i : nat) (colors : list num) : completion (list num) :=
  let u := uv_getX uvs i in
  let v := uv_getY uvs i in
  elevation <- _sampleElevation this u (one - v)%js ;;
  let idx := (i * 3)%nat in
  if negb (isFinite elevation) then Normal (set_rgb colors idx gray)
  else if ge elevation (referenceElevation this) then Normal (set_rgb colors idx gray)
  else
    let depth := (referenceElevation this - elevation)%js in
    c <- _getColorForDepth depth minDepth maxDepth ;;
    Normal (set_rgb colors idx c).

(** [_computeVertexColorsAsync()], called without a progress callback. *)
Definition _computeVertexColorsAsync : completion TerrainMesh :=
  match geometry this, elevationData this with
  | Some geo, Some _ =>
      match uv geo with
      | None => Normal this
      | Some uvs =>
          let vertexCount := length uvs in
          let colors := replicate (vertexCount * 3) zero in
          let '(minDepth, maxDepth) := depthRange this in
          colors' <- processInChunks (inject_Z (Z.of_nat vertexCount)) 10000
                       (color_vertex uvs minDepth maxDepth) colors ;;
          Normal (set_geometry this
                    {| uv := uv geo; index := index geo; color := Some colors' |})
      end
  | _, _ => Normal this
  end.

End Colouring.

Section Filtering.

Variable this : TerrainMesh.

(** Body of the classification loop of [_filterAboveWaterTrianglesAsync]. *)
Definition classify_vertex (uvs : list (num * num)) (i : nat)
    (flags : list bool * list bool) : completion (list bool * list bool) :=
  let '(isBelowRef, isNoData) := flags in
  let u := uv_getX uvs i in
  let v := (one - uv_getY uvs i)%js in
  near <- _hasNearbyNoData this u v ;;
  if near then Normal (isBelowRef, <[i := true]> isNoData)
  else
    elevation <- _sampleElevation this u v ;;
    if negb (isFinite elevation) then Normal (isBelowRef, <[i := true]> isNoData)
    else if lt elevation (referenceElevation this)
         then Normal (<[i := true]> isBelowRef, isNoData)
         else Normal (isBelowRef, isNoData).

(** The callback handed to [processInChunks]: triangle [t] of [indices]. *)
Definition filter_triangle (indices : list N) (isBelowRef isNoData : list bool)
    (t : nat) (newIndices : list (option N)) : completion (list (option N)) :=
  let i0 := indices !! (t * 3)%nat in
  let i1 := indices !! (t * 3 + 1)%nat in
  let i2 := indices !! (t * 3 + 2)%nat in
  if flag_at isNoData i0 || flag_at isNoData i1 || flag_at isNoData i2
  then Normal newIndices
  else if flag_at isBelowRef i0 || flag_at isBelowRef i1 || flag_at isBelowRef i2
       then Normal (newIndices ++ [i0; i1; i2])
       else Normal newIndices.

(** [_filterAboveWaterTrianglesAsync()], called without a progress
    callback.  The result is the object after the call: [originalIndices]
    is set on the first call and the index of the geometry is replaced. *)
Definition _filterAboveWaterTrianglesAsync : completion TerrainMesh :=
  match geometry this, elevationData this with
  | Some geo, Some _ =>
      match uv geo, index geo with
      | Some uvs, Some index_array =>
          let indices :=
            match originalIndices this with
            | Some o => o
            | None => index_array
            end in
          let vertexCount := length uvs in
          let triangleCount := (inject_Z (Z.of_nat (length indices)) / 3)%Q in
          flags <- for_range (classify_vertex uvs) 0 vertexCount
                     (replicate vertexCount false, replicate vertexCount false) ;;
          let '(isBelowRef, isNoData) := flags in
          newIndices <- processInChunks triangleCount 5000
                          (filter_triangle indices isBelowRef isNoData) [] ;;
          Normal (set_geometry (set_originalIndices this indices)
                    {| uv := uv geo;
                       index := Some (map to_uint32 newIndices);
                       color := color geo |})
      | _, _ => Normal this
      end
  | _, _ => Normal this
  end.

End Filtering.

(* ===================================================================== *)
(** * Contour extraction *)
(* ===================================================================== *)

(** Marching squares edge lookup table (16 cases).  Edges: 0=top, 1=right,
    2=bottom, 3=left.  Cases 5 and 10 are the saddles, [null] in the table. *)
Definition MS_EDGE_TABLE : list (option (list (nat * nat))) :=
  [ Some [];
    Some [(3, 2)];
    Some [(2, 1)];
    Some [(3, 1)];
    Some [(0, 1)];
    None;
    Some [(0, 2)];
    Some [(3, 0)];
    Some [(0, 3)];
    Some [(0, 2)];
    None;
    Some [(0, 1)];
    Some [(3, 1)];
    Some [(2, 1)];
    Some [(3, 2)];
    Some [] ]%nat.

(** A point [[x, z]] of a polyline. *)
Abbreviation point := (num * num)%type.

(** [data[n]] on a plain array of numbers. *)
Definition num_at (data : list num) (n : nat) : num := f32_get data n.

(** The classification of the four corners of a cell. *)
Definition caseBits (tl tr br bl threshold : num) : Z :=
  Z.lor (Z.lor (Z.lor (if ge tl threshold then 8 else 0)
                      (if ge tr threshold then 4 else 0))
               (if ge br threshold then 2 else 0))
        (if ge bl threshold then 1 else 0).

(** The edge pairs that a cell emits: the part of the cell loop of
    [generateContours] from the NaN test to the choice of [edges].  The two
    [continue]s leave nothing to emit. *)
Definition cell_edges (tl tr br bl threshold : num) : completion (list (nat * nat)) :=
  if strict_ne tl tl || strict_ne tr tr || strict_ne br br || strict_ne bl bl
  then Normal []
  else
    let caseBits := caseBits tl tr br bl threshold in
    if (caseBits =? 0)%Z || (caseBits =? 15)%Z then Normal []
    else if (caseBits =? 5)%Z then
      let center := ((tl + tr + br + bl) * Fin (1 # 4))%js in
      Normal (if ge center threshold
              then [(3, 0); (2, 1)]%nat
              else [(0, 1); (3, 2)]%nat)
    else if (caseBits =? 10)%Z then
      let center := ((tl + tr + br + bl) * Fin (1 # 4))%js in
      Normal (if ge center threshold
              then [(0, 1); (3, 2)]%nat
              else [(3, 0); (2, 1)]%nat)
    else
      match MS_EDGE_TABLE !! Z.to_nat caseBits with
      | Some (Some edges) => Normal edges
      | _ => Throw
      end.

(** [_interpolateEdge]; [None] is the [undefined] of an edge outside 0..3. *)
Definition _interpolateEdge (edge : nat) (threshold tl tr br bl x0 x1 z0 z1 : num)
    : option (num * num * num) :=
  match edge with
  | 0%nat =>
      let t := ((threshold - tl) / (tr - tl))%js in
      Some ((x0 + t * (x1 - x0))%js, z0, t)
  | 1%nat =>
      let t := ((threshold - tr) / (br - tr))%js in
      Some (x1, (z0 + t * (z1 - z0))%js, t)
  | 2%nat =>
      let t := ((threshold - bl) / (br - bl))%js in
      Some ((x0 + t * (x1 - x0))%js, z1, t)
  | 3%nat =>
      let t := ((threshold - tl) / (bl - tl))%js in
      Some (x0, (z0 + t * (z1 - z0))%js, t)
  | _ => None
  end.

(** The two corner-normal offsets of an edge (the [switch] of the cell
    loop): edge 0: tl-tr, edge 1: tr-br, edge 2: bl-br, edge 3: tl-bl. *)
Definition edge_normals (e ntl ntr nbr nbl : nat) : option (nat * nat) :=
  match e with
  | 0%nat => Some (ntl, ntr)
  | 1%nat => Some (ntr, nbr)
  | 2%nat => Some (nbl, nbr)
  | 3%nat => Some (ntl, nbl)
  | _ => None
  end.

(** ** Douglas-Peucker *)

(** The scan [for (let i = 1; i < points.length - 1; i++)] over the interior
    points, [dSq_of] being the squared distance computed in the loop body. *)
Fixpoint farthest (dSq_of : point -> num) (interior : list point) (i : nat)
    (maxDistSq : num) (maxIdx : nat) : num * nat :=
  match interior with
  | [] => (maxDistSq, maxIdx)
  | p :: rest =>
      let dSq := dSq_of p in
      if gt dSq maxDistSq
      then farthest dSq_of rest (S i) dSq i
      else farthest dSq_of rest (S i) maxDistSq maxIdx
  end.

(** Squared distance to [first], for a chord of no length. *)
Definition dSq_point (first : point) (p : point) : num :=
  let px := (p.1 - first.1)%js in
  let pz := (p.2 - first.2)%js in
  (px * px + pz * pz)%js.

(** Squared distance to the line through [first] with direction [(dx, dz)]. *)
Definition dSq_line (first : point) (dx dz invLen : num) (p : point) : num :=
  let px := (p.1 - first.1)%js in
  let pz := (p.2 - first.2)%js in
  let t := ((px * dx + pz * dz) * invLen)%js in
  let ex := (px - t * dx)%js in
  let ez := (pz - t * dz)%js in
  (ex * ex + ez * ez)%js.

(** The interior points [points[1 .. length-2]]. *)
Definition interior (points : list point) : list point :=
  removelast (tail points).

(** [maxDistSq] and [maxIdx] after the scan of [_simplifyPolyline2D]. *)
Definition farthest_from_chord (points : list point) (first last : point)
    : num * nat :=
  let dx := (last.1 - first.1)%js in
  let dz := (last.2 - first.2)%js in
  let lineLenSq := (dx * dx + dz * dz)%js in
  if lt lineLenSq (Fin (1 # 100000000000000000000))
  then farthest (dSq_point first) (interior points) 1 zero 0
  else
    let invLen := (one / lineLenSq)%js in
    farthest (dSq_line first dx dz invLen) (interior points) 1 zero 0.

(** [_simplifyPolyline2D(points, tolerance)]; every call spends one unit of
    fuel. *)
Fixpoint simplify_fuel (fuel : nat) (points : list point) (tolerance : num)
    : completion (list point) :=
  match fuel with
  | O => OutOfFuel
  | S fuel' =>
      match points with
      | [] | [_] | [_; _] => Normal points
      | first :: _ =>
          let tolSq := (tolerance * tolerance)%js in
          let last := List.last points first in
          let '(maxDistSq, maxIdx) := farthest_from_chord points first last in
          if gt maxDistSq tolSq then
            left <- simplify_fuel fuel' (take (maxIdx + 1) points) tolerance ;;
            right <- simplify_fuel fuel' (drop maxIdx points) tolerance ;;
            Normal (removelast left ++ right)
          else Normal [first; last]
      end
  end.

(** The recursion is on strictly shorter slices, so the length bounds it. *)
Definition _simplifyPolyline2D (points : list point) (tolerance : num)
    : completion (list point) :=
  simplify_fuel (S (length points)) points tolerance.

(** ** Chaining *)

(** The adjacency map of [_chainAndSimplifySegments].  Its keys are the
    strings [x + ',' + z]; two keys are the same string exactly when the
    numbers print alike, which for NaN is always and otherwise is equality. *)
Definition same_string (x y : num) : bool :=
  match x, y with
  | NaN, NaN | PosInf, PosInf | NegInf, NegInf => true
  | Fin a, Fin b => Qeq_bool a b
  | _, _ => false
  end.

Definition key_eqb (a b : point) : bool :=
  same_string a.1 b.1 && same_string a.2 b.2.

(** An entry [{ seg, end }] is the pair [(seg, end)]. *)
Definition adjacency : Type := list (point * list (nat * nat)).

(** [adj.get(k)] *)
Fixpoint adj_get (adj : adjacency) (k : point) : option (list (nat * nat)) :=
  match adj with
  | [] => None
  | (k', l) :: rest => if key_eqb k' k then Some l else adj_get rest k
  end.

(** [let l = adj.get(k); if (!l) { l = []; adj.set(k, l); } l.push(e);] *)
Fixpoint adj_push (adj : adjacency) (k : point) (e : nat * nat) : adjacency :=
  match adj with
  | [] => [(k, [e])]
  | (k', l) :: rest =>
      if key_eqb k' k then (k', l ++ [e]) :: rest
      else (k', l) :: adj_push rest k e
  end.

(** The first loop of [_chainAndSimplifySegments]. *)
Definition build_adjacency (data : list num) (segCount : nat) : adjacency :=
  fold_left
    (fun adj i =>
       let ax := num_at data (i * 6) in
       let az := num_at data (i * 6 + 2) in
       let bx := num_at data (i * 6 + 3) in
       let bz := num_at data (i * 6 + 5) in
       adj_push (adj_push adj (ax, az) (i, 0%nat)) (bx, bz) (i, 1%nat))
    (seq 0 segCount) [].

(** [used[seg]] as a condition. *)
Definition is_used (used : list bool) (seg : nat) : bool :=
  default false (used !! seg).

(** The inner [for (const n of neighbors)]: the first entry whose segment is
    not used yet. *)
Fixpoint first_unused (used : list bool) (neighbors : list (nat * nat))
    : option (nat * nat) :=
  match neighbors with
  | [] => None
  | n :: rest => if is_used used n.1 then first_unused used rest else Some n
  end.

(** One of the two [for (;;)] walks: from [curKey], follow unused segments,
    collecting the far end of each. *)
Fixpoint walk (fuel : nat) (data : list num) (adj : adjacency)
    (used : list bool) (curKey : point) (out : list point)
    : completion (list bool * list point) :=
  match fuel with
  | O => OutOfFuel
  | S fuel' =>
      match adj_get adj curKey with
      | None => Normal (used, out)
      | Some neighbors =>
          match first_unused used neighbors with
          | None => Normal (used, out)
          | Some n =>
              let used' := <[n.1 := true]> used in
              let off := if (n.2 =? 0)%nat then (n.1 * 6 + 3)%nat else (n.1 * 6)%nat in
              let nx := num_at data off in
              let nz := num_at data (off + 2) in
              walk fuel' data adj used' (nx, nz) (out ++ [(nx, nz)])
          end
      end
  end.

(** The segments of a polyline, as pushed onto [result]. *)
Fixpoint polyline_segments (simplified : list point) (contourY : num) : list num :=
  match simplified with
  | a :: (b :: _) as rest =>
      [a.1; contourY; a.2; b.1; contourY; b.2] ++ polyline_segments rest contourY
  | _ => []
  end.

(** Body of the main loop of [_chainAndSimplifySegments].  A walk marks one
    more segment at every step, so [segCount + 1] steps bound it. *)
Definition chain_from (data : list num) (adj : adjacency) (segCount : nat)
    (contourY tolerance : num) (i : nat) (st : list bool * list num)
    : completion (list bool * list num) :=
  let '(used, result) := st in
  if is_used used i then Normal (used, result)
  else
    let used := <[i := true]> used in
    let ax := num_at data (i * 6) in
    let az := num_at data (i * 6 + 2) in
    let bx := num_at data (i * 6 + 3) in
    let bz := num_at data (i * 6 + 5) in
    f <- walk (S segCount) data adj used (bx, bz) [] ;;
    let '(used, fwd) := f in
    b <- walk (S segCount) data adj used (ax, az) [] ;;
    let '(used, bwd) := b in
    let poly := rev bwd ++ [(ax, az); (bx, bz)] ++ fwd in
    simplified <- _simplifyPolyline2D poly tolerance ;;
    Normal (used, result ++ polyline_segments simplified contourY).

(** [_chainAndSimplifySegments(data, contourY, tolerance)]; [data] holds
    whole segments, six numbers each. *)
Definition _chainAndSimplifySegments (data : list num) (contourY tolerance : num)
    : completion (list num) :=
  let segCount := (length data / 6)%nat in
  if (segCount =? 0)%nat then Normal data
  else
    let adj := build_adjacency data segCount in
    let used := replicate segCount false in
    r <- for_range (chain_from data adj segCount contourY tolerance) 0 segCount
           (used, []) ;;
    Normal r.2.

(** ** generateContours *)

(** [{ segments, vertexCount, aborted }]; the result for an empty list of
    thresholds has no [aborted] field. *)
Record GenerationResult : Type := {
  segments : list num;
  vertexCount : num;
  aborted : option bool
}.

(** [for (const x of xs) body(x)], threading the state. *)
Fixpoint for_of {A St : Type} (body : A -> St -> completion St)
    (xs : list A) (s : St) : completion St :=
  match xs with
  | [] => Normal s
  | x :: rest => bind (body x s) (for_of body rest)
  end.

Section Contours.

(** [Math.sqrt], which the exact numbers cannot compute. *)
Variable Math_sqrt : num -> num.
Variable this : TerrainMesh.

(** The threshold loop [for (let depth = interval; depth <=
    maxContourDepth; depth += interval)]; one unit of fuel per test of the
    condition. *)
Fixpoint build_thresholds (fuel : nat)
    (referenceElevation minElevation interval maxContourDepth : num)
    (depth : num) (thresholds : list num) : completion (list num) :=
  match fuel with
  | O => OutOfFuel
  | S fuel' =>
      if le depth maxContourDepth then
        let ahdLevel := (referenceElevation - depth)%js in
        let thresholds :=
          if ge ahdLevel minElevation then thresholds ++ [ahdLevel] else thresholds in
        build_thresholds fuel' referenceElevation minElevation interval
          maxContourDepth (depth + interval)%js thresholds
      else Normal thresholds
  end.

(** The sampling grid [grid]. *)
Definition build_grid (gw gh : nat) : completion (list num) :=
  for_range
    (fun gy grid =>
       let v := (of_nat gy / (of_nat gh - one))%js in
       for_range
         (fun gx grid =>
            let u := (of_nat gx / (of_nat gw - one))%js in
            e <- _sampleElevation this u v ;;
            Normal (f32_set grid (gy * gw + gx) e))
         0 gw grid)
    0 gh (replicate (gw * gh) zero).

(** [modelX] and, with the height of the model, [modelZ]. *)
Definition build_axis (n : nat) (size half : num) : completion (list num) :=
  for_range
    (fun g axis => Normal (f32_set axis g ((of_nat g / (of_nat n - one)) * size - half)%js))
    0 n (replicate n zero).

(** The per-vertex normals [vertexNormals], by central differences. *)
Definition build_vertexNormals (grid : list num) (gw gh : nat)
    (cellW cellH heightScale : num) : completion (list num) :=
  for_range
    (fun gy vertexNormals =>
       for_range
         (fun gx vertexNormals =>
            let idx := ((gy * gw + gx) * 3)%nat in
            let c := f32_get grid (gy * gw + gx) in
            if strict_ne c c then
              Normal (f32_set (f32_set (f32_set vertexNormals idx zero)
                                 (idx + 1) one) (idx + 2) zero)
            else
              let left := if (0 <? gx)%nat then f32_get grid (gy * gw + gx - 1) else c in
              let right := if (gx <? gw - 1)%nat then f32_get grid (gy * gw + gx + 1) else c in
              let up := if (0 <? gy)%nat then f32_get grid ((gy - 1) * gw + gx) else c in
              let down := if (gy <? gh - 1)%nat then f32_get grid ((gy + 1) * gw + gx) else c in
              let l := if strict_eq left left then left else c in
              let r := if strict_eq right right then right else c in
              let u := if strict_eq up up then up else c in
              let d := if strict_eq down down then down else c in
              let dx := if (0 <? gx)%nat && (gx <? gw - 1)%nat then Fin 2 else one in
              let dz := if (0 <? gy)%nat && (gy <? gh - 1)%nat then Fin 2 else one in
              let gradX := ((r - l) / (dx * cellW) * heightScale)%js in
              let gradZ := ((d - u) / (dz * cellH) * heightScale)%js in
              let nLen := Math_sqrt (gradX * gradX + one + gradZ * gradZ)%js in
              Normal (f32_set (f32_set (f32_set vertexNormals idx (neg gradX / nLen)%js)
                                 (idx + 1) (one / nLen)%js)
                        (idx + 2) (neg gradZ / nLen)%js))
         0 gw vertexNormals)
    0 gh (replicate (gw * gh * 3) zero).

(** Body of [for (const [e0, e1] of edges)]: one segment, six numbers. *)
Definition emit_segment (vertexNormals : list num)
    (threshold tl tr br bl x0 x1 z0 z1 : num) (ntl ntr nbr nbl : nat)
    (contourY heightOffset : num) (e : nat * nat) (chunkData : list num)
    : completion (list num) :=
  let '(e0, e1) := e in
  match _interpolateEdge e0 threshold tl tr br bl x0 x1 z0 z1,
        _interpolateEdge e1 threshold tl tr br bl x0 x1 z0 z1,
        edge_normals e0 ntl ntr nbr nbl,
        edge_normals e1 ntl ntr nbr nbl with
  | Some p0, Some p1, Some (n0i0, n0i1), Some (n1i0, n1i1) =>
      let t0 := p0.2 in
      let t1 := p1.2 in
      let vn := f32_get vertexNormals in
      let nx0 := (vn n0i0 + t0 * (vn n0i1 - vn n0i0))%js in
      let ny0 := (vn (n0i0 + 1)%nat + t0 * (vn (n0i1 + 1)%nat - vn (n0i0 + 1)%nat))%js in
      let nz0 := (vn (n0i0 + 2)%nat + t0 * (vn (n0i1 + 2)%nat - vn (n0i0 + 2)%nat))%js in
      let nx1 := (vn n1i0 + t1 * (vn n1i1 - vn n1i0))%js in
      let ny1 := (vn (n1i0 + 1)%nat + t1 * (vn (n1i1 + 1)%nat - vn (n1i0 + 1)%nat))%js in
      let nz1 := (vn (n1i0 + 2)%nat + t1 * (vn (n1i1 + 2)%nat - vn (n1i0 + 2)%nat))%js in
      Normal (chunkData ++
              [ (p0.1.1 + nx0 * heightOffset)%js;
                (contourY + ny0 * heightOffset)%js;
                (p0.1.2 + nz0 * heightOffset)%js;
                (p1.1.1 + nx1 * heightOffset)%js;
                (contourY + ny1 * heightOffset)%js;
                (p1.1.2 + nz1 * heightOffset)%js ])
  | _, _, _, _ => Throw
  end.

(** Body of the cell loop for the cell with top-left vertex [(gx, gy)]. *)
Definition march_cell (grid modelX modelZ vertexNormals : list num) (gw : nat)
    (threshold contourY heightOffset : num) (gy gx : nat) (chunkData : list num)
    : completion (list num) :=
  let rowOffset := (gy * gw)%nat in
  let nextRowOffset := ((gy + 1) * gw)%nat in
  let tl := f32_get grid (rowOffset + gx) in
  let tr := f32_get grid (rowOffset + gx + 1) in
  let br := f32_get grid (nextRowOffset + gx + 1) in
  let bl := f32_get grid (nextRowOffset + gx) in
  edges <- cell_edges tl tr br bl threshold ;;
  let x0 := f32_get modelX gx in
  let x1 := f32_get modelX (gx + 1) in
  let z0 := f32_get modelZ gy in
  let z1 := f32_get modelZ (gy + 1) in
  let ntl := ((gy * gw + gx) * 3)%nat in
  let ntr := ((gy * gw + gx + 1) * 3)%nat in
  let nbr := (((gy + 1) * gw + gx + 1) * 3)%nat in
  let nbl := (((gy + 1) * gw + gx) * 3)%nat in
  for_of (emit_segment vertexNormals threshold tl tr br bl x0 x1 z0 z1
            ntl ntr nbr nbl contourY heightOffset) edges chunkData.

(** [chunkData] of one threshold: marching squares over all cells. *)
Definition march (grid modelX modelZ vertexNormals : list num) (gw gh : nat)
    (threshold contourY heightOffset : num) : completion (list num) :=
  for_range
    (fun gy chunkData =>
       for_range
         (march_cell grid modelX modelZ vertexNormals gw threshold contourY
            heightOffset gy)
         0 (gw - 1) chunkData)
    0 (gh - 1) [].

(** The work on one threshold, up to the progress report: marching squares,
    then the optional chaining and simplification, and the update of
    [segmentChunks] and [totalVertices]. *)
Definition threshold_step (grid modelX modelZ vertexNormals : list num) (gw gh : nat)
    (referenceElevation heightScale heightOffset simplifyTolerance : num)
    (threshold : num) (acc : list (list num) * num)
    : completion (list (list num) * num) :=
  let '(segmentChunks, totalVertices) := acc in
  let contourY := ((threshold - referenceElevation) * heightScale)%js in
  chunkData <- march grid modelX modelZ vertexNormals gw gh threshold
                 contourY heightOffset ;;
  if (0 <? length chunkData)%nat then
    if gt simplifyTolerance zero then
      simplified <- _chainAndSimplifySegments chunkData contourY simplifyTolerance ;;
      Normal (segmentChunks ++ [simplified],
              (totalVertices + of_nat (length simplified) / Fin 3)%js)
    else
      Normal (segmentChunks ++ [chunkData],
              (totalVertices + of_nat (length chunkData) / Fin 3)%js)
  else Normal (segmentChunks, totalVertices).

(** The loop over the thresholds, from threshold [ti] on.  [progress]
    collects the arguments of the calls of [onProgress]. *)
Fixpoint contour_loop (grid modelX modelZ vertexNormals : list num) (gw gh : nat)
    (referenceElevation heightScale heightOffset simplifyTolerance maxVertices : num)
    (count : nat) (thresholds : list num) (ti : nat)
    (acc : list (list num) * num) (progress : list num)
    : completion (GenerationResult * list num) :=
  match thresholds with
  | [] =>
      Normal ({| segments := concat acc.1;
                 vertexCount := acc.2;
                 aborted := Some false |}, progress)
  | threshold :: rest =>
      acc <- threshold_step grid modelX modelZ vertexNormals gw gh
               referenceElevation heightScale heightOffset simplifyTolerance
               threshold acc ;;
      let totalVertices := acc.2 in
      let progress := progress ++ [(of_nat (ti + 1) / of_nat count)%js] in
      if gt maxVertices zero && gt totalVertices maxVertices then
        Normal ({| segments := [];
                   vertexCount := totalVertices;
                   aborted := Some true |}, progress)
      else
        contour_loop grid modelX modelZ vertexNormals gw gh referenceElevation
          heightScale heightOffset simplifyTolerance maxVertices count rest
          (S ti) acc progress
  end.

(** [generateContours(referenceElevation, minElevation, interval,
    heightOffset, onProgress, simplifyTolerance, maxVertices)].  The result
    is what the call returns ([None] for [null]) and the arguments that
    [onProgress] received.  The buffer allocated for [segments] has exactly
    the length of the chunks together, so filling it concatenates them. *)
Definition generateContours (fuel : nat)
    (referenceElevation minElevation interval heightOffset : num)
    (simplifyTolerance maxVertices : num)
    : completion (option GenerationResult * list num) :=
  match elevationData this with
  | None => Normal (None, [])
  | Some _ =>
      if (gridWidth this =? 0)%nat || (gridHeight this =? 0)%nat
      then Normal (None, [])
      else
        let gw := gridWidth this in
        let gh := gridHeight this in
        let heightScale := getHeightScale this in
        let maxContourDepth := round (referenceElevation - minElevation)%js in
        thresholds <- build_thresholds fuel referenceElevation minElevation
                        interval maxContourDepth interval [] ;;
        if (length thresholds =? 0)%nat then
          Normal (Some {| segments := []; vertexCount := zero; aborted := None |}, [])
        else
          grid <- build_grid gw gh ;;
          let halfW := (modelWidth this / Fin 2)%js in
          let halfH := (modelHeight this / Fin 2)%js in
          modelX <- build_axis gw (modelWidth this) halfW ;;
          modelZ <- build_axis gh (modelHeight this) halfH ;;
          let cellW := (modelWidth this / (of_nat gw - one))%js in
          let cellH := (modelHeight this / (of_nat gh - one))%js in
          vertexNormals <- build_vertexNormals grid gw gh cellW cellH heightScale ;;
          r <- contour_loop grid modelX modelZ vertexNormals gw gh
                 referenceElevation heightScale heightOffset simplifyTolerance
                 maxVertices (length thresholds) thresholds 0 ([], zero) [] ;;
          Normal (Some r.1, r.2)
  end.

End Contours.

(* ===================================================================== *)
(** * Specification-level definitions *)
(* ===================================================================== *)

(** NoData as the specification words it: non-finite, at least 1e5, or equal
    to the configured value.  A sample that the raster does not hold counts
    as NoData. *)
Definition NoData (noData : option num) (s : value) : Prop :=
  match s with
  | Undefined => True
  | Num (Fin q) =>
      (100000 <= q)%Q \/ exists n, noData = Some (Fin n) /\ (q == n)%Q
  | Num _ => True
  end.

(** The interpolation in the shape the code computes it. *)
Definition bilinear (v00 v10 v01 v11 fx fy : num) : num :=
  let vA := (v00 * (one - fx) + v10 * fx)%js in
  let vB := (v01 * (one - fx) + v11 * fx)%js in
  (vA * (one - fy) + vB * fy)%js.

(** The number held by a sample. *)
Definition sample_of (s : value) : num :=
  match s with Num x => x | Undefined => NaN end.

(** The raster sample with the integer index [z]. *)
Definition sample (d : list num) (z : Z) : value :=
  match d !! Z.to_nat z with Some x => Num x | None => Undefined end.

(** A number that is the integer [z]. *)
Definition int_val (x : num) (z : Z) : Prop :=
  exists q, x = Fin q /\ (q == inject_Z z)%Q.

(** A call that throws. *)
Definition fails_loudly {A : Type} (c : completion A) : Prop := c = Throw.

(** The number a call returns. *)
Definition returned (c : completion num) : num :=
  match c with Normal e => e | _ => NaN end.

(** The classification of vertex [i] by the triangle filter: the elevation
    at its V-flipped UV, whether it counts as NoData and whether it lies
    below the reference. *)
Definition vertex_sample (tm : TerrainMesh) (uvs : list (num * num)) (i : nat) : num :=
  returned (_sampleElevation tm (uv_getX uvs i) (one - uv_getY uvs i)%js).

Definition vertex_noData (tm : TerrainMesh) (uvs : list (num * num)) (i : nat) : bool :=
  match _hasNearbyNoData tm (uv_getX uvs i) (one - uv_getY uvs i)%js with
  | Normal b => b
  | _ => true
  end || negb (isFinite (vertex_sample tm uvs i)).

Definition vertex_below (tm : TerrainMesh) (uvs : list (num * num)) (i : nat) : bool :=
  lt (vertex_sample tm uvs i) (referenceElevation tm).

(** The flag [isBelowRef] of the filter: below the reference and not NoData. *)
Definition vertex_belowRef (tm : TerrainMesh) (uvs : list (num * num)) (i : nat) : bool :=
  negb (vertex_noData tm uvs i) && vertex_below tm uvs i.

(** The triangles of an index buffer, in order. *)
Fixpoint triangles (indices : list N) : list (N * N * N) :=
  match indices with
  | a :: b :: c :: rest => (a, b, c) :: triangles rest
  | _ => []
  end.

(** The three indices of a triangle, as they lie in the buffer. *)
Definition triangle_indices (t : N * N * N) : list N := [t.1.1; t.1.2; t.2].

(** The triangles that the specification keeps: no vertex NoData, some
    vertex strictly below the reference. *)
Definition kept (tm : TerrainMesh) (uvs : list (num * num)) (t : N * N * N) : bool :=
  let noData i := vertex_noData tm uvs (N.to_nat i) in
  let below i := vertex_below tm uvs (N.to_nat i) in
  negb (noData t.1.1 || noData t.1.2 || noData t.2)
  && (below t.1.1 || below t.1.2 || below t.2).

(** The 4-bit code of a cell: top-left is the high bit, then top-right,
    bottom-right, bottom-left. *)
Definition corner_bit (c threshold : num) : Z := if ge c threshold then 1 else 0.

(** The code of the cell, from the four bits. *)
Definition corner_code (tl tr br bl threshold : num) : Z :=
  8 * corner_bit tl threshold + 4 * corner_bit tr threshold
  + 2 * corner_bit br threshold + corner_bit bl threshold.

(** The thresholds of the ramp scenario, as the loop produces them. *)
Definition ramp_thresholds : list num :=
  [Fin 90; Fin 80; Fin 70; Fin 60; Fin 50; Fin 40; Fin 30; Fin 20; Fin 10; Fin 0].

(** Clamping to [0, 1]. *)
Definition clamp01 (q : Q) : Q := Qmax 0 (Qmin 1 q).

(** The fractional index into the 256-entry table for a depth: the depth
    normalised into the depth range, clamped, inverted and scaled by 255. *)
Definition fractional_index (depth minDepth maxDepth : Q) : Q :=
  ((1 - clamp01 ((depth - minDepth) / (maxDepth - minDepth))) * 255)%Q.

(** Linear interpolation from [a] to [b]. *)
Definition lerp (a b : num) (f : Q) : num := (a + (b - a) * Fin f)%js.

(** The table interpolated linearly at the fractional index [t], between
    the entries below and above it. *)
Definition colormap_at (table : list rgb) (t : Q) : option rgb :=
  match table !! Z.to_nat (Qfloor t), table !! Z.to_nat (Qceiling t) with
  | Some cL, Some cU =>
      let f := (t - inject_Z (Qfloor t))%Q in
      Some (lerp cL.1.1 cU.1.1 f, lerp cL.1.2 cU.1.2 f, lerp cL.2 cU.2 f)
  | _, _ => None
  end.

(** Equality of colours as values. *)
Definition rgb_eq (a b : rgb) : Prop :=
  num_eq a.1.1 b.1.1 /\ num_eq a.1.2 b.1.2 /\ num_eq a.2 b.2.

(** A channel in [0, 1], and a colour of such channels. *)
Definition unit_channel (x : num) : Prop :=
  exists q, x = Fin q /\ (0 <= q <= 1)%Q.

Definition unit_rgb (c : rgb) : Prop :=
  unit_channel c.1.1 /\ unit_channel c.1.2 /\ unit_channel c.2.

(** The colour the specification gives vertex [i]. *)
Definition vertex_color (T : list rgb) (tm : TerrainMesh) (uvs : list (num * num))
    (i : nat) : option rgb :=
  let elevation := vertex_sample tm uvs i in
  if negb (isFinite elevation) || ge elevation (referenceElevation tm) then Some gray
  else
    match elevation, referenceElevation tm, depthRange tm with
    | Fin e, Fin r, (Fin minDepth, Fin maxDepth) =>
        colormap_at T (fractional_index (r - e) minDepth maxDepth)
    | _, _, _ => None
    end.

(** The colour the callback writes for vertex [i]. *)
Definition vertex_rgb (T : list rgb) (tm : TerrainMesh) (uvs : list (num * num))
    (minDepth maxDepth : num) (i : nat) : rgb :=
  let elevation := vertex_sample tm uvs i in
  if negb (isFinite elevation) then gray
  else if ge elevation (referenceElevation tm) then gray
  else match _getColorForDepth T (referenceElevation tm - elevation)%js minDepth maxDepth with
       | Normal c => c
       | _ => gray
       end.

(** The three channels of a colour, as they lie in the colour buffer. *)
Definition channels (c : rgb) : list num := [c.1.1; c.1.2; c.2].

(** A call that returns, with a result satisfying [P]. *)
Definition returns {A : Type} (c : completion A) (P : A -> Prop) : Prop :=
  exists a, c = Normal a /\ P a.

(** No condition on the result. *)
Definition anything {A : Type} : A -> Prop := fun _ => True.

(** Edge pairs whose edges are among 0..3. *)
Definition valid_pair (e : nat * nat) : Prop := (e.1 < 4 /\ e.2 < 4)%nat.

(** The number of segments not used yet, which bounds a walk. *)
Fixpoint unused (used : list bool) : nat :=
  match used with
  | [] => 0
  | b :: rest => (if b then 0 else 1) + unused rest
  end.

(** Every entry of the adjacency map names one of the [n] segments. *)
Definition adj_ok (adj : adjacency) (n : nat) : Prop :=
  Forall (fun kl => Forall (fun e : nat * nat => (e.1 < n)%nat) kl.2) adj.

(** The test that ends the generation after a threshold. *)
Definition over_budget (maxVertices totalVertices : num) : bool :=
  gt maxVertices zero && gt totalVertices maxVertices.

(** The arguments of the progress reports of the thresholds [from],
    [from + 1], ..., [from + k - 1] out of [count]. *)
Definition progress_reports (from k count : nat) : list num :=
  map (fun ti => (of_nat (ti + 1) / of_nat count)%js) (seq from k).

(** Fuel that lets the threshold loop end. *)
Definition threshold_fuel (r m i : Q) : nat :=
  S (Z.to_nat (Qceiling (inject_Z (Qfloor (r - m + (1 # 2))) / i))).

(* ===================================================================== *)
(** * Sample objects *)
(* ===================================================================== *)

(** A terrain as the constructor leaves it: no elevation grid yet. *)
Definition tm_unset : TerrainMesh :=
  {| geometry := None;
     elevationData := None;
     elevationWidth := zero;
     elevationHeight := zero;
     originalIndices := None;
     modelWidth := one;
     modelHeight := one;
     zExaggeration := Fin 4;
     referenceElevation := Fin 157;
     depthRange := (zero, Fin 31);
     noDataValue := None;
     realWorldScale := one;
     gridWidth := 0;
     gridHeight := 0 |}.

(** A 2 x 2 raster, flat at elevation 10, with reference elevation 0 and a
    given real-world scale. *)
Definition tm_flat (scale : num) : TerrainMesh :=
  {| geometry := None;
     elevationData := Some [Fin 10; Fin 10; Fin 10; Fin 10];
     elevationWidth := Fin 2;
     elevationHeight := Fin 2;
     originalIndices := None;
     modelWidth := one;
     modelHeight := one;
     zExaggeration := Fin 4;
     referenceElevation := zero;
     depthRange := (zero, Fin 31);
     noDataValue := None;
     realWorldScale := scale;
     gridWidth := 2;
     gridHeight := 2 |}.

(** Three points on a line. *)
Definition straight : list point := [(Fin 0, Fin 0); (Fin 1, Fin 0); (Fin 2, Fin 0)].

(** [Math.sqrt] to twelve decimal places, for evaluating the model. *)
Definition sqrt_approx (x : num) : num :=
  match x with
  | Fin q =>
      if Qle_bool 0 q
      then Fin (Qred (Z.sqrt (Qnum q * Zpos (Qden q) * 10 ^ 24) # (Qden q * 10 ^ 12)))
      else NaN
  | PosInf => PosInf
  | _ => NaN
  end.

(** A 2 x 2 raster rising from 0 on the left to 100 on the right, with the
    plane geometry of one quad: four vertices, two triangles. *)
Definition tm_ramp : TerrainMesh :=
  {| geometry := Some {| uv := Some [(Fin 0, Fin 1); (Fin 1, Fin 1); (Fin 0, Fin 0); (Fin 1, Fin 0)];
                         index := Some [0; 2; 1; 2; 3; 1]%N;
                         color := None |};
     elevationData := Some [Fin 0; Fin 100; Fin 0; Fin 100];
     elevationWidth := Fin 2;
     elevationHeight := Fin 2;
     originalIndices := None;
     modelWidth := one;
     modelHeight := one;
     zExaggeration := Fin 4;
     referenceElevation := Fin 100;
     depthRange := (zero, Fin 100);
     noDataValue := None;
     realWorldScale := Fin 2;
     gridWidth := 2;
     gridHeight := 2 |}.

(** A table of 256 colours, from (0, 0, 1) to (1, 1, 0). *)
Definition ramp_colormap : list rgb :=
  map (fun i => let q := (inject_Z (Z.of_nat i) * (1 # 255))%Q in (Fin q, Fin q, Fin (1 - q)))
      (seq 0 256).

(* ===================================================================== *)
(** * Elevation analysis and the remaining queries *)
(* ===================================================================== *)

(** [a[i]] for a loop counter [i]. *)
Definition elem (a : list num) (i : nat) : value :=
  match a !! i with Some x => Num x | None => Undefined end.

(** [for (let i = 0; i < n; i++) body(i)] for a body that cannot throw. *)
Definition loop_range {St : Type} (body : nat -> St -> St) (n : nat) (s : St) : St :=
  fold_left (fun s i => body i s) (seq 0 n) s.

(** The result of [analyzeElevation] of [elevation-analysis.js]. *)
Module ElevationInfo.
Record t : Type := {
  minElevation : num;
  maxElevation : num;
  referenceElevation : num;
  depthRange : num * num;
  validFraction : num
}.
End ElevationInfo.

(** Body of the loop of [analyzeElevation], on [min], [max] and
    [validCount]. *)
Definition analyze_sample (elevation : list num) (noDataValue : option num)
    (i : nat) (st : num * num * num) : num * num * num :=
  let '(min, max, validCount) := st in
  let v := elem elevation i in
  if negb (Number_isFinite v) then st
  else match v with
       | Undefined => st
       | Num v =>
           if ge v (Fin 100000) then st
           else if match noDataValue with
                   | Some nd => strict_eq v nd
                   | None => false
                   end
                then st
                else
                  let min := if lt v min then v else min in
                  let max := if gt v max then v else max in
                  (min, max, (validCount + one)%js)
       end.

(** [analyzeElevation(elevation, noDataValue)] *)
Definition analyzeElevation (elevation : list num) (noDataValue : option num)
    : ElevationInfo.t :=
  let '(min, max, validCount) :=
    loop_range (analyze_sample elevation noDataValue) (length elevation)
      (PosInf, NegInf, zero) in
  let validFraction := (validCount / of_nat (length elevation))%js in
  let referenceElevation := max in
  let depthRange := (zero, JS.max one (round (max - min)%js)) in
  {| ElevationInfo.minElevation := min;
     ElevationInfo.maxElevation := max;
     ElevationInfo.referenceElevation := referenceElevation;
     ElevationInfo.depthRange := depthRange;
     ElevationInfo.validFraction := validFraction |}.

(** [setElevationConfig(referenceElevation, depthRange, noDataValue)] *)
Definition setElevationConfig (this : TerrainMesh) (referenceElevation : num)
    (depthRange : num * num) (noDataValue : option num) : TerrainMesh :=
  {| geometry := geometry this;
     elevationData := elevationData this;
     elevationWidth := elevationWidth this;
     elevationHeight := elevationHeight this;
     originalIndices := originalIndices this;
     modelWidth := modelWidth this;
     modelHeight := modelHeight this;
     zExaggeration := zExaggeration this;
     referenceElevation := referenceElevation;
     depthRange := depthRange;
     noDataValue := noDataValue;
     realWorldScale := realWorldScale this;
     gridWidth := gridWidth this;
     gridHeight := gridHeight this |}.

(** [_analyzeValidDataFraction()] *)
Definition _analyzeValidDataFraction (this : TerrainMesh) : num :=
  match elevationData this with
  | None => one
  | Some d =>
      let total := length d in
      let validCount :=
        loop_range
          (fun i validCount =>
             if negb (_isNoData this (elem d i)) then (validCount + one)%js
             else validCount)
          total zero in
      (validCount / of_nat total)%js
  end.

(** The entries of [this.config] that the methods below read, and
    [DEFAULT_CONFIG]. *)
Record Config : Type := {
  targetPolygons : num;
  modelSize : num;
  minZExaggeration : num;
  maxZExaggeration : num;
  defaultZExaggeration : num
}.

Definition DEFAULT_CONFIG : Config :=
  {| targetPolygons := Fin 3000000;
     modelSize := one;
     minZExaggeration := one;
     maxZExaggeration := Fin 10;
     defaultZExaggeration := Fin 4 |}.

(** [THREE.Vector3] *)
Module Vector3.
Record t : Type := new { x : num; y : num; z : num }.
End Vector3.

(** The terrain object with the fields that the methods below use besides
    those of [TerrainMesh]: [mesh] tells whether [this.mesh] is set,
    [heightScale_uniform] is [this.material.uniforms.heightScale.value] where
    the material has that uniform, and [position] is the attribute
    [geometry.attributes.position]. *)
Record TerrainObject : Type := {
  core :> TerrainMesh;
  config : Config;
  mesh : bool;
  geoBounds : option (num * num * num * num);
  realWorldWidth : num;
  realWorldHeight : num;
  useGPUDisplacement : bool;
  maxTextureSize : num;
  heightScale_uniform : option num;
  position : option (list Vector3.t)
}.

Definition set_core (this : TerrainObject) (c : TerrainMesh) : TerrainObject :=
  {| core := c;
     config := config this;
     mesh := mesh this;
     geoBounds := geoBounds this;
     realWorldWidth := realWorldWidth this;
     realWorldHeight := realWorldHeight this;
     useGPUDisplacement := useGPUDisplacement this;
     maxTextureSize := maxTextureSize this;
     heightScale_uniform := heightScale_uniform this;
     position := position this |}.

Definition set_position (this : TerrainObject) (p : list Vector3.t) : TerrainObject :=
  {| core := core this;
     config := config this;
     mesh := mesh this;
     geoBounds := geoBounds this;
     realWorldWidth := realWorldWidth this;
     realWorldHeight := realWorldHeight this;
     useGPUDisplacement := useGPUDisplacement this;
     maxTextureSize := maxTextureSize this;
     heightScale_uniform := heightScale_uniform this;
     position := Some p |}.

Definition set_heightScale_uniform (this : TerrainObject) (x : num) : TerrainObject :=
  {| core := core this;
     config := config this;
     mesh := mesh this;
     geoBounds := geoBounds this;
     realWorldWidth := realWorldWidth this;
     realWorldHeight := realWorldHeight this;
     useGPUDisplacement := useGPUDisplacement this;
     maxTextureSize := maxTextureSize this;
     heightScale_uniform := Some x;
     position := position this |}.

Definition set_zExaggeration (tm : TerrainMesh) (x : num) : TerrainMesh :=
  {| geometry := geometry tm;
     elevationData := elevationData tm;
     elevationWidth := elevationWidth tm;
     elevationHeight := elevationHeight tm;
     originalIndices := originalIndices tm;
     modelWidth := modelWidth tm;
     modelHeight := modelHeight tm;
     zExaggeration := x;
     referenceElevation := referenceElevation tm;
     depthRange := depthRange tm;
     noDataValue := noDataValue tm;
     realWorldScale := realWorldScale tm;
     gridWidth := gridWidth tm;
     gridHeight := gridHeight tm |}.

(** [positions.setY(i, y)] *)
Definition setY (positions : list Vector3.t) (i : nat) (y : num) : list Vector3.t :=
  alter (fun p => Vector3.new (Vector3.x p) y (Vector3.z p)) i positions.

(** [getDepthAtLocalPosition(localPos)]; [None] is [null]. *)
Definition getDepthAtLocalPosition (this : TerrainObject) (localPos : Vector3.t)
    : completion (option num) :=
  if negb (mesh this) then Normal None
  else
    let halfWidth := (modelWidth this / Fin 2)%js in
    let halfHeight := (modelHeight this / Fin 2)%js in
    if lt (Vector3.x localPos) (neg halfWidth) || gt (Vector3.x localPos) halfWidth ||
       lt (Vector3.z localPos) (neg halfHeight) || gt (Vector3.z localPos) halfHeight
    then Normal None
    else
      let u := ((Vector3.x localPos + halfWidth) / modelWidth this)%js in
      let v := ((Vector3.z localPos + halfHeight) / modelHeight this)%js in
      elevation <- _sampleElevation this u v ;;
      Normal (Some (max zero (referenceElevation this - elevation)%js)).

Section Displacement.

Variable TURBO_COLORMAP : list rgb.

(** [_computeVertexColors()]; the body of its loop is that of the callback
    of [_computeVertexColorsAsync], without the counters. *)
Definition _computeVertexColors (this : TerrainMesh) : completion TerrainMesh :=
  match geometry this, elevationData this with
  | Some geo, Some _ =>
      match uv geo with
      | None => Normal this
      | Some uvs =>
          let vertexCount := length uvs in
          let colors := replicate (vertexCount * 3) zero in
          let '(minDepth, maxDepth) := depthRange this in
          colors' <- for_range (color_vertex TURBO_COLORMAP this uvs minDepth maxDepth)
                       0 vertexCount colors ;;
          Normal (set_geometry this
                    {| uv := uv geo; index := index geo; color := Some colors' |})
      end
  | _, _ => Normal this
  end.

(** Body of the loop of [_updateVerticesCPU]; the two counters it keeps are
    only logged. *)
Definition displace_vertex (this : TerrainMesh) (uvs : list (num * num))
    (heightScale : num) (i : nat) (positions : list Vector3.t)
    : completion (list Vector3.t) :=
  let u := uv_getX uvs i in
  let v := uv_getY uvs i in
  elevation <- _sampleElevation this u v ;;
  if negb (isFinite elevation) then Normal (setY positions i zero)
  else
    let height := ((elevation - referenceElevation this) * heightScale)%js in
    Normal (setY positions i height).

(** [_updateVerticesCPU()].  [geometry.computeVertexNormals()] writes the
    attribute [normal], which the model does not carry. *)
Definition _updateVerticesCPU (this : TerrainObject) : completion TerrainObject :=
  match geometry this, elevationData this with
  | Some geo, Some _ =>
      match position this, uv geo with
      | Some positions, Some uvs =>
          let heightScale := getHeightScale this in
          positions' <- for_range (displace_vertex this uvs heightScale)
                          0 (length positions) positions ;;
          let this := set_position this positions' in
          core' <- _computeVertexColors this ;;
          Normal (set_core this core')
      | _, _ => Normal this
      end
  | _, _ => Normal this
  end.

(** [setZExaggeration(factor)] *)
Definition setZExaggeration (this : TerrainObject) (factor : num)
    : completion TerrainObject :=
  let this :=
    set_core this
      (set_zExaggeration this
         (max (minZExaggeration (config this))
              (min (maxZExaggeration (config this)) factor))) in
  if useGPUDisplacement this then
    match heightScale_uniform this with
    | Some _ =>
        Normal (set_heightScale_uniform this
                  (zExaggeration this / realWorldScale this)%js)
    | None => Normal this
    end
  else _updateVerticesCPU this.

End Displacement.

Section GridDimensions.

Variable Math_sqrt : num -> num.

(** [_calculateGridDimensions(validFraction)]: [(gridWidth, gridHeight)]. *)
Definition _calculateGridDimensions (this : TerrainObject) (validFraction : num)
    : num * num :=
  let targetPolys := targetPolygons (config this) in
  let aspectRatio := (elevationWidth this / elevationHeight this)%js in
  let targetQuads := (targetPolys / (Fin 2 * validFraction))%js in
  let h := Math_sqrt (targetQuads / aspectRatio)%js in
  let w := (h * aspectRatio)%js in
  let gridWidth := (round w + one)%js in
  let gridHeight := (round h + one)%js in
  let gridWidth := min gridWidth (elevationWidth this) in
  let gridHeight := min gridHeight (elevationHeight this) in
  let gridWidth := max gridWidth (Fin 2) in
  let gridHeight := max gridHeight (Fin 2) in
  (gridWidth, gridHeight).

End GridDimensions.

(* ===================================================================== *)
(** * Downsampling to the texture limit *)
(* ===================================================================== *)

(** [a[i] = x] on a [Float32Array], for a number [i]: ignored unless [i] is
    an index of the array; the element holds [x] rounded to binary32. *)
Definition f32_store (a : list num) (i : num) (x : num) : list num :=
  match index_of i with
  | Some n => <[n := Binary64.fround x]> a
  | None => a
  end.

(** [new Float32Array(length)] for a number: the length is truncated towards
    zero, NaN counting as 0, and a length that is negative or beyond
    [2^53 - 1] is a [RangeError]. *)
Definition new_Float32Array (length : num) : completion (list num) :=
  match length with
  | NaN => Normal []
  | Fin q =>
      let n := if Qle_bool 0 q then Qfloor q else Qceiling q in
      if (n <? 0)%Z || (9007199254740991 <? n)%Z then Throw
      else Normal (replicate (Z.to_nat n) zero)
  | _ => Throw
  end.

(** [for (let i = 0; i < bound; i++) body(i)] for a number [bound] and a body
    that does not throw: no pass when the bound is NaN, and no end when it
    is [+Infinity]. *)
Definition for_counter {St : Type} (bound : num) (body : nat -> St -> completion St)
    (s : St) : completion St :=
  match bound with
  | Fin q => for_range body 0 (Z.to_nat (Qceiling q)) s
  | PosInf => OutOfFuel
  | _ => Normal s
  end.

Definition set_elevation (tm : TerrainMesh) (data : list num) (width height : num)
    : TerrainMesh :=
  {| geometry := geometry tm;
     elevationData := Some data;
     elevationWidth := width;
     elevationHeight := height;
     originalIndices := originalIndices tm;
     modelWidth := modelWidth tm;
     modelHeight := modelHeight tm;
     zExaggeration := zExaggeration tm;
     referenceElevation := referenceElevation tm;
     depthRange := depthRange tm;
     noDataValue := noDataValue tm;
     realWorldScale := realWorldScale tm;
     gridWidth := gridWidth tm;
     gridHeight := gridHeight tm |}.

(** Body of the two loops of [_constrainElevationToGPULimits]: the sample
    [(x, y)] of the new raster. *)
Definition downsample_at (this : TerrainMesh) (srcData : list num)
    (srcWidth srcHeight newWidth newHeight : num) (y x : nat) (newData : list num)
    : list num :=
  let srcX := ((of_nat x / (newWidth - one)) * (srcWidth - one))%js in
  let srcY := ((of_nat y / (newHeight - one)) * (srcHeight - one))%js in
  let x0 := floor srcX in
  let y0 := floor srcY in
  let x1 := min (x0 + one)%js (srcWidth - one)%js in
  let y1 := min (y0 + one)%js (srcHeight - one)%js in
  let fx := (srcX - x0)%js in
  let fy := (srcY - y0)%js in
  let v00 := array_get srcData (y0 * srcWidth + x0)%js in
  let v10 := array_get srcData (y0 * srcWidth + x1)%js in
  let v01 := array_get srcData (y1 * srcWidth + x0)%js in
  let v11 := array_get srcData (y1 * srcWidth + x1)%js in
  let isNoData00 := _isNoData this v00 in
  let isNoData10 := _isNoData this v10 in
  let isNoData01 := _isNoData this v01 in
  let isNoData11 := _isNoData this v11 in
  if isNoData00 || isNoData10 || isNoData01 || isNoData11 then
    f32_store newData (of_nat y * newWidth + of_nat x)%js
      (Fin 100000000000000000000000000000000000000)
  else
    let vA := (sample_of v00 * (one - fx) + sample_of v10 * fx)%js in
    let vB := (sample_of v01 * (one - fx) + sample_of v11 * fx)%js in
    f32_store newData (of_nat y * newWidth + of_nat x)%js
      (vA * (one - fy) + vB * fy)%js.

(** [_constrainElevationToGPULimits()]: the terrain object afterwards. *)
Definition _constrainElevationToGPULimits (this : TerrainObject)
    : completion TerrainObject :=
  match elevationData this with
  | None => Normal this
  | Some srcData =>
      let srcWidth := elevationWidth this in
      let srcHeight := elevationHeight this in
      if le srcWidth (maxTextureSize this) && le srcHeight (maxTextureSize this)
      then Normal this
      else
        let aspect := (srcWidth / srcHeight)%js in
        let '(newWidth, newHeight) :=
          if gt srcWidth srcHeight then
            let newWidth := min srcWidth (maxTextureSize this) in
            let newHeight := round (newWidth / aspect)%js in
            if gt newHeight (maxTextureSize this)
            then (round (maxTextureSize this * aspect)%js, maxTextureSize this)
            else (newWidth, newHeight)
          else
            let newHeight := min srcHeight (maxTextureSize this) in
            let newWidth := round (newHeight * aspect)%js in
            if gt newWidth (maxTextureSize this)
            then (maxTextureSize this, round (maxTextureSize this / aspect)%js)
            else (newWidth, newHeight) in
        newData <- new_Float32Array (newWidth * newHeight)%js ;;
        newData <- for_counter newHeight
                     (fun y newData =>
                        for_counter newWidth
                          (fun x newData =>
                             Normal (downsample_at this srcData srcWidth srcHeight
                                       newWidth newHeight y x newData))
                          newData)
                     newData ;;
        Normal (set_core this (set_elevation this newData newWidth newHeight))
  end.

(* ===================================================================== *)
(** * The methods in binary64 *)
(* ===================================================================== *)

(** The methods whose results depend on the rounding, with every arithmetic
    operation rounded as the engine rounds it. *)
Module Rounded.

Section Elevation.

Variable this : TerrainMesh.

(** [_getElevationAt(x, y)] *)
Definition _getElevationAt (x y : num) : completion num :=
  let index := (y * elevationWidth this + x)%f64 in
  value <- elevationData_get this index ;;
  if _isNoData this value then Normal NaN
  else match value with
       | Num v => Normal v
       | Undefined => Normal NaN
       end.

(** [_sampleElevation(u, v)] *)
Definition _sampleElevation (u v : num) : completion num :=
  match elevationData this with
  | None => Normal zero
  | Some _ =>
      let x := (u * (elevationWidth this - one))%f64 in
      let y := (v * (elevationHeight this - one))%f64 in
      let x0 := floor x in
      let y0 := floor y in
      let x1 := min (x0 + one)%f64 (elevationWidth this - one)%f64 in
      let y1 := min (y0 + one)%f64 (elevationHeight this - one)%f64 in
      let fx := (x - x0)%f64 in
      let fy := (y - y0)%f64 in
      v00 <- _getElevationAt x0 y0 ;;
      v10 <- _getElevationAt x1 y0 ;;
      v01 <- _getElevationAt x0 y1 ;;
      v11 <- _getElevationAt x1 y1 ;;
      if negb (isFinite v00) || negb (isFinite v10) ||
         negb (isFinite v01) || negb (isFinite v11)
      then Normal NaN
      else
        let vA := (v00 * (one - fx) + v10 * fx)%f64 in
        let vB := (v01 * (one - fx) + v11 * fx)%f64 in
        Normal (vA * (one - fy) + vB * fy)%f64
  end.

End Elevation.

(** [getDepthAtLocalPosition(localPos)]; [None] is [null]. *)
Definition getDepthAtLocalPosition (this : TerrainObject) (localPos : Vector3.t)
    : completion (option num) :=
  if negb (mesh this) then Normal None
  else
    let halfWidth := (modelWidth this / Fin 2)%f64 in
    let halfHeight := (modelHeight this / Fin 2)%f64 in
    if lt (Vector3.x localPos) (neg halfWidth) || gt (Vector3.x localPos) halfWidth ||
       lt (Vector3.z localPos) (neg halfHeight) || gt (Vector3.z localPos) halfHeight
    then Normal None
    else
      let u := ((Vector3.x localPos + halfWidth) / modelWidth this)%f64 in
      let v := ((Vector3.z localPos + halfHeight) / modelHeight this)%f64 in
      elevation <- _sampleElevation this u v ;;
      Normal (Some (max zero (referenceElevation this - elevation)%f64)).

(** The threshold loop [for (let depth = interval; depth <=
    maxContourDepth; depth += interval)] of [generateContours]; one unit of
    fuel per test of the condition. *)
Fixpoint build_thresholds (fuel : nat)
    (referenceElevation minElevation interval maxContourDepth : num)
    (depth : num) (thresholds : list num) : completion (list num) :=
  match fuel with
  | O => OutOfFuel
  | S fuel' =>
      if le depth maxContourDepth then
        let ahdLevel := (referenceElevation - depth)%f64 in
        let thresholds :=
          if ge ahdLevel minElevation then thresholds ++ [ahdLevel] else thresholds in
        build_thresholds fuel' referenceElevation minElevation interval
          maxContourDepth (depth + interval)%f64 thresholds
      else Normal thresholds
  end.

(** Squared distance to [first], for a chord of no length. *)
Definition dSq_point (first : point) (p : point) : num :=
  let px := (p.1 - first.1)%f64 in
  let pz := (p.2 - first.2)%f64 in
  (px * px + pz * pz)%f64.

(** Squared distance to the line through [first] with direction [(dx, dz)]. *)
Definition dSq_line (first : point) (dx dz invLen : num) (p : point) : num :=
  let px := (p.1 - first.1)%f64 in
  let pz := (p.2 - first.2)%f64 in
  let t := ((px * dx + pz * dz) * invLen)%f64 in
  let ex := (px - t * dx)%f64 in
  let ez := (pz - t * dz)%f64 in
  (ex * ex + ez * ez)%f64.

(** [maxDistSq] and [maxIdx] after the scan of [_simplifyPolyline2D]. *)
Definition farthest_from_chord (points : list point) (first last : point)
    : num * nat :=
  let dx := (last.1 - first.1)%f64 in
  let dz := (last.2 - first.2)%f64 in
  let lineLenSq := (dx * dx + dz * dz)%f64 in
  if lt lineLenSq (Binary64.lit (1 # 100000000000000000000))
  then farthest (dSq_point first) (interior points) 1 zero 0
  else
    let invLen := (one / lineLenSq)%f64 in
    farthest (dSq_line first dx dz invLen) (interior points) 1 zero 0.

(** [_simplifyPolyline2D(points, tolerance)]; every call spends one unit of
    fuel. *)
Fixpoint simplify_fuel (fuel : nat) (points : list point) (tolerance : num)
    : completion (list point) :=
  match fuel with
  | O => OutOfFuel
  | S fuel' =>
      match points with
      | [] | [_] | [_; _] => Normal points
      | first :: _ =>
          let tolSq := (tolerance * tolerance)%f64 in
          let last := List.last points first in
          let '(maxDistSq, maxIdx) := farthest_from_chord points first last in
          if gt maxDistSq tolSq then
            left <- simplify_fuel fuel' (take (maxIdx + 1) points) tolerance ;;
            right <- simplify_fuel fuel' (drop maxIdx points) tolerance ;;
            Normal (removelast left ++ right)
          else Normal [first; last]
      end
  end.

(** The recursion is on strictly shorter slices, so the length bounds it. *)
Definition _simplifyPolyline2D (points : list point) (tolerance : num)
    : completion (list point) :=
  simplify_fuel (S (length points)) points tolerance.

End Rounded.

(* ===================================================================== *)
(** * Specification-level definitions for the further properties *)
(* ===================================================================== *)

(** Every valid sample of the raster lies in [[lo, hi]]. *)
Definition valid_within (tm : TerrainMesh) (d : list num) (lo hi : Q) : Prop :=
  forall q, In (Fin q) d -> _isNoData tm (Num (Fin q)) = false -> (lo <= q <= hi)%Q.

(** The number of valid samples of the raster. *)
Definition valid_count (tm : TerrainMesh) (d : list num) : nat :=
  length (List.filter (fun x => negb (_isNoData tm (Num x))) d).

(** [mn] and [mx] are the extremes of the valid samples of [d]: the two
    infinities when there is none, and otherwise the least and the greatest
    valid sample. *)
Definition extremes (tm : TerrainMesh) (d : list num) (mn mx : num) : Prop :=
  (valid_count tm d = 0%nat /\ mn = PosInf /\ mx = NegInf) \/
  exists lo hi, mn = Fin lo /\ mx = Fin hi /\
    In (Fin lo) d /\ _isNoData tm (Num (Fin lo)) = false /\
    In (Fin hi) d /\ _isNoData tm (Num (Fin hi)) = false /\
    valid_within tm d lo hi.

(** The height that the CPU displacement gives vertex [i]: from the sample
    at the UV of the vertex as it stands, V not flipped. *)
Definition displaced_height (this : TerrainMesh) (uvs : list (num * num)) (i : nat) : num :=
  let elevation := returned (_sampleElevation this (uv_getX uvs i) (uv_getY uvs i)) in
  if isFinite elevation
  then ((elevation - referenceElevation this) * getHeightScale this)%js
  else zero.

(** Whether the two corners at the ends of an edge lie on different sides of
    the threshold, given the bits of the four corners: edge 0 joins top-left
    and top-right, edge 1 top-right and bottom-right, edge 2 bottom-left and
    bottom-right, edge 3 top-left and bottom-left. *)
Definition crosses (btl btr bbr bbl : bool) (e : nat) : bool :=
  match e with
  | 0%nat => xorb btl btr
  | 1%nat => xorb btr bbr
  | 2%nat => xorb bbl bbr
  | 3%nat => xorb btl bbl
  | _ => false
  end.

(** A point of the closed cell [[x0, x1] x [z0, z1]], whichever way round the
    bounds are. *)
Definition in_cell (x0 x1 z0 z1 px pz : Q) : Prop :=
  (Qmin x0 x1 <= px <= Qmax x0 x1)%Q /\ (Qmin z0 z1 <= pz <= Qmax z0 z1)%Q.

(** A point on one of the four sides of the cell. *)
Definition on_boundary (x0 x1 z0 z1 px pz : Q) : Prop :=
  (px == x0)%Q \/ (px == x1)%Q \/ (pz == z0)%Q \/ (pz == z1)%Q.

(** The vertex that [_interpolateEdge] gives on edge [e] of a cell with
    finite corners: a fraction in [[0, 1]] and a point on the boundary of the
    cell. *)
Definition vertex_ok (tl tr br bl thr x0 x1 z0 z1 : Q) (e : nat) : Prop :=
  exists px pz t,
    _interpolateEdge e (Fin thr) (Fin tl) (Fin tr) (Fin br) (Fin bl)
      (Fin x0) (Fin x1) (Fin z0) (Fin z1) = Some (Fin px, Fin pz, Fin t) /\
    (0 <= t <= 1)%Q /\ in_cell x0 x1 z0 z1 px pz /\ on_boundary x0 x1 z0 z1 px pz.

(** Whole segments: six numbers each. *)
Definition whole_segments (data : list num) : Prop := (length data mod 6 = 0)%nat.

(** The vertex count goes with the data: three numbers per vertex. *)
Definition counts_vertices (total : num) (data : list num) : Prop :=
  exists q, total = Fin q /\ (q * 3 == inject_Z (Z.of_nat (length data)))%Q.

(** The accumulator of the threshold loop: [segmentChunks] and
    [totalVertices]. *)
Definition acc_ok (acc : list (list num) * num) : Prop :=
  whole_segments (concat acc.1) /\ counts_vertices acc.2 (concat acc.1).

(** What [generateContours] hands back: nothing but the count when it
    aborted, and otherwise whole segments with their vertex count. *)
Definition result_ok (maxVertices : num) (r : GenerationResult) : Prop :=
  match aborted r with
  | Some true => segments r = [] /\ over_budget maxVertices (vertexCount r) = true
  | _ => whole_segments (segments r) /\ counts_vertices (vertexCount r) (segments r)
  end.

(** The NoData marker as a [Float32Array] holds it: the binary32 number
    nearest to [1e38]. *)
Definition marker32 : num := Fin 99999996802856924650656260769173209088.

(** The interpolation in the shape the code computes it, every operation
    rounded to binary64. *)
Definition bilinear64 (v00 v10 v01 v11 fx fy : num) : num :=
  let vA := (v00 * (one - fx) + v10 * fx)%f64 in
  let vB := (v01 * (one - fx) + v11 * fx)%f64 in
  (vA * (one - fy) + vB * fy)%f64.

(** A run of points is bent when the scan of the simplifier computes, for
    some interior point, a squared distance from the chord of the run that
    is greater than 0. *)
Definition rounded_bent (run : list point) : bool :=
  match run with
  | first :: _ :: _ :: _ =>
      gt (Rounded.farthest_from_chord run first (List.last run first)).1 zero
  | _ => true
  end.

(** Every run of consecutive points of the polyline is bent. *)
Definition rounded_bent_throughout (points : list point) : bool :=
  forallb (fun i =>
    forallb (fun n => rounded_bent (take n (drop i points))) (seq 0 (S (length points))))
    (seq 0 (S (length points))).

(** The levels [r - j i], [r - (j+1) i], ..., [k] of them. *)
Definition levels (r i j : Z) (k : nat) : list Z :=
  map (fun t => (r - (j + Z.of_nat t) * i)%Z) (seq 0 k).

(* ===================================================================== *)
(** * Further sample objects *)
(* ===================================================================== *)

(** The ramp terrain as an object with its mesh built, over the bounds
    [[0, 0, 200, 100]], with the default configuration and the four vertices
    of its plane. *)
Definition terrain_ramp : TerrainObject :=
  {| core := tm_ramp;
     config := DEFAULT_CONFIG;
     mesh := true;
     geoBounds := Some (Fin 0, Fin 0, Fin 200, Fin 100);
     realWorldWidth := Fin 200;
     realWorldHeight := Fin 100;
     useGPUDisplacement := true;
     maxTextureSize := Fin 16384;
     heightScale_uniform := Some (Fin 2);
     position := Some [Vector3.new (Fin (-1 # 2)) zero (Fin (-1 # 2));
                       Vector3.new (Fin (1 # 2)) zero (Fin (-1 # 2));
                       Vector3.new (Fin (-1 # 2)) zero (Fin (1 # 2));
                       Vector3.new (Fin (1 # 2)) zero (Fin (1 # 2))] |}.

(** A 4 x 3 raster with one NoData sample in its last column, on a device
    whose textures are at most 3 texels wide. *)
Definition terrain_wide : TerrainObject :=
  {| core := set_elevation tm_ramp
               [Fin 0; Fin 10; Fin 20; Fin 30;
                Fin 40; Fin 50; Fin 60; Fin 70;
                Fin 80; Fin 90; Fin 100; Fin 1000000]
               (Fin 4) (Fin 3);
     config := DEFAULT_CONFIG;
     mesh := false;
     geoBounds := None;
     realWorldWidth := Fin 400;
     realWorldHeight := Fin 300;
     useGPUDisplacement := true;
     maxTextureSize := Fin 3;
     heightScale_uniform := None;
     position := None |}.

(** A 4 x 2 raster without NoData, on a device whose textures are at most 2
    texels wide. *)
Definition terrain_strip : TerrainObject :=
  {| core := set_elevation tm_ramp
               [Fin 0; Fin 10; Fin 20; Fin 30;
                Fin 40; Fin 50; Fin 60; Fin 70]
               (Fin 4) (Fin 2);
     config := DEFAULT_CONFIG;
     mesh := false;
     geoBounds := None;
     realWorldWidth := Fin 400;
     realWorldHeight := Fin 200;
     useGPUDisplacement := true;
     maxTextureSize := Fin 2;
     heightScale_uniform := None;
     position := None |}.

(** A 4 x 3 raster without a valid sample, on a device whose textures are
    at most 3 texels wide. *)
Definition terrain_void : TerrainObject :=
  {| core := set_elevation tm_ramp
               [Fin 1000000; Fin 1000000; Fin 1000000; Fin 1000000;
                Fin 1000000; Fin 1000000; Fin 1000000; Fin 1000000;
                Fin 1000000; Fin 1000000; Fin 1000000; Fin 1000000]
               (Fin 4) (Fin 3);
     config := DEFAULT_CONFIG;
     mesh := false;
     geoBounds := None;
     realWorldWidth := Fin 400;
     realWorldHeight := Fin 300;
     useGPUDisplacement := true;
     maxTextureSize := Fin 3;
     heightScale_uniform := None;
     position := None |}.

(** A raster of 4 by 2 samples. *)
Definition tm_wide : TerrainMesh :=
  {| geometry := None;
     elevationData := Some [Fin 0; Fin 10; Fin 20; Fin 30;
                            Fin 40; Fin 50; Fin 60; Fin 70];
     elevationWidth := Fin 4;
     elevationHeight := Fin 2;
     originalIndices := None;
     modelWidth := one;
     modelHeight := one;
     zExaggeration := Fin 4;
     referenceElevation := Fin 100;
     depthRange := (zero, Fin 100);
     noDataValue := None;
     realWorldScale := Fin 2;
     gridWidth := 2;
     gridHeight := 2 |}.

(** The double nearest to 1/3. *)
Definition third : Q := 6004799503160661 # 18014398509481984.

(** A zigzag with coordinates that binary64 holds exactly. *)
Definition zigzag_dyadic : list point :=
  [(Fin 0, Fin 0); (Fin 1, Fin (1 # 8)); (Fin 2, Fin 0);
   (Fin 3, Fin (1 # 8)); (Fin 4, Fin 0)].

(* ===================================================================== *)
(** * Binary64 rounding *)
(* ===================================================================== *)

Lemma pow2_pos e : (0 < Binary64.pow2 e)%Q.
Proof. apply Qpower_0_lt. reflexivity. Qed.

Lemma pow2_add a b : (Binary64.pow2 (a + b) == Binary64.pow2 a * Binary64.pow2 b)%Q.
Proof. apply Qpower_plus. discriminate. Qed.

Lemma pow2_Z e : (0 <= e)%Z -> (Binary64.pow2 e == inject_Z (2 ^ e))%Q.
Proof. intros H. unfold Binary64.pow2. rewrite Zpower_Qpower by exact H. reflexivity. Qed.

Lemma pow2_le a b : (a <= b)%Z -> (Binary64.pow2 a <= Binary64.pow2 b)%Q.
Proof.
  intros H. replace b with (a + (b - a))%Z by lia. rewrite pow2_add.
  assert (H1 : (1 <= Binary64.pow2 (b - a))%Q).
  { rewrite pow2_Z by lia. change 1%Q with (inject_Z 1). rewrite <- Zle_Qle.
    pose proof (Z.pow_pos_nonneg 2 (b - a)). lia. }
  pose proof (pow2_pos a). nra.
Qed.

Lemma pow2_lt_inv a b : (Binary64.pow2 a < Binary64.pow2 b)%Q -> (a < b)%Z.
Proof.
  intros H. destruct (Z_lt_le_dec a b) as [C|C]; [exact C|].
  apply pow2_le in C. lra.
Qed.

Lemma pow2_succ e : (Binary64.pow2 (e + 1) == 2 * Binary64.pow2 e)%Q.
Proof. rewrite pow2_add. change (Binary64.pow2 1) with 2%Q. ring. Qed.

Lemma Zlog2_pow2 (a : Z) :
  (0 < a)%Z -> (Binary64.pow2 (Z.log2 a) <= inject_Z a < 2 * Binary64.pow2 (Z.log2 a))%Q.
Proof.
  intros H. pose proof (Z.log2_spec a H) as [H1 H2].
  pose proof (Z.log2_nonneg a) as H0.
  rewrite <- pow2_succ. rewrite !pow2_Z by lia.
  replace (Z.log2 a + 1)%Z with (Z.succ (Z.log2 a)) by lia.
  split; [rewrite <- Zle_Qle|rewrite <- Zlt_Qlt]; assumption.
Qed.

Lemma ilog2_spec q :
  ~ (q == 0)%Q -> (Binary64.pow2 (Binary64.ilog2 q) <= Qabs q < Binary64.pow2 (Binary64.ilog2 q + 1))%Q.
Proof.
  intros Hq. destruct q as [n d]. unfold Binary64.ilog2. cbn [Qnum Qden].
  assert (Hn : (0 < Z.abs n)%Z).
  { destruct (Z.eq_dec n 0%Z) as [->|]; [exfalso; apply Hq; reflexivity|lia]. }
  set (la := Z.log2 (Z.abs n)). set (ld := Z.log2 (Z.pos d)).
  pose proof (Zlog2_pow2 (Z.abs n) Hn) as [HA1 HA2]. fold la in HA1, HA2.
  pose proof (Zlog2_pow2 (Z.pos d) eq_refl) as [HD1 HD2]. fold ld in HD1, HD2.
  assert (Hx : (Qabs (n # d) * inject_Z (Z.pos d) == inject_Z (Z.abs n))%Q).
  { change (Qabs (n # d)) with (Z.abs n # d). rewrite (Qmake_Qdiv (Z.abs n) d).
    field. discriminate. }
  assert (He : (Binary64.pow2 (la - ld) * Binary64.pow2 ld == Binary64.pow2 la)%Q).
  { rewrite <- pow2_add. replace (la - ld + ld)%Z with la by lia. reflexivity. }
  assert (He1 : (Binary64.pow2 (la - ld - 1) * 2 == Binary64.pow2 (la - ld))%Q).
  { replace (la - ld)%Z with (la - ld - 1 + 1)%Z at 2 by lia. rewrite pow2_succ. ring. }
  pose proof (pow2_pos ld) as Hld. pose proof (pow2_pos (la - ld)) as Hp.
  pose proof (pow2_pos (la - ld - 1)) as Hp1.
  pose proof (Qabs_nonneg (n # d)) as Hx0.
  set (x := Qabs (n # d)) in *. set (A := inject_Z (Z.abs n)) in *.
  set (D := inject_Z (Z.pos d)) in *.
  set (PA := Binary64.pow2 la) in *. set (PD := Binary64.pow2 ld) in *.
  assert (Hup : (x < 2 * Binary64.pow2 (la - ld))%Q).
  { set (P := Binary64.pow2 (la - ld)) in *. clearbody x A D PA PD P.
    apply Qnot_le_lt. intros C.
    assert ((x - 2 * P) * D >= 0)%Q by nra.
    assert (P * (D - PD) >= 0)%Q by nra. nra. }
  assert (Hlo : (Binary64.pow2 (la - ld - 1) <= x)%Q).
  { set (P := Binary64.pow2 (la - ld)) in *. set (P1 := Binary64.pow2 (la - ld - 1)) in *.
    clearbody x A D PA PD P P1.
    apply Qnot_lt_le. intros C.
    assert ((P1 - x) * D > 0)%Q by nra.
    assert (P1 * (2 * PD - D) > 0)%Q by nra. nra. }
  destruct (Qle_bool (Binary64.pow2 (la - ld)) x) eqn:E.
  - apply Qle_bool_iff in E. rewrite pow2_succ. split; assumption.
  - assert (Hlt : (x < Binary64.pow2 (la - ld))%Q).
    { apply Qnot_le_lt. intros C. apply Qle_bool_iff in C. congruence. }
    replace (la - ld - 1 + 1)%Z with (la - ld)%Z by lia. split; assumption.
Qed.

Lemma ilog2_mono a b :
  (0 < a)%Q -> (a <= b)%Q -> (Binary64.ilog2 a <= Binary64.ilog2 b)%Z.
Proof.
  intros Ha Hab.
  destruct (ilog2_spec a ltac:(lra)) as [A1 A2].
  destruct (ilog2_spec b ltac:(lra)) as [B1 B2].
  rewrite Qabs_pos in A1, A2, B1, B2 by lra.
  assert (Binary64.ilog2 a < Binary64.ilog2 b + 1)%Z by (apply pow2_lt_inv; lra). lia.
Qed.

(** ** Rounding to the nearest integer *)

Lemma nearest_even_comp x y : (x == y)%Q -> Binary64.nearest_even x = Binary64.nearest_even y.
Proof.
  intros H. unfold Binary64.nearest_even. rewrite (Qfloor_comp _ _ H).
  assert (E : (x - inject_Z (Qfloor y) ?= 1 # 2)%Q = (y - inject_Z (Qfloor y) ?= 1 # 2)%Q)
    by (apply Qcompare_comp; [rewrite H|]; reflexivity).
  rewrite E. reflexivity.
Qed.

Lemma nearest_even_Z z : Binary64.nearest_even (inject_Z z) = z.
Proof.
  unfold Binary64.nearest_even. rewrite Qfloor_Z.
  assert (E : (inject_Z z - inject_Z z ?= 1 # 2)%Q = Lt)
    by (rewrite <- Qlt_alt; generalize (inject_Z z); intros t; lra).
  rewrite E. reflexivity.
Qed.

Lemma nearest_even_range x :
  (Qfloor x <= Binary64.nearest_even x <= Qfloor x + 1)%Z.
Proof.
  unfold Binary64.nearest_even. destruct (_ ?= _)%Q; [destruct (Z.even _)| |]; lia.
Qed.

Lemma nearest_even_mono x y : (x <= y)%Q -> (Binary64.nearest_even x <= Binary64.nearest_even y)%Z.
Proof.
  intros H. pose proof (Qfloor_resp_le x y H) as Hf.
  pose proof (nearest_even_range x). pose proof (nearest_even_range y).
  destruct (Z.eq_dec (Qfloor x) (Qfloor y)) as [E|E]; [|lia].
  unfold Binary64.nearest_even. rewrite E.
  destruct (x - inject_Z (Qfloor y) ?= 1 # 2)%Q eqn:Cx;
    destruct (y - inject_Z (Qfloor y) ?= 1 # 2)%Q eqn:Cy;
    first [apply Qeq_alt in Cx|apply Qlt_alt in Cx|apply Qgt_alt in Cx];
    first [apply Qeq_alt in Cy|apply Qlt_alt in Cy|apply Qgt_alt in Cy];
    try (destruct (Z.even (Qfloor y))); try lia; exfalso; lra.
Qed.

(** ** Rounding to a format *)

Lemma ilog2_zero q : (q == 0)%Q -> (Binary64.ilog2 q < 0)%Z.
Proof.
  intros H. destruct q as [n d]. assert (n = 0%Z) as ->.
  { unfold Qeq in H. cbn in H. lia. }
  unfold Binary64.ilog2. cbn [Qnum Qden]. change (Z.log2 (Z.abs 0)) with 0%Z.
  pose proof (Z.log2_nonneg (Z.pos d)).
  destruct (Qle_bool _ _) eqn:E; [|lia].
  apply Qle_bool_iff in E. pose proof (pow2_pos (0 - Z.log2 (Z.pos d))) as Hp.
  change (Qabs (0 # d)) with (0 # d) in E.
  assert ((0 # d) == 0)%Q by reflexivity. lra.
Qed.

Lemma div_pow2 q e : (q / Binary64.pow2 e == q * Binary64.pow2 (- e))%Q.
Proof. unfold Binary64.pow2. rewrite Qpower_opp. reflexivity. Qed.

Section Format.

Variables prec emin : Z.
Hypothesis Hprec : (1 <= prec)%Z.

Lemma round_fin_nonneg q : (0 <= q)%Q -> (0 <= Binary64.round_fin prec emin q)%Q.
Proof.
  intros H. unfold Binary64.round_fin. set (e := Binary64.last_place prec emin q).
  pose proof (pow2_pos e) as He.
  assert (H0 : (0 <= q / Binary64.pow2 e)%Q) by (apply Qle_shift_div_l; lra).
  apply Qfloor_resp_le in H0. change (Qfloor 0) with 0%Z in H0.
  pose proof (nearest_even_range (q / Binary64.pow2 e)) as Hn.
  assert (Hz : (0 <= inject_Z (Binary64.nearest_even (q / Binary64.pow2 e)))%Q)
    by (rewrite <- (Zle_Qle 0); lia).
  nra.
Qed.

Lemma round_fin_zero q : (q == 0)%Q -> (Binary64.round_fin prec emin q == 0)%Q.
Proof.
  intros H. unfold Binary64.round_fin. set (e := Binary64.last_place prec emin q).
  assert (E : (q / Binary64.pow2 e == inject_Z 0)%Q).
  { rewrite H. pose proof (pow2_pos e). field. lra. }
  rewrite (nearest_even_comp _ _ E), nearest_even_Z. ring.
Qed.

(** At the value [inject_Z m * 2^e], when [e] is not below the last place. *)
Lemma round_fin_at q (m e : Z) :
  (Binary64.last_place prec emin q <= e)%Z -> (q == inject_Z m * Binary64.pow2 e)%Q ->
  (Binary64.round_fin prec emin q == q)%Q.
Proof.
  intros He Hq. unfold Binary64.round_fin. set (l := Binary64.last_place prec emin q) in *.
  assert (E : (q / Binary64.pow2 l == inject_Z (m * 2 ^ (e - l)))%Q).
  { rewrite inject_Z_mult, <- pow2_Z by lia. rewrite div_pow2, Hq.
    replace (e - l)%Z with (e + - l)%Z by lia. rewrite pow2_add. ring. }
  rewrite (nearest_even_comp _ _ E), nearest_even_Z.
  rewrite <- E. pose proof (pow2_pos l). field. lra.
Qed.

Lemma round_fin_int q z :
  (emin <= 0)%Z -> (q == inject_Z z)%Q -> (Z.abs z < 2 ^ prec)%Z ->
  (Binary64.round_fin prec emin q == inject_Z z)%Q.
Proof.
  intros Hemin Hq Hz. rewrite <- Hq. apply (round_fin_at q z 0).
  - unfold Binary64.last_place.
    assert (Binary64.ilog2 q < prec)%Z; [|lia].
    destruct (Qeq_dec q 0) as [E|E]; [pose proof (ilog2_zero q E); lia|].
    destruct (ilog2_spec q E) as [H1 _].
    apply pow2_lt_inv. eapply Qle_lt_trans; [exact H1|].
    rewrite Hq, pow2_Z by lia.
    assert (Ha : (Qabs (inject_Z z) == inject_Z (Z.abs z))%Q) by reflexivity.
    rewrite Ha, <- Zlt_Qlt. exact Hz.
  - rewrite Hq. change (Binary64.pow2 0) with 1%Q. ring.
Qed.

Lemma last_place_mono a b :
  (0 < a)%Q -> (a <= b)%Q -> (Binary64.last_place prec emin a <= Binary64.last_place prec emin b)%Z.
Proof.
  intros Ha Hab. unfold Binary64.last_place. pose proof (ilog2_mono a b Ha Hab). lia.
Qed.

(** Rounding is monotone on the numbers that are not negative. *)
Lemma round_fin_mono a b :
  (0 <= a)%Q -> (a <= b)%Q -> (Binary64.round_fin prec emin a <= Binary64.round_fin prec emin b)%Q.
Proof.
  intros Ha Hab.
  destruct (Qeq_dec a 0) as [Ea|Ea].
  { rewrite (round_fin_zero a Ea). apply round_fin_nonneg. lra. }
  assert (Ha' : (0 < a)%Q) by lra. clear Ha Ea.
  pose proof (last_place_mono a b Ha' Hab) as Hl.
  unfold Binary64.round_fin.
  set (ea := Binary64.last_place prec emin a) in *. set (eb := Binary64.last_place prec emin b) in *.
  pose proof (pow2_pos ea) as Pa. pose proof (pow2_pos eb) as Pb.
  destruct (Z.eq_dec ea eb) as [E|E].
  - rewrite <- E.
    assert (Hd : (a / Binary64.pow2 ea <= b / Binary64.pow2 ea)%Q).
    { apply Qle_shift_div_l; [exact Pa|].
      assert (Ed : (a / Binary64.pow2 ea * Binary64.pow2 ea == a)%Q) by (field; lra).
      rewrite Ed. exact Hab. }
    apply nearest_even_mono in Hd. rewrite Zle_Qle in Hd. nra.
  - (* the binade boundary [2^k] separates the two *)
    set (k := Binary64.ilog2 b).
    assert (Hk : eb = (k - (prec - 1))%Z) by (unfold eb, ea, Binary64.last_place in *; lia).
    assert (Hka : (Binary64.ilog2 a < k)%Z) by (unfold eb, ea, Binary64.last_place in *; lia).
    destruct (ilog2_spec a ltac:(lra)) as [_ A2].
    destruct (ilog2_spec b ltac:(lra)) as [B1 _]. fold k in B1.
    rewrite Qabs_pos in A2, B1 by lra.
    assert (A3 : (a <= Binary64.pow2 k)%Q).
    { apply Qlt_le_weak. eapply Qlt_le_trans; [exact A2|]. apply pow2_le. lia. }
    assert (Hea : (ea <= k)%Z) by (unfold eb, ea, Binary64.last_place in *; lia).
    apply Qle_trans with (Binary64.pow2 k).
    + assert (Hd : (a / Binary64.pow2 ea <= inject_Z (2 ^ (k - ea)))%Q).
      { rewrite <- pow2_Z by lia. apply Qle_shift_div_r; [exact Pa|].
        rewrite <- pow2_add. replace (k - ea + ea)%Z with k by lia. exact A3. }
      apply nearest_even_mono in Hd. rewrite nearest_even_Z, Zle_Qle in Hd.
      rewrite <- pow2_Z in Hd by lia.
      assert (Hs : (Binary64.pow2 (k - ea) * Binary64.pow2 ea == Binary64.pow2 k)%Q).
      { rewrite <- pow2_add. replace (k - ea + ea)%Z with k by lia. reflexivity. }
      rewrite <- Hs. apply Qmult_le_compat_r; [exact Hd|lra].
    + assert (Hd : (inject_Z (2 ^ (k - eb)) <= b / Binary64.pow2 eb)%Q).
      { rewrite <- pow2_Z by lia. apply Qle_shift_div_l; [exact Pb|].
        rewrite <- pow2_add. replace (k - eb + eb)%Z with k by lia. exact B1. }
      apply nearest_even_mono in Hd. rewrite nearest_even_Z, Zle_Qle in Hd.
      rewrite <- pow2_Z in Hd by lia.
      assert (Hs : (Binary64.pow2 (k - eb) * Binary64.pow2 eb == Binary64.pow2 k)%Q).
      { rewrite <- pow2_add. replace (k - eb + eb)%Z with k by lia. reflexivity. }
      rewrite <- Hs. apply Qmult_le_compat_r; [exact Hd|lra].
Qed.

End Format.

Lemma pow2_53_1024 : (inject_Z (2 ^ 53) < Binary64.pow2 1024)%Q.
Proof. rewrite pow2_Z by lia. rewrite <- Zlt_Qlt. reflexivity. Qed.

(** No overflow below [2^53]. *)
Lemma binary64_small q :
  (Qabs (Binary64.round_fin 53 (-1074) q) <= inject_Z (2 ^ 53))%Q ->
  Binary64.binary64 q = Fin (Qred (Binary64.round_fin 53 (-1074) q)).
Proof.
  intros H. unfold Binary64.binary64, Binary64.round_to.
  destruct (Qle_bool _ _) eqn:E; [|reflexivity].
  apply Qle_bool_iff in E. pose proof pow2_53_1024 as P.
  eapply Qle_trans in H; [|exact E]. apply Qle_not_lt in H. contradiction.
Qed.

(** binary64 holds the integers below [2^53] in magnitude exactly. *)
Lemma binary64_int q z :
  (q == inject_Z z)%Q -> (Z.abs z < 2 ^ 53)%Z -> int_val (Binary64.binary64 q) z.
Proof.
  intros Hq Hz.
  pose proof (round_fin_int 53 (-1074) ltac:(lia) q z ltac:(lia) Hq Hz) as Hr.
  rewrite binary64_small.
  - eexists. split; [reflexivity|]. rewrite Qred_correct. exact Hr.
  - rewrite Hr. assert (Ha : (Qabs (inject_Z z) == inject_Z (Z.abs z))%Q) by reflexivity.
    rewrite Ha, <- Zle_Qle. lia.
Qed.

(** A result between 0 and an integer below [2^53] stays there. *)
Lemma binary64_between q n :
  (0 <= q <= inject_Z n)%Q -> (n < 2 ^ 53)%Z ->
  exists x, Binary64.binary64 q = Fin x /\ (0 <= x <= inject_Z n)%Q.
Proof.
  intros [H0 Hn] Hb.
  assert (Hn0 : (0 <= n)%Z)
    by (rewrite Zle_Qle; change (inject_Z 0) with 0%Q; apply Qle_trans with q; assumption).
  pose proof (round_fin_nonneg 53 (-1074) q H0) as R0.
  pose proof (round_fin_mono 53 (-1074) ltac:(lia) q (inject_Z n) H0 Hn) as R1.
  rewrite (round_fin_int 53 (-1074) ltac:(lia) (inject_Z n) n ltac:(lia)) in R1;
    [|reflexivity|lia].
  rewrite binary64_small.
  - eexists. split; [reflexivity|]. rewrite Qred_correct. split; assumption.
  - rewrite Qabs_pos by exact R0. eapply Qle_trans; [exact R1|]. rewrite <- Zle_Qle. lia.
Qed.

Lemma f64_add_int x y a b :
  int_val x a -> int_val y b -> (Z.abs (a + b) < 2 ^ 53)%Z -> int_val (x + y)%f64 (a + b).
Proof.
  intros (p & -> & Hp) (q & -> & Hq) Hb. cbn [Binary64.add].
  apply binary64_int; [|exact Hb]. rewrite Hp, Hq, inject_Z_plus. reflexivity.
Qed.

Lemma f64_sub_int x y a b :
  int_val x a -> int_val y b -> (Z.abs (a - b) < 2 ^ 53)%Z -> int_val (x - y)%f64 (a - b).
Proof.
  intros (p & -> & Hp) (q & -> & Hq) Hb. cbn [Binary64.sub].
  apply binary64_int; [|exact Hb].
  rewrite Hp, Hq. unfold Z.sub, Qminus. rewrite inject_Z_plus, inject_Z_opp. reflexivity.
Qed.

Lemma f64_mul_int x y a b :
  int_val x a -> int_val y b -> (Z.abs (a * b) < 2 ^ 53)%Z -> int_val (x * y)%f64 (a * b).
Proof.
  intros (p & -> & Hp) (q & -> & Hq) Hb. cbn [Binary64.mul].
  apply binary64_int; [|exact Hb]. rewrite Hp, Hq, inject_Z_mult. reflexivity.
Qed.

(** The product of a number of the unit interval and a count. *)
Lemma f64_mul_unit (u : Q) w n :
  (0 <= u <= 1)%Q -> int_val w n -> (0 <= n < 2 ^ 53)%Z ->
  exists x, (Fin u * w)%f64 = Fin x /\ (0 <= x <= inject_Z n)%Q.
Proof.
  intros [Hu0 Hu1] (q & -> & Hq) [Hn0 Hn]. cbn [Binary64.mul].
  apply binary64_between; [|exact Hn].
  assert (0 <= inject_Z n)%Q by (rewrite <- (Zle_Qle 0); exact Hn0).
  rewrite Hq. split; nra.
Qed.

(** Some values as IEEE 754 gives them, on the doubles nearest to the
    decimals: [(1/3) * 3 = 1], [3 * (1 - 0.2) + 3 * 0.2 = 3 + 2^-51],
    [(1/49) * 49 = 1 - 2^-53], [10 - 0.7 = 9.3], a square that underflows to
    0 and a product that overflows. *)
Lemma binary64_values :
  (Binary64.lit (1 # 3) * Fin 3)%f64 = Fin 1 /\
  (Fin 3 * (Fin 1 - Binary64.lit (2 # 10)) + Fin 3 * Binary64.lit (2 # 10))%f64
    = Fin (6755399441055745 # 2251799813685248) /\
  (Fin 1 / Fin 49 * Fin 49)%f64 = Fin (9007199254740991 # 9007199254740992) /\
  (Fin 10 - Binary64.lit (7 # 10))%f64 = Binary64.lit (93 # 10) /\
  (Binary64.lit (2 ^ (-600)) * Binary64.lit (2 ^ (-600)))%f64 = Fin 0 /\
  (Binary64.lit (2 ^ 1000) * Binary64.lit (2 ^ 1000))%f64 = PosInf.
Proof. vm_compute. repeat split; reflexivity. Qed.

(* ===================================================================== *)
(** * Elevation sampling *)
(* ===================================================================== *)

Lemma isNoData_false_inv tm s :
  _isNoData tm s = false -> exists q, s = Num (Fin q).
Proof.
  unfold _isNoData. destruct s as [|[| | |q]]; simpl; try discriminate. eauto.
Qed.

Lemma getElevationAt_eq tm d x y :
  elevationData tm = Some d ->
  _getElevationAt tm x y =
    Normal (let s := array_get d (y * elevationWidth tm + x)%js in
            if _isNoData tm s then NaN else sample_of s).
Proof.
  intros Hd. unfold _getElevationAt, elevationData_get. rewrite Hd. cbn [bind].
  destruct (_isNoData tm _) eqn:E; [reflexivity|].
  apply isNoData_false_inv in E as [q ->]. reflexivity.
Qed.

Section Sample.
Variables (tm : TerrainMesh) (d : list num) (u v : num).
Hypothesis Hd : elevationData tm = Some d.

Local Abbreviation w := (elevationWidth tm).
Local Abbreviation h := (elevationHeight tm).
Local Abbreviation x := ((u * (w - one))%js).
Local Abbreviation y := ((v * (h - one))%js).
Local Abbreviation x0 := (floor x).
Local Abbreviation y0 := (floor y).
Local Abbreviation x1 := (min (x0 + one)%js (w - one)%js).
Local Abbreviation y1 := (min (y0 + one)%js (h - one)%js).
Local Abbreviation s00 := (array_get d (y0 * w + x0)%js).
Local Abbreviation s10 := (array_get d (y0 * w + x1)%js).
Local Abbreviation s01 := (array_get d (y1 * w + x0)%js).
Local Abbreviation s11 := (array_get d (y1 * w + x1)%js).

Lemma sampleElevation_eq :
  _sampleElevation tm u v =
    Normal (if _isNoData tm s00 || _isNoData tm s10 || _isNoData tm s01 || _isNoData tm s11
            then NaN
            else bilinear (sample_of s00) (sample_of s10) (sample_of s01) (sample_of s11)
                   (x - x0)%js (y - y0)%js).
Proof.
  unfold _sampleElevation. rewrite Hd.
  rewrite !(getElevationAt_eq _ _ _ _ Hd). cbn [bind]. cbv zeta.
  destruct (_isNoData tm s00) eqn:E00; [reflexivity|].
  apply isNoData_false_inv in E00 as [q00 ->]. cbn [sample_of isFinite negb orb].
  destruct (_isNoData tm s10) eqn:E10; [reflexivity|].
  apply isNoData_false_inv in E10 as [q10 ->]. cbn [sample_of isFinite negb orb].
  destruct (_isNoData tm s01) eqn:E01; [reflexivity|].
  apply isNoData_false_inv in E01 as [q01 ->]. cbn [sample_of isFinite negb orb].
  destruct (_isNoData tm s11) eqn:E11; [reflexivity|].
  apply isNoData_false_inv in E11 as [q11 ->]. reflexivity.
Qed.

Lemma hasNearbyNoData_eq :
  _hasNearbyNoData tm u v =
    Normal (_isNoData tm s00 || _isNoData tm s10 || _isNoData tm s01 || _isNoData tm s11).
Proof.
  unfold _hasNearbyNoData, elevationData_get. rewrite Hd. cbn [bind]. cbv zeta.
  destruct (_isNoData tm s00); [reflexivity|].
  destruct (_isNoData tm s10); [reflexivity|].
  destruct (_isNoData tm s01); [reflexivity|].
  reflexivity.
Qed.
End Sample.

Lemma int_val_of_Z z : int_val (of_Z z) z.
Proof. exists (inject_Z z). split; [reflexivity|]. reflexivity. Qed.

Lemma int_val_one : int_val one 1.
Proof. exists 1%Q. split; reflexivity. Qed.

Lemma int_val_add x y a b : int_val x a -> int_val y b -> int_val (x + y)%js (a + b).
Proof.
  intros (p & -> & Hp) (q & -> & Hq). eexists; split; [reflexivity|].
  rewrite Hp, Hq, inject_Z_plus. reflexivity.
Qed.

Lemma int_val_sub x y a b : int_val x a -> int_val y b -> int_val (x - y)%js (a - b).
Proof.
  intros (p & -> & Hp) (q & -> & Hq). eexists; split; [reflexivity|].
  rewrite Hp, Hq. unfold Z.sub, Qminus. rewrite inject_Z_plus, inject_Z_opp. reflexivity.
Qed.

Lemma int_val_mul x y a b : int_val x a -> int_val y b -> int_val (x * y)%js (a * b).
Proof.
  intros (p & -> & Hp) (q & -> & Hq). eexists; split; [reflexivity|].
  rewrite Hp, Hq, inject_Z_mult. reflexivity.
Qed.

Lemma int_val_floor q : int_val (floor (Fin q)) (Qfloor q).
Proof. apply int_val_of_Z. Qed.

Lemma inject_Z_compare a b : (inject_Z a ?= inject_Z b)%Q = (a ?= b)%Z.
Proof. unfold Qcompare, inject_Z; simpl. rewrite !Z.mul_1_r. reflexivity. Qed.

Lemma int_val_min x y a b : int_val x a -> int_val y b -> int_val (min x y) (Z.min a b).
Proof.
  intros (p & -> & Hp) (q & -> & Hq). unfold min, cmp.
  assert (E : (p ?= q)%Q = (a ?= b)%Z) by (rewrite Hp, Hq; apply inject_Z_compare).
  rewrite E. unfold Z.min. destruct (a ?= b)%Z; eexists; split; try reflexivity; assumption.
Qed.

Lemma index_of_int_val x z : int_val x z -> (0 <= z)%Z -> index_of x = Some (Z.to_nat z).
Proof.
  intros (q & -> & Hq) Hz. unfold index_of.
  assert (Qfloor q = z) as -> by (rewrite Hq; apply Qfloor_Z).
  assert (Qeq_bool (inject_Z z) q = true) as -> by (apply Qeq_bool_iff; symmetry; exact Hq).
  assert ((0 <=? z)%Z = true) as -> by (apply Z.leb_le; exact Hz).
  reflexivity.
Qed.

Lemma array_get_int_val d x z : int_val x z -> (0 <= z)%Z -> array_get d x = sample d z.
Proof. intros Hx Hz. unfold array_get, sample. rewrite (index_of_int_val _ _ Hx Hz). reflexivity. Qed.

Lemma isNoData_iff tm s : _isNoData tm s = true <-> NoData (noDataValue tm) s.
Proof.
  unfold _isNoData, NoData. destruct s as [|[| | |q]]; simpl; try tauto.
  unfold ge, strict_eq, cmp.
  destruct (q ?= 100000)%Q eqn:E.
  - split; [|reflexivity]. intros _. left. apply Qeq_alt in E. rewrite E. apply Qle_refl.
  - apply Qlt_alt in E. destruct (noDataValue tm) as [[| | |n]|]; simpl;
      try (split; [discriminate | intros [H|(n' & H & _)]; [lra | discriminate]]).
    destruct (q ?= n)%Q eqn:En.
    + split; [|reflexivity]. intros _. right. exists n. split; [reflexivity|]. apply Qeq_alt. exact En.
    + split; [discriminate|]. intros [H|(n' & [= <-] & H)]; [lra|]. apply Qeq_alt in H. congruence.
    + split; [discriminate|]. intros [H|(n' & [= <-] & H)]; [lra|]. apply Qeq_alt in H. congruence.
  - split; [|reflexivity]. intros _. left. apply Qgt_alt in E. lra.
Qed.

(* ===================================================================== *)
(** * Elevation sampling in binary64 *)
(* ===================================================================== *)


Lemma rounded_getElevationAt_eq tm d x y :
  elevationData tm = Some d ->
  Rounded._getElevationAt tm x y =
    Normal (let s := array_get d (y * elevationWidth tm + x)%f64 in
            if _isNoData tm s then NaN else sample_of s).
Proof.
  intros Hd. unfold Rounded._getElevationAt, elevationData_get. rewrite Hd. cbn [bind].
  destruct (_isNoData tm _) eqn:E; [reflexivity|].
  apply isNoData_false_inv in E as [q ->]. reflexivity.
Qed.

Section RoundedSample.
Variables (tm : TerrainMesh) (d : list num) (u v : num).
Hypothesis Hd : elevationData tm = Some d.

Local Abbreviation w := (elevationWidth tm).
Local Abbreviation h := (elevationHeight tm).
Local Abbreviation x := ((u * (w - one))%f64).
Local Abbreviation y := ((v * (h - one))%f64).
Local Abbreviation x0 := (floor x).
Local Abbreviation y0 := (floor y).
Local Abbreviation x1 := (min (x0 + one)%f64 (w - one)%f64).
Local Abbreviation y1 := (min (y0 + one)%f64 (h - one)%f64).
Local Abbreviation s00 := (array_get d (y0 * w + x0)%f64).
Local Abbreviation s10 := (array_get d (y0 * w + x1)%f64).
Local Abbreviation s01 := (array_get d (y1 * w + x0)%f64).
Local Abbreviation s11 := (array_get d (y1 * w + x1)%f64).

Lemma rounded_sampleElevation_eq :
  Rounded._sampleElevation tm u v =
    Normal (if _isNoData tm s00 || _isNoData tm s10 || _isNoData tm s01 || _isNoData tm s11
            then NaN
            else bilinear64 (sample_of s00) (sample_of s10) (sample_of s01) (sample_of s11)
                   (x - x0)%f64 (y - y0)%f64).
Proof.
  unfold Rounded._sampleElevation. rewrite Hd.
  rewrite !(rounded_getElevationAt_eq _ _ _ _ Hd). cbn [bind]. cbv zeta.
  destruct (_isNoData tm s00) eqn:E00; [reflexivity|].
  apply isNoData_false_inv in E00 as [q00 ->]. cbn [sample_of isFinite negb orb].
  destruct (_isNoData tm s10) eqn:E10; [reflexivity|].
  apply isNoData_false_inv in E10 as [q10 ->]. cbn [sample_of isFinite negb orb].
  destruct (_isNoData tm s01) eqn:E01; [reflexivity|].
  apply isNoData_false_inv in E01 as [q01 ->]. cbn [sample_of isFinite negb orb].
  destruct (_isNoData tm s11) eqn:E11; [reflexivity|].
  apply isNoData_false_inv in E11 as [q11 ->]. reflexivity.
Qed.
End RoundedSample.

(** One axis in binary64: the coordinate computed for [u] in [0,1] on a
    raster of [n] samples, the two grid lines around it and the fraction. *)
Lemma rounded_axis_cell (n : Z) (u : Q) :
  (1 <= n < 2 ^ 53)%Z -> (0 <= u <= 1)%Q ->
  exists c, (Fin u * (of_Z n - one))%f64 = Fin c /\
    let lo := Qfloor c in
    let hi := Z.min (lo + 1) (n - 1) in
    (0 <= lo)%Z /\ (lo <= hi)%Z /\ (hi <= n - 1)%Z /\
    (inject_Z lo <= c)%Q /\ (c <= inject_Z hi)%Q /\
    int_val (min (floor (Fin c) + one)%f64 (of_Z n - one)%f64) hi /\
    exists f, (Fin c - floor (Fin c))%f64 = Fin f /\ (0 <= f <= 1)%Q.
Proof.
  intros Hn Hu.
  assert (In1 : int_val (of_Z n - one)%f64 (n - 1))
    by (apply f64_sub_int; [apply int_val_of_Z|apply int_val_one|lia]).
  destruct (f64_mul_unit u _ (n - 1) Hu In1 ltac:(lia)) as (c & Hc & Hc0 & Hc1).
  exists c. split; [exact Hc|]. intros lo hi.
  assert (Hlo0 : (0 <= lo)%Z).
  { change 0%Z with (Qfloor 0). apply Qfloor_resp_le. exact Hc0. }
  assert (Hlo1 : (lo <= n - 1)%Z).
  { rewrite <- (Qfloor_Z (n - 1)). apply Qfloor_resp_le. exact Hc1. }
  assert (Hfl : (inject_Z lo <= c)%Q) by apply Qfloor_le.
  assert (Hlt : (c < inject_Z (lo + 1))%Q) by apply Qlt_floor.
  assert (Ihi : int_val (min (floor (Fin c) + one)%f64 (of_Z n - one)%f64) hi).
  { apply int_val_min; [|exact In1].
    apply f64_add_int; [apply int_val_floor|apply int_val_one|fold lo; lia]. }
  repeat split; try (unfold hi; lia); try assumption.
  - unfold hi. destruct (Z.min_spec (lo + 1) (n - 1)) as [[_ ->]|[_ ->]].
    + apply Qlt_le_weak. exact Hlt.
    + exact Hc1.
  - cbn [floor of_Z Binary64.sub]. fold lo.
    destruct (binary64_between (c - inject_Z lo) 1) as (f & Hf & Hf01); [|lia|].
    + rewrite inject_Z_plus in Hlt. change (inject_Z 1) with 1%Q in Hlt |- *. lra.
    + exists f. split; [exact Hf|exact Hf01].
Qed.

(** C1.  With the grid set, for [(u, v)] in the unit square on a raster of
    [W] by [H] samples, [_sampleElevation] works at the fractional
    coordinates [x = u (W-1)] and [y = v (H-1)] as binary64 computes them:
    the grid columns [X0], [X1] and rows [Y0], [Y1] that it reads lie in the
    raster and enclose [(x, y)], and the fractions lie in [[0, 1]]; when one
    of the four samples is NoData the result is NaN, and otherwise it is the
    bilinear interpolation of the four samples, every operation rounded. *)
Theorem C1_sampleElevation_bilinear (tm : TerrainMesh) (d : list num) (W H : Z) (u v : Q) :
  elevationData tm = Some d ->
  elevationWidth tm = of_Z W -> elevationHeight tm = of_Z H ->
  (1 <= W)%Z -> (1 <= H)%Z -> (W * H < 2 ^ 53)%Z ->
  (0 <= u <= 1)%Q -> (0 <= v <= 1)%Q ->
  exists x y fx fy : Q,
    (Fin u * (of_Z W - one))%f64 = Fin x /\
    (Fin v * (of_Z H - one))%f64 = Fin y /\
    let X0 := Qfloor x in
    let Y0 := Qfloor y in
    let X1 := Z.min (X0 + 1) (W - 1) in
    let Y1 := Z.min (Y0 + 1) (H - 1) in
    (Fin x - of_Z X0)%f64 = Fin fx /\ (Fin y - of_Z Y0)%f64 = Fin fy /\
    ((0 <= X0 <= X1)%Z /\ (X1 <= W - 1)%Z /\ (inject_Z X0 <= x <= inject_Z X1)%Q /\
     (0 <= fx <= 1)%Q) /\
    ((0 <= Y0 <= Y1)%Z /\ (Y1 <= H - 1)%Z /\ (inject_Z Y0 <= y <= inject_Z Y1)%Q /\
     (0 <= fy <= 1)%Q) /\
    let s00 := sample d (Y0 * W + X0) in
    let s10 := sample d (Y0 * W + X1) in
    let s01 := sample d (Y1 * W + X0) in
    let s11 := sample d (Y1 * W + X1) in
    let anyNoData := NoData (noDataValue tm) s00 \/ NoData (noDataValue tm) s10 \/
                     NoData (noDataValue tm) s01 \/ NoData (noDataValue tm) s11 in
    exists r, Rounded._sampleElevation tm (Fin u) (Fin v) = Normal r /\
      (anyNoData -> r = NaN) /\
      (~ anyNoData ->
       r = bilinear64 (sample_of s00) (sample_of s10) (sample_of s01) (sample_of s11)
             (Fin fx) (Fin fy)).
Proof.
  intros Hd HW HH HW1 HH1 HWH Hu Hv.
  assert (HWb : (W < 2 ^ 53)%Z) by nia.
  assert (HHb : (H < 2 ^ 53)%Z) by nia.
  destruct (rounded_axis_cell W u ltac:(lia) Hu) as (x & Hx & Hx0 & Hx01 & Hx1 & Hxl & Hxh & Ix1 & fx & Hfx & Hfx01).
  destruct (rounded_axis_cell H v ltac:(lia) Hv) as (y & Hy & Hy0 & Hy01 & Hy1 & Hyl & Hyh & Iy1 & fy & Hfy & Hfy01).
  exists x, y, fx, fy. split; [exact Hx|]. split; [exact Hy|].
  intros X0 Y0 X1 Y1. fold X0 X1 in Hx0, Hx01, Hx1, Hxl, Hxh, Ix1.
  fold Y0 Y1 in Hy0, Hy01, Hy1, Hyl, Hyh, Iy1.
  split; [exact Hfx|]. split; [exact Hfy|].
  split; [tauto|]. split; [tauto|].
  intros s00 s10 s01 s11 anyNoData.
  rewrite (rounded_sampleElevation_eq tm d _ _ Hd). rewrite HW, HH, Hx, Hy, Hfx, Hfy.
  (* the numbers of the code denote the integers of the statement *)
  assert (Ix0 : int_val (floor (Fin x)) X0) by apply int_val_floor.
  assert (Iy0 : int_val (floor (Fin y)) Y0) by apply int_val_floor.
  pose proof (int_val_of_Z W) as Iw.
  assert (I00 : int_val (floor (Fin y) * of_Z W + floor (Fin x))%f64 (Y0 * W + X0))
    by (apply f64_add_int; [apply f64_mul_int| |]; try assumption; nia).
  assert (I10 : int_val (floor (Fin y) * of_Z W +
                         min (floor (Fin x) + one)%f64 (of_Z W - one)%f64)%f64 (Y0 * W + X1))
    by (apply f64_add_int; [apply f64_mul_int| |]; try assumption; nia).
  assert (I01 : int_val (min (floor (Fin y) + one)%f64 (of_Z H - one)%f64 * of_Z W +
                         floor (Fin x))%f64 (Y1 * W + X0))
    by (apply f64_add_int; [apply f64_mul_int| |]; try assumption; nia).
  assert (I11 : int_val (min (floor (Fin y) + one)%f64 (of_Z H - one)%f64 * of_Z W +
                         min (floor (Fin x) + one)%f64 (of_Z W - one)%f64)%f64 (Y1 * W + X1))
    by (apply f64_add_int; [apply f64_mul_int| |]; try assumption; nia).
  rewrite (array_get_int_val d _ _ I00), (array_get_int_val d _ _ I10),
          (array_get_int_val d _ _ I01), (array_get_int_val d _ _ I11) by nia.
  fold s00 s10 s01 s11.
  eexists; split; [reflexivity|].
  assert (Hany : anyNoData <->
    _isNoData tm s00 || _isNoData tm s10 || _isNoData tm s01 || _isNoData tm s11 = true).
  { unfold anyNoData. rewrite !orb_true_iff, !isNoData_iff. tauto. }
  split.
  - intros Ha. apply Hany in Ha. rewrite Ha. reflexivity.
  - intros Hn. destruct (_ || _ || _ || _) eqn:E; [exfalso; apply Hn, Hany; reflexivity|].
    reflexivity.
Qed.

Lemma C1_witness :
  Rounded._sampleElevation tm_wide (Fin third) zero = Normal (Fin 10).
Proof.
  destruct (C1_sampleElevation_bilinear tm_wide
              [Fin 0; Fin 10; Fin 20; Fin 30; Fin 40; Fin 50; Fin 60; Fin 70] 4 2
              third 0) as (x & y & fx & fy & Hx & Hy & Hfx & Hfy & _ & _ & r & Hr & _ & Hv);
    [reflexivity|reflexivity|reflexivity|lia|lia|reflexivity|
     split; discriminate|split; discriminate|].
  unfold zero. rewrite Hr. f_equal. vm_compute in Hx, Hy. injection Hx as <-. injection Hy as <-.
  vm_compute in Hfx, Hfy. injection Hfx as <-. injection Hfy as <-.
  rewrite Hv; [reflexivity|]. vm_compute. intros [H|[H|[H|H]]];
    destruct H as [H|(n & H & _)]; first [discriminate H|exact (H eq_refl)].
Defined.

Lemma add_Fin_inv a b q : (a + b)%js = Fin q -> exists p r, a = Fin p /\ b = Fin r.
Proof. destruct a, b; simpl; try discriminate. eauto. Qed.

Lemma mul_Fin_inv a b q : (a * b)%js = Fin q -> exists p r, a = Fin p /\ b = Fin r.
Proof.
  destruct a as [| | |p], b as [| | |r]; simpl; try discriminate; eauto;
    unfold inf_of_sign, sign_mul; simpl; try (destruct (_ ?= 0)%Q; discriminate).
Qed.

Lemma floor_Fin_inv x q : floor x = Fin q -> exists p, x = Fin p.
Proof. destruct x; simpl; try discriminate. eauto. Qed.

Lemma array_get_Num_inv d i x : array_get d i = Num x -> exists q, i = Fin q.
Proof.
  unfold array_get, index_of. destruct i; try discriminate. eauto.
Qed.

(** C9.  With the grid set, [_hasNearbyNoData(u, v)] is true exactly when
    [_sampleElevation(u, v)] is NaN, for all [u] and [v], those of the unit
    square among them. *)
Theorem C9_hasNearbyNoData_iff_sample_NaN (tm : TerrainMesh) (d : list num) (u v : num) :
  elevationData tm = Some d ->
  exists b r,
    _hasNearbyNoData tm u v = Normal b /\
    _sampleElevation tm u v = Normal r /\
    (b = true <-> r = NaN).
Proof.
  intros Hd.
  rewrite (hasNearbyNoData_eq tm d u v Hd), (sampleElevation_eq tm d u v Hd).
  do 2 eexists. split; [reflexivity|]. split; [reflexivity|].
  destruct (_ || _ || _ || _) eqn:E; [tauto|].
  split; [discriminate|]. intros Hr. exfalso.
  apply orb_false_iff in E as [E E11]. apply orb_false_iff in E as [E E01].
  apply orb_false_iff in E as [E00 E10].
  apply isNoData_false_inv in E00 as [q00 E00], E10 as [q10 E10],
    E01 as [q01 E01], E11 as [q11 E11].
  rewrite E00, E10, E01, E11 in Hr.
  apply array_get_Num_inv in E00 as [i Hi].
  apply add_Fin_inv in Hi as (a & b & Ha & Hb).
  apply mul_Fin_inv in Ha as (y0 & w & Hy0 & _).
  apply floor_Fin_inv in Hy0 as [y Hy], Hb as [x Hx].
  rewrite Hx, Hy in Hr. discriminate Hr.
Qed.

Lemma C9_witness :
  exists b r,
    _hasNearbyNoData tm_ramp (Fin (1 # 2)) (Fin (1 # 2)) = Normal b /\
    _sampleElevation tm_ramp (Fin (1 # 2)) (Fin (1 # 2)) = Normal r /\
    (b = true <-> r = NaN).
Proof.
  apply (C9_hasNearbyNoData_iff_sample_NaN tm_ramp [Fin 0; Fin 100; Fin 0; Fin 100]).
  reflexivity.
Defined.

(* ===================================================================== *)
(** * Height queries *)
(* ===================================================================== *)

Lemma sampleElevation_total tm u v : exists e, _sampleElevation tm u v = Normal e.
Proof.
  unfold _sampleElevation, _getElevationAt, elevationData_get.
  destruct (elevationData tm) as [d|]; [|eauto]. cbn [bind].
  repeat match goal with
  | |- context [if ?b then _ else _] => destruct b; cbn [bind]
  | |- context [match ?v with Undefined => _ | Num _ => _ end] => destruct v; cbn [bind]
  end; eauto.
Qed.

Lemma heightScale_finite tm : exists q, getHeightScale tm = Fin q /\ (0 < q)%Q.
Proof.
  unfold getHeightScale. destruct (zExaggeration tm / realWorldScale tm)%js as [| | |q] eqn:E;
    simpl; try (eexists; split; [reflexivity|reflexivity]).
  unfold gt, cmp, zero. destruct (q ?= 0)%Q eqn:C.
  - eexists; split; reflexivity.
  - eexists; split; reflexivity.
  - exists q. split; [reflexivity|]. apply Qgt_alt in C. exact C.
Qed.




(* ===================================================================== *)
(** * Calls before the grid is set, thresholds and cell classification *)
(* ===================================================================== *)

(** C8, as amended.  Before the elevation grid is set [_sampleElevation]
    returns 0 and [generateContours] returns [null], reporting no progress;
    neither throws. *)
Theorem C8_unset_grid_returns_quietly (Math_sqrt : num -> num) (tm : TerrainMesh) :
  elevationData tm = None ->
  (forall u v, _sampleElevation tm u v = Normal zero) /\
  (forall fuel referenceElevation minElevation interval heightOffset
          simplifyTolerance maxVertices,
     generateContours Math_sqrt tm fuel referenceElevation minElevation interval
       heightOffset simplifyTolerance maxVertices = Normal (None, [])).
Proof.
  intros H. split.
  - intros u v. unfold _sampleElevation. rewrite H. reflexivity.
  - intros. unfold generateContours. rewrite H. reflexivity.
Qed.

Lemma C8_witness :
  _sampleElevation tm_unset (Fin (1 # 2)) (Fin (1 # 2)) = Normal zero.
Proof.
  apply (C8_unset_grid_returns_quietly (fun x => x) tm_unset). reflexivity.
Defined.

(** On a terrain fresh from the constructor neither call throws. *)
Lemma C8_counterexample :
  elevationData tm_unset = None /\
  ~ fails_loudly (_sampleElevation tm_unset (Fin (1 # 2)) (Fin (1 # 2))) /\
  ~ fails_loudly (generateContours (fun x => x) tm_unset 100 (Fin 100) zero (Fin 10)
                    (Fin (8 # 10000)) zero zero).
Proof. repeat split; vm_compute; discriminate. Qed.

(** C4 *)
Lemma build_thresholds_more_fuel fuel k r m i mx d ts res :
  build_thresholds fuel r m i mx d ts = Normal res ->
  build_thresholds (fuel + k) r m i mx d ts = Normal res.
Proof.
  revert d ts. induction fuel as [|fuel IH]; intros d ts; simpl; [discriminate|].
  destruct (le d mx); [apply IH|auto].
Qed.

(** C4, as amended.  With reference elevation 100, minimum elevation 0 and
    interval 10 the threshold loop of [generateContours] ends, given at
    least 11 units of fuel, with the ten thresholds 90, 80, ..., 10, 0: the
    candidate at depth 100 equals the minimum elevation and is kept. *)
Theorem C4_ramp_thresholds (fuel : nat) :
  (11 <= fuel)%nat ->
  build_thresholds fuel (Fin 100) (Fin 0) (Fin 10) (round (Fin 100 - Fin 0)%js) (Fin 10) []
  = Normal ramp_thresholds /\
  length ramp_thresholds = 10%nat.
Proof.
  intros H. split; [|reflexivity].
  replace fuel with (11 + (fuel - 11))%nat by lia.
  apply build_thresholds_more_fuel. vm_compute. reflexivity.
Qed.

Lemma C4_witness :
  build_thresholds 11 (Fin 100) (Fin 0) (Fin 10) (round (Fin 100 - Fin 0)%js) (Fin 10) []
  = Normal ramp_thresholds.
Proof. apply (C4_ramp_thresholds 11). lia. Defined.

(** The loop yields ten thresholds, the elevation 0 among them. *)
Lemma C4_counterexample :
  exists thresholds,
    build_thresholds 11 (Fin 100) (Fin 0) (Fin 10) (round (Fin 100 - Fin 0)%js) (Fin 10) []
    = Normal thresholds /\
    length thresholds <> 9%nat /\
    In (Fin 0) thresholds.
Proof.
  eexists. split; [vm_compute; reflexivity|]. split; [discriminate|].
  simpl. tauto.
Qed.



(* ===================================================================== *)
(** * Douglas-Peucker simplification *)
(* ===================================================================== *)

Lemma farthest_spec dSq_of pts i m k :
  let r := farthest dSq_of pts i m k in
  (r = (m, k)) \/ (gt r.1 m = true /\ (i <= r.2 < i + length pts)%nat).
Proof.
  revert i m k. induction pts as [|p pts IH]; intros i m k; simpl; [left; reflexivity|].
  destruct (gt (dSq_of p) m) eqn:E.
  - right. destruct (IH (S i) (dSq_of p) i) as [->|[H1 H2]]; simpl.
    + split; [exact E|lia].
    + split; [|lia].
      (* gt is transitive *)
      clear -E H1. set (a := (farthest dSq_of pts (S i) (dSq_of p) i).1) in *.
      clearbody a. unfold gt, cmp in *.
      destruct a as [| | |a], (dSq_of p) as [| | |b], m as [| | |c]; try discriminate; try reflexivity.
      destruct (a ?= b)%Q eqn:E1; try discriminate. destruct (b ?= c)%Q eqn:E2; try discriminate.
      apply Qgt_alt in E1, E2. assert (H : (a > c)%Q) by lra. apply Qgt_alt in H. rewrite H. reflexivity.
  - destruct (IH (S i) m k) as [->|[H1 H2]]; [left; reflexivity|right]. split; [exact H1|lia].
Qed.

Lemma gt_zero_square t : gt zero (t * t)%js = false.
Proof.
  destruct t as [| | |q]; try reflexivity. unfold gt, cmp, zero; simpl.
  destruct (0 ?= q * q)%Q eqn:E; try reflexivity.
  apply Qgt_alt in E. assert (0 <= q * q)%Q by nra. lra.
Qed.

Lemma interior_length pts : length (interior pts) = (length pts - 2)%nat.
Proof.
  unfold interior. destruct pts as [|a pts]; [reflexivity|]. simpl tail.
  destruct pts as [|b pts] using rev_ind; [reflexivity|].
  rewrite removelast_last. simpl. rewrite length_app. simpl. lia.
Qed.

(** When the scan finds a point farther than [tolSq], its index is interior. *)
Lemma farthest_from_chord_idx pts first last tolerance :
  let r := farthest_from_chord pts first last in
  gt r.1 (tolerance * tolerance)%js = true ->
  (1 <= r.2 /\ r.2 + 2 <= length pts)%nat.
Proof.
  intros r Hgt. unfold farthest_from_chord in r.
  assert (H : forall f, let r := farthest f (interior pts) 1 zero 0 in
            gt r.1 (tolerance * tolerance)%js = true -> (1 <= r.2 /\ r.2 + 2 <= length pts)%nat).
  { intros f r' Hr. destruct (farthest_spec f (interior pts) 1 zero 0) as [E|[_ E]].
    - fold r' in E. rewrite E in Hr. simpl in Hr. rewrite gt_zero_square in Hr. discriminate.
    - fold r' in E. rewrite interior_length in E. lia. }
  subst r. destruct (lt _ _); apply H; exact Hgt.
Qed.

Lemma simplify_fuel_short fuel pts tolerance :
  (length pts <= 2)%nat -> simplify_fuel (S fuel) pts tolerance = Normal pts.
Proof. destruct pts as [|p1 [|p2 [|p3 rest]]]; simpl; intros; try reflexivity; lia. Qed.

Lemma simplify_fuel_long fuel pts tolerance first :
  (2 < length pts)%nat -> head pts = Some first ->
  simplify_fuel (S fuel) pts tolerance =
    let last := List.last pts first in
    let r := farthest_from_chord pts first last in
    if gt r.1 (tolerance * tolerance)%js then
      left <- simplify_fuel fuel (take (r.2 + 1) pts) tolerance ;;
      right <- simplify_fuel fuel (drop r.2 pts) tolerance ;;
      Normal (removelast left ++ right)
    else Normal [first; last].
Proof.
  destruct pts as [|p1 [|p2 [|p3 rest]]]; simpl; intros Hl Hh; try lia.
  injection Hh as <-.
  destruct (farthest_from_chord _ _ _) as [m k]. reflexivity.
Qed.

Lemma simplify_fuel_total fuel pts tolerance :
  (length pts < fuel)%nat -> exists r, simplify_fuel fuel pts tolerance = Normal r.
Proof.
  revert pts. induction fuel as [|fuel IH]; intros pts Hlen; [lia|].
  destruct (le_lt_dec (length pts) 2) as [Hs|Hl].
  - rewrite simplify_fuel_short by exact Hs. eauto.
  - destruct pts as [|first pts']; [simpl in Hl; lia|].
    rewrite (simplify_fuel_long _ _ _ first Hl eq_refl). cbv zeta.
    set (pts := first :: pts') in *.
    pose proof (farthest_from_chord_idx pts first (List.last pts first) tolerance) as Hidx.
    cbv zeta in Hidx.
    destruct (gt _ _) eqn:E; [|eauto].
    specialize (Hidx eq_refl).
    destruct (IH (take ((farthest_from_chord pts first (List.last pts first)).2 + 1) pts))
      as [l ->]; [rewrite length_take; lia|].
    destruct (IH (drop (farthest_from_chord pts first (List.last pts first)).2 pts))
      as [r ->]; [rewrite length_drop; lia|].
    simpl. eauto.
Qed.

Lemma simplifyPolyline2D_total pts tolerance :
  exists r, _simplifyPolyline2D pts tolerance = Normal r.
Proof. apply simplify_fuel_total. lia. Qed.

Lemma removelast_take_S {A} (l : list A) k :
  (k < length l)%nat -> removelast (take (S k) l) = take k l.
Proof.
  intros H. destruct (lookup_lt_is_Some_2 l k H) as [x Hx].
  rewrite (take_S_r _ _ _ Hx). apply removelast_last.
Qed.

(* ===================================================================== *)
(** * Douglas-Peucker simplification in binary64 *)
(* ===================================================================== *)


Lemma binary64_nonneg q : (0 <= q)%Q -> gt zero (Binary64.binary64 q) = false.
Proof.
  intros H. unfold Binary64.binary64, Binary64.round_to.
  pose proof (round_fin_nonneg 53 (-1074) q H) as R.
  destruct (Qle_bool _ _).
  - destruct (q ?= 0)%Q eqn:E; try reflexivity. apply Qlt_alt in E. lra.
  - unfold gt, cmp, zero. rewrite Qred_correct.
    destruct (0 ?= Binary64.round_fin 53 (-1074) q)%Q eqn:E; try reflexivity.
    apply Qgt_alt in E. lra.
Qed.

Lemma f64_gt_zero_square t : gt zero (t * t)%f64 = false.
Proof.
  destruct t as [| | |q]; try reflexivity. cbn [Binary64.mul].
  apply binary64_nonneg. nra.
Qed.

Lemma f64_zero_square : (zero * zero)%f64 = zero.
Proof. vm_compute. reflexivity. Qed.

(** When the scan finds a point farther than [tolSq], its index is interior. *)
Lemma rounded_farthest_idx pts first last tolerance :
  let r := Rounded.farthest_from_chord pts first last in
  gt r.1 (tolerance * tolerance)%f64 = true ->
  (1 <= r.2 /\ r.2 + 2 <= length pts)%nat.
Proof.
  intros r Hgt. unfold Rounded.farthest_from_chord in r.
  assert (H : forall f, let r := farthest f (interior pts) 1 zero 0 in
            gt r.1 (tolerance * tolerance)%f64 = true -> (1 <= r.2 /\ r.2 + 2 <= length pts)%nat).
  { intros f r' Hr. destruct (farthest_spec f (interior pts) 1 zero 0) as [E|[_ E]].
    - fold r' in E. rewrite E in Hr. simpl in Hr. rewrite f64_gt_zero_square in Hr. discriminate.
    - fold r' in E. rewrite interior_length in E. lia. }
  subst r. destruct (lt _ _); apply H; exact Hgt.
Qed.

Lemma rounded_simplify_short fuel pts tolerance :
  (length pts <= 2)%nat -> Rounded.simplify_fuel (S fuel) pts tolerance = Normal pts.
Proof. destruct pts as [|p1 [|p2 [|p3 rest]]]; simpl; intros; try reflexivity; lia. Qed.

Lemma rounded_simplify_long fuel pts tolerance first :
  (2 < length pts)%nat -> head pts = Some first ->
  Rounded.simplify_fuel (S fuel) pts tolerance =
    let last := List.last pts first in
    let r := Rounded.farthest_from_chord pts first last in
    if gt r.1 (tolerance * tolerance)%f64 then
      left <- Rounded.simplify_fuel fuel (take (r.2 + 1) pts) tolerance ;;
      right <- Rounded.simplify_fuel fuel (drop r.2 pts) tolerance ;;
      Normal (removelast left ++ right)
    else Normal [first; last].
Proof.
  destruct pts as [|p1 [|p2 [|p3 rest]]]; simpl; intros Hl Hh; try lia.
  injection Hh as <-.
  destruct (Rounded.farthest_from_chord _ _ _) as [m k]. reflexivity.
Qed.

Lemma rounded_bent_take (pts : list point) m :
  (forall i n, rounded_bent (take n (drop i pts)) = true) ->
  forall i n, rounded_bent (take n (drop i (take m pts))) = true.
Proof.
  intros H i n. rewrite take_drop_commute, take_take.
  destruct (le_lt_dec i (Nat.min (i + n) m)) as [Hle|Hlt].
  - replace (Nat.min (i + n) m) with (i + (Nat.min (i + n) m - i))%nat by lia.
    rewrite <- take_drop_commute. apply H.
  - rewrite drop_ge; [reflexivity|]. rewrite length_take. lia.
Qed.

Lemma rounded_bent_drop (pts : list point) m :
  (forall i n, rounded_bent (take n (drop i pts)) = true) ->
  forall i n, rounded_bent (take n (drop i (drop m pts))) = true.
Proof. intros H i n. rewrite drop_drop. apply H. Qed.

Lemma rounded_simplify_zero_identity fuel pts :
  (length pts < fuel)%nat ->
  (forall i n, rounded_bent (take n (drop i pts)) = true) ->
  Rounded.simplify_fuel fuel pts zero = Normal pts.
Proof.
  revert pts. induction fuel as [|fuel IH]; intros pts Hlen Hb; [lia|].
  destruct (le_lt_dec (length pts) 2) as [Hs|Hl].
  - apply rounded_simplify_short. exact Hs.
  - destruct pts as [|first pts']; [simpl in Hl; lia|].
    rewrite (rounded_simplify_long _ _ _ first Hl eq_refl). cbv zeta.
    set (pts := first :: pts') in *.
    pose proof (rounded_farthest_idx pts first (List.last pts first) zero) as Hidx.
    cbv zeta in Hidx.
    assert (Hbent : rounded_bent pts = true).
    { specialize (Hb 0%nat (length pts)). rewrite drop_0, firstn_all in Hb. exact Hb. }
    assert (Hgt : gt (Rounded.farthest_from_chord pts first (List.last pts first)).1 zero = true).
    { subst pts. destruct pts' as [|p2 [|p3 rest]]; simpl in Hl; try lia. exact Hbent. }
    rewrite f64_zero_square in *. rewrite Hgt in *.
    specialize (Hidx eq_refl).
    set (k := (Rounded.farthest_from_chord pts first (List.last pts first)).2) in *.
    rewrite (IH (take (k + 1) pts)); [|rewrite length_take; lia|apply rounded_bent_take, Hb].
    rewrite (IH (drop k pts)); [|rewrite length_drop; lia|apply rounded_bent_drop, Hb].
    cbn [bind]. replace (k + 1)%nat with (S k) by lia.
    rewrite removelast_take_S by lia. rewrite take_drop. reflexivity.
Qed.

Lemma rounded_bent_throughout_spec pts :
  rounded_bent_throughout pts = true ->
  forall i n, rounded_bent (take n (drop i pts)) = true.
Proof.
  unfold rounded_bent_throughout. intros H i n.
  rewrite forallb_forall in H.
  destruct (le_lt_dec i (length pts)) as [Hi|Hi].
  - specialize (H i). rewrite forallb_forall in H.
    destruct (le_lt_dec n (length pts)) as [Hn|Hn].
    + apply H; apply in_seq; lia.
    + rewrite take_ge by (rewrite length_drop; lia).
      rewrite <- (take_ge (drop i pts) (length pts)) by (rewrite length_drop; lia).
      apply H; apply in_seq; lia.
  - rewrite drop_ge by lia. destruct n; reflexivity.
Qed.

(** C7, as amended.  With tolerance 0, [_simplifyPolyline2D] returns the
    polyline unchanged whenever every run of consecutive points is bent,
    that is, the scan computes for one of its interior points a squared
    distance from the chord that is greater than 0; polylines of at most two
    points are among these.  A polyline of three or more points for which
    the scan computes no squared distance greater than 0 is reduced to its
    first and last point.  The distances are the binary64 numbers that the
    code computes. *)
Theorem C7_simplify_tolerance_zero (points : list point) :
  (rounded_bent_throughout points = true ->
   Rounded._simplifyPolyline2D points zero = Normal points) /\
  (forall first,
     (2 < length points)%nat -> head points = Some first ->
     gt (Rounded.farthest_from_chord points first (List.last points first)).1 zero = false ->
     Rounded._simplifyPolyline2D points zero = Normal [first; List.last points first]).
Proof.
  split.
  - intros H. apply rounded_simplify_zero_identity; [lia|].
    apply rounded_bent_throughout_spec, H.
  - intros first Hl Hh Hgt. unfold Rounded._simplifyPolyline2D.
    rewrite (rounded_simplify_long _ _ _ first Hl Hh). cbv zeta.
    rewrite f64_zero_square, Hgt. reflexivity.
Qed.

Lemma C7_witness :
  Rounded._simplifyPolyline2D zigzag_dyadic zero = Normal zigzag_dyadic /\
  Rounded._simplifyPolyline2D straight zero = Normal [(Fin 0, Fin 0); (Fin 2, Fin 0)].
Proof.
  split.
  - apply (proj1 (C7_simplify_tolerance_zero zigzag_dyadic)). vm_compute. reflexivity.
  - apply (proj2 (C7_simplify_tolerance_zero straight) (Fin 0, Fin 0));
      [simpl; lia|reflexivity|vm_compute; reflexivity].
Defined.

(** Three points on a line, with coordinates that binary64 holds exactly,
    collapse to the two ends at tolerance 0. *)
Lemma C7_counterexample :
  Rounded._simplifyPolyline2D straight zero = Normal [(Fin 0, Fin 0); (Fin 2, Fin 0)] /\
  Rounded._simplifyPolyline2D straight zero <> Normal straight.
Proof. split; [vm_compute; reflexivity|vm_compute; discriminate]. Qed.

(** The two ways in which the computed distance departs from the exact one
    at tolerance 0: the middle of [[0,0],[5,0],[7,0]] lies on the chord,
    its projection rounds and it is kept; the middle of
    [[0,0],[1,2^-600],[2,0]] lies off the chord, the square of its distance
    underflows and it is dropped. *)
Lemma rounded_simplify_values :
  Rounded._simplifyPolyline2D [(Fin 0, Fin 0); (Fin 5, Fin 0); (Fin 7, Fin 0)] zero
    = Normal [(Fin 0, Fin 0); (Fin 5, Fin 0); (Fin 7, Fin 0)] /\
  Rounded._simplifyPolyline2D
    [(Fin 0, Fin 0); (Fin 1, Binary64.lit (2 ^ (-600))); (Fin 2, Fin 0)] zero
    = Normal [(Fin 0, Fin 0); (Fin 2, Fin 0)].
Proof. split; vm_compute; reflexivity. Qed.

(* ===================================================================== *)
(** * Triangle filtering *)
(* ===================================================================== *)

Section FilterProof.
Variables (tm : TerrainMesh) (d : list num) (uvs : list (num * num)).
Hypothesis Hd : elevationData tm = Some d.

Local Abbreviation nd := (vertex_noData tm uvs).
Local Abbreviation bl := (vertex_belowRef tm uvs).

Lemma hasNearbyNoData_total u v : exists b, _hasNearbyNoData tm u v = Normal b.
Proof.
  unfold _hasNearbyNoData, elevationData_get. rewrite Hd. cbn [bind].
  repeat match goal with |- context [if ?b then _ else _] => destruct b end; eauto.
Qed.

Lemma classify_vertex_eq i below noData :
  classify_vertex tm uvs i (below, noData) =
    Normal (if bl i then <[i := true]> below else below,
            if nd i then <[i := true]> noData else noData).
Proof.
  unfold classify_vertex, vertex_belowRef, vertex_noData, vertex_below, vertex_sample.
  destruct (hasNearbyNoData_total (uv_getX uvs i) (one - uv_getY uvs i)%js) as [b ->].
  destruct (sampleElevation_total tm (uv_getX uvs i) (one - uv_getY uvs i)%js) as [e ->].
  cbn [bind returned]. destruct b; [reflexivity|]. cbn [orb].
  destruct (isFinite e); cbn [negb andb]; [|reflexivity].
  destruct (lt e (referenceElevation tm)); reflexivity.
Qed.

Lemma insert_flag (f : nat -> bool) i k :
  (if f i then <[i := true]> (map f (seq 0 i) ++ replicate (S k) false)
   else map f (seq 0 i) ++ replicate (S k) false)
  = map f (seq 0 (S i)) ++ replicate k false.
Proof.
  rewrite seq_S, map_app, <- app_assoc. simpl.
  destruct (f i); [|reflexivity].
  rewrite insert_app_r_alt by (rewrite length_map, length_seq; lia).
  rewrite length_map, length_seq, Nat.sub_diag. reflexivity.
Qed.

Lemma classify_loop k : forall i r,
  for_range (classify_vertex tm uvs) i k
    (map bl (seq 0 i) ++ replicate (k + r) false,
     map nd (seq 0 i) ++ replicate (k + r) false)
  = Normal (map bl (seq 0 (i + k)) ++ replicate r false,
            map nd (seq 0 (i + k)) ++ replicate r false).
Proof.
  induction k as [|k IH]; intros i r.
  - simpl. rewrite Nat.add_0_r. reflexivity.
  - cbn [for_range]. rewrite classify_vertex_eq. cbn [bind].
    change (S k + r)%nat with (S (k + r)). rewrite !insert_flag.
    rewrite IH. replace (i + S k)%nat with (S i + k)%nat by lia. reflexivity.
Qed.

Lemma classify_all n :
  for_range (classify_vertex tm uvs) 0 n (replicate n false, replicate n false)
  = Normal (map bl (seq 0 n), map nd (seq 0 n)).
Proof.
  pose proof (classify_loop n 0 0) as H. simpl in H.
  rewrite Nat.add_0_r, !app_nil_r in H. exact H.
Qed.

Lemma flag_at_map (f : nat -> bool) n (i : N) :
  (N.to_nat i < n)%nat -> flag_at (map f (seq 0 n)) (Some i) = f (N.to_nat i).
Proof.
  intros H. unfold flag_at. rewrite list_lookup_fmap.
  rewrite lookup_seq_lt by exact H. reflexivity.
Qed.

Lemma filter_triangle_eq (indices : list N) t a b c acc :
  indices !! (t * 3)%nat = Some a ->
  indices !! (t * 3 + 1)%nat = Some b ->
  indices !! (t * 3 + 2)%nat = Some c ->
  (N.to_nat a < length uvs)%nat -> (N.to_nat b < length uvs)%nat ->
  (N.to_nat c < length uvs)%nat ->
  filter_triangle indices (map bl (seq 0 (length uvs))) (map nd (seq 0 (length uvs))) t acc
  = Normal (acc ++ if kept tm uvs (a, b, c) then [Some a; Some b; Some c] else []).
Proof.
  intros L0 L1 L2 Ha Hb Hc. unfold filter_triangle. rewrite L0, L1, L2.
  rewrite !flag_at_map by assumption.
  unfold kept, vertex_belowRef. cbn [fst snd].
  destruct (vertex_noData tm uvs (N.to_nat a)); cbn [negb andb orb];
    [rewrite app_nil_r; reflexivity|].
  destruct (vertex_noData tm uvs (N.to_nat b)); cbn [negb andb orb];
    [rewrite app_nil_r; reflexivity|].
  destruct (vertex_noData tm uvs (N.to_nat c)); cbn [negb andb orb];
    [rewrite app_nil_r; reflexivity|].
  destruct (vertex_below tm uvs (N.to_nat a) || vertex_below tm uvs (N.to_nat b)
            || vertex_below tm uvs (N.to_nat c));
    [reflexivity|rewrite app_nil_r; reflexivity].
Qed.

Lemma filter_loop n : forall (pre rest : list N) t acc,
  length pre = (t * 3)%nat -> length rest = (n * 3)%nat ->
  Forall (fun i => (N.to_nat i < length uvs)%nat) rest ->
  for_range (filter_triangle (pre ++ rest)
               (map bl (seq 0 (length uvs))) (map nd (seq 0 (length uvs)))) t n acc
  = Normal (acc ++ map Some
              (flat_map triangle_indices (List.filter (kept tm uvs) (triangles rest)))).
Proof.
  induction n as [|n IH]; intros pre rest t acc Hpre Hrest Hall.
  - destruct rest; [|discriminate]. simpl. rewrite app_nil_r. reflexivity.
  - destruct rest as [|a [|b [|c rest]]]; try (simpl in Hrest; lia).
    cbn [for_range].
    inversion Hall as [|? ? Ha Hall1]; subst. inversion Hall1 as [|? ? Hb Hall2]; subst.
    inversion Hall2 as [|? ? Hc Hall3]; subst.
    rewrite (filter_triangle_eq _ t a b c); try assumption.
    2:{ rewrite lookup_app_r by lia. rewrite Hpre, Nat.sub_diag. reflexivity. }
    2:{ rewrite lookup_app_r by lia.
        replace (t * 3 + 1 - length pre)%nat with 1%nat by lia. reflexivity. }
    2:{ rewrite lookup_app_r by lia.
        replace (t * 3 + 2 - length pre)%nat with 2%nat by lia. reflexivity. }
    cbn [bind].
    replace (pre ++ a :: b :: c :: rest) with ((pre ++ [a; b; c]) ++ rest)
      by (rewrite <- app_assoc; reflexivity).
    rewrite (IH (pre ++ [a; b; c]) rest (S t)); try assumption.
    + cbn [triangles List.filter]. destruct (kept tm uvs (a, b, c)).
      * cbn [flat_map triangle_indices fst snd app map]. rewrite <- app_assoc. reflexivity.
      * rewrite app_nil_r. reflexivity.
    + rewrite length_app. simpl. lia.
    + simpl in Hrest. lia.
Qed.

End FilterProof.

Lemma Qceiling_thirds n : Qceiling (inject_Z (Z.of_nat (n * 3)) / 3) = Z.of_nat n.
Proof.
  assert (E : (inject_Z (Z.of_nat (n * 3)) / 3 == inject_Z (Z.of_nat n))%Q).
  { rewrite Nat2Z.inj_mul, inject_Z_mult. change (inject_Z (Z.of_nat 3)) with 3%Q. field. }
  rewrite E. apply Qceiling_Z.
Qed.

Lemma triangles_whole (l : list N) n :
  length l = (n * 3)%nat -> flat_map triangle_indices (triangles l) = l.
Proof.
  revert l. induction n as [|n IH]; intros l H.
  - destruct l; [reflexivity|discriminate].
  - destruct l as [|a [|b [|c l]]]; try (simpl in H; lia).
    cbn [triangles flat_map triangle_indices fst snd app]. f_equal. f_equal. f_equal.
    apply IH. simpl in H. lia.
Qed.

Lemma triangles_Forall (P : N -> Prop) (l : list N) :
  Forall P l -> Forall (fun t => P t.1.1 /\ P t.1.2 /\ P t.2) (triangles l).
Proof.
  revert l. fix IH 1. intros [|a [|b [|c l]]] H; try constructor.
  - inversion H as [|? ? Ha H1]; subst. inversion H1 as [|? ? Hb H2]; subst.
    inversion H2 as [|? ? Hc H3]; subst. simpl. auto.
  - apply IH. inversion H as [|? ? Ha H1]; subst. inversion H1 as [|? ? Hb H2]; subst.
    inversion H2 as [|? ? Hc H3]; subst. exact H3.
Qed.

Lemma filter_sublist {A} (f : A -> bool) (l : list A) : sublist (List.filter f l) l.
Proof.
  induction l as [|x l IH]; simpl; [constructor|].
  destruct (f x); [apply sublist_skip|apply sublist_cons]; exact IH.
Qed.

Lemma flat_triangles_length (ts : list (N * N * N)) :
  length (flat_map triangle_indices ts) = (length ts * 3)%nat.
Proof. induction ts as [|t ts IH]; simpl; [reflexivity|]. rewrite IH. lia. Qed.

Lemma to_uint32_Some (l : list N) : map to_uint32 (map Some l) = l.
Proof. induction l as [|x l IH]; simpl; [reflexivity|]. rewrite IH. reflexivity. Qed.

Lemma filtered_Forall (P : N -> Prop) (f : N * N * N -> bool) (ts : list (N * N * N)) :
  Forall (fun t => P t.1.1 /\ P t.1.2 /\ P t.2) ts ->
  Forall P (flat_map triangle_indices (List.filter f ts)).
Proof.
  induction ts as [|t ts IH]; intros HT; simpl; [constructor|].
  inversion HT as [|? ? (Ha & Hb & Hc) HT']; subst.
  destruct (f t); [|apply IH; exact HT'].
  cbn [flat_map triangle_indices app]. repeat constructor; try assumption.
  apply IH. exact HT'.
Qed.



(* ===================================================================== *)
(** * Vertex colours *)
(* ===================================================================== *)

Lemma clamp_code (n : Q) :
  exists c, max zero (min one (Fin n)) = Fin c /\ (c == clamp01 n)%Q /\ (0 <= c <= 1)%Q.
Proof.
  unfold clamp01, min, max, cmp, one, zero.
  destruct (1 ?= n)%Q eqn:E1.
  - apply Qeq_alt in E1. simpl. exists 1%Q. split; [reflexivity|]. split; [|lra].
    rewrite (Q.min_l 1 n) by lra. rewrite Q.max_r; lra.
  - apply Qlt_alt in E1. simpl. exists 1%Q. split; [reflexivity|]. split; [|lra].
    rewrite (Q.min_l 1 n) by lra. rewrite Q.max_r; lra.
  - apply Qgt_alt in E1. destruct (0 ?= n)%Q eqn:E0.
    + apply Qeq_alt in E0. exists 0%Q. split; [reflexivity|]. split; [|lra].
      rewrite (Q.min_r 1 n) by lra. rewrite Q.max_l; lra.
    + apply Qlt_alt in E0. exists n. split; [reflexivity|]. split; [|lra].
      rewrite (Q.min_r 1 n) by lra. rewrite Q.max_r; lra.
    + apply Qgt_alt in E0. exists 0%Q. split; [reflexivity|]. split; [|lra].
      rewrite (Q.min_r 1 n) by lra. rewrite Q.max_l; lra.
Qed.

Lemma lerp_unit (a b : num) (f : Q) :
  unit_channel a -> unit_channel b -> (0 <= f <= 1)%Q -> unit_channel (lerp a b f).
Proof.
  intros (p & -> & Hp) (q & -> & Hq) Hf. unfold lerp. cbn [sub mul add].
  eexists. split; [reflexivity|]. split; nra.
Qed.

Lemma lerp_eq (a b : num) (f g : Q) :
  isFinite a = true -> isFinite b = true -> (f == g)%Q -> num_eq (lerp a b f) (lerp a b g).
Proof.
  destruct a, b; try discriminate. intros _ _ E. unfold lerp. cbn [sub mul add num_eq].
  rewrite E. reflexivity.
Qed.

Lemma colormap_at_eq (table : list rgb) (t : Q) (zf zc : Z) (cL cU : rgb) :
  Qfloor t = zf -> Qceiling t = zc ->
  table !! Z.to_nat zf = Some cL -> table !! Z.to_nat zc = Some cU ->
  colormap_at table t =
    Some (lerp cL.1.1 cU.1.1 (t - inject_Z zf), lerp cL.1.2 cU.1.2 (t - inject_Z zf),
          lerp cL.2 cU.2 (t - inject_Z zf)).
Proof. intros <- <- HL HU. unfold colormap_at. rewrite HL, HU. reflexivity. Qed.

Section ColourProof.
Variable T : list rgb.
Hypothesis T_length : length T = 256%nat.
Hypothesis T_unit : Forall unit_rgb T.

Lemma T_lookup (z : Z) : (0 <= z <= 255)%Z -> exists c, T !! Z.to_nat z = Some c /\ unit_rgb c.
Proof.
  intros Hz. destruct (lookup_lt_is_Some_2 T (Z.to_nat z)) as [c Hc]; [rewrite T_length; lia|].
  exists c. split; [exact Hc|]. rewrite Forall_lookup in T_unit. exact (T_unit _ _ Hc).
Qed.

Lemma colormap_get_of_Z (z : Z) : (0 <= z)%Z -> colormap_get T (of_Z z) = T !! Z.to_nat z.
Proof.
  intros Hz. unfold colormap_get. rewrite (index_of_int_val _ z (int_val_of_Z z) Hz). reflexivity.
Qed.

Lemma index_range (t : Q) :
  (0 <= t <= 255)%Q ->
  (0 <= Qfloor t <= 255)%Z /\ (0 <= Qceiling t <= 255)%Z /\
  (0 <= t - inject_Z (Qfloor t) <= 1)%Q.
Proof.
  intros [H0 H1].
  assert (F0 : (0 <= Qfloor t)%Z) by (change 0%Z with (Qfloor 0); apply Qfloor_resp_le; exact H0).
  assert (F1 : (Qfloor t <= 255)%Z) by (rewrite <- (Qfloor_Z 255); apply Qfloor_resp_le; exact H1).
  assert (C0 : (0 <= Qceiling t)%Z) by (change 0%Z with (Qceiling 0); apply Qceiling_resp_le; exact H0).
  assert (C1 : (Qceiling t <= 255)%Z) by (rewrite <- (Qceiling_Z 255); apply Qceiling_resp_le; exact H1).
  pose proof (Qfloor_le t). pose proof (Qlt_floor t).
  rewrite inject_Z_plus in H2. change (inject_Z 1) with 1%Q in H2.
  repeat split; try assumption; lra.
Qed.

Lemma getColorForDepth_spec (depth minDepth maxDepth : Q) :
  (minDepth < maxDepth)%Q ->
  exists c spec,
    _getColorForDepth T (Fin depth) (Fin minDepth) (Fin maxDepth) = Normal c /\
    colormap_at T (fractional_index depth minDepth maxDepth) = Some spec /\
    rgb_eq c spec /\ unit_rgb c.
Proof.
  intros Hlt.
  set (n := ((depth - minDepth) / (maxDepth - minDepth))%Q).
  assert (Hn : ((Fin depth - Fin minDepth) / (Fin maxDepth - Fin minDepth))%js = Fin n).
  { cbn [sub]. unfold div.
    assert (Qeq_bool (maxDepth - minDepth) 0 = false) as ->; [|reflexivity].
    apply not_true_is_false. intros E. apply Qeq_bool_iff in E. lra. }
  unfold _getColorForDepth. cbv zeta. rewrite Hn.
  destruct (clamp_code n) as (c & -> & Hc & Hc01).
  rewrite T_length. cbn [sub mul of_nat of_Z one].
  set (t := ((1 - c) * (inject_Z (Z.of_nat 256) - 1))%Q).
  assert (Ht : (t == fractional_index depth minDepth maxDepth)%Q).
  { unfold t, fractional_index. fold n. rewrite <- Hc.
    change (inject_Z (Z.of_nat 256)) with 256%Q. ring. }
  assert (Ht' : (0 <= t <= 255)%Q).
  { unfold t. change (inject_Z (Z.of_nat 256)) with 256%Q. split; nra. }
  destruct (index_range t Ht') as (Hf & Hce & Hfr).
  cbn [floor ceil]. rewrite !colormap_get_of_Z by lia.
  destruct (T_lookup _ Hf) as (cL & HL & UL). destruct (T_lookup _ Hce) as (cU & HU & UU).
  rewrite HL, HU.
  do 2 eexists. split; [reflexivity|].
  assert (EF : Qfloor (fractional_index depth minDepth maxDepth) = Qfloor t)
    by (rewrite Ht; reflexivity).
  assert (EC : Qceiling (fractional_index depth minDepth maxDepth) = Qceiling t)
    by (rewrite Ht; reflexivity).
  rewrite (colormap_at_eq T _ _ _ cL cU EF EC HL HU).
  split; [reflexivity|].
  destruct UL as (UL1 & UL2 & UL3), UU as (UU1 & UU2 & UU3).
  split.
  - unfold rgb_eq. cbn [fst snd of_Z sub].
    assert (E : (t - inject_Z (Qfloor t) ==
                 fractional_index depth minDepth maxDepth
                 - inject_Z (Qfloor t))%Q) by lra.
    cbv zeta.
    destruct cL as [[l1 l2] l3], cU as [[u1 u2] u3]. cbn [fst snd] in *.
    destruct UL1 as (? & -> & _), UL2 as (? & -> & _), UL3 as (? & -> & _),
             UU1 as (? & -> & _), UU2 as (? & -> & _), UU3 as (? & -> & _).
    repeat split; (apply lerp_eq; [reflexivity|reflexivity|exact E]).
  - unfold unit_rgb. cbn [fst snd of_Z sub].
    repeat split; apply lerp_unit; assumption.
Qed.

Lemma num_eq_trans a b c : num_eq a b -> num_eq b c -> num_eq a c.
Proof.
  destruct a, b, c; simpl; try tauto. intros H1 H2. rewrite H1. exact H2.
Qed.

Lemma rgb_eq_trans a b c : rgb_eq a b -> rgb_eq b c -> rgb_eq a c.
Proof.
  intros (A1 & A2 & A3) (B1 & B2 & B3). repeat split; eapply num_eq_trans; eassumption.
Qed.

Lemma colormap_at_integer (t : Q) (z : Z) (c : rgb) :
  (t == inject_Z z)%Q -> T !! Z.to_nat z = Some c -> unit_rgb c ->
  exists spec, colormap_at T t = Some spec /\ rgb_eq spec c.
Proof.
  intros Ht Hc Hu.
  assert (EF : Qfloor t = z) by (rewrite Ht; apply Qfloor_Z).
  assert (EC : Qceiling t = z) by (rewrite Ht; apply Qceiling_Z).
  rewrite (colormap_at_eq T t z z c c EF EC Hc Hc).
  eexists. split; [reflexivity|].
  destruct c as [[c1 c2] c3]. destruct Hu as ((? & E1 & _) & (? & E2 & _) & (? & E3 & _)).
  cbn [fst snd] in *. subst. unfold rgb_eq, lerp. cbn [fst snd sub mul add num_eq].
  repeat split; lra.
Qed.

(** The two ends of the depth range. *)
Lemma getColorForDepth_ends (minDepth maxDepth : Q) :
  (minDepth < maxDepth)%Q ->
  (exists c c255, _getColorForDepth T (Fin minDepth) (Fin minDepth) (Fin maxDepth) = Normal c /\
                  T !! 255%nat = Some c255 /\ rgb_eq c c255) /\
  (exists c c0, _getColorForDepth T (Fin maxDepth) (Fin minDepth) (Fin maxDepth) = Normal c /\
                T !! 0%nat = Some c0 /\ rgb_eq c c0).
Proof.
  intros Hlt. split.
  - destruct (getColorForDepth_spec minDepth minDepth maxDepth Hlt) as (c & spec & Hc & Hs & He & _).
    destruct (T_lookup 255) as (c255 & H255 & U255); [lia|].
    exists c, c255. split; [exact Hc|]. split; [exact H255|].
    destruct (colormap_at_integer (fractional_index minDepth minDepth maxDepth) 255 c255)
      as (spec' & Hs' & He'); try assumption.
    + unfold fractional_index, clamp01.
      assert (E : ((minDepth - minDepth) / (maxDepth - minDepth) == 0)%Q) by (field; lra).
      rewrite E. rewrite (Q.min_r 1 0) by lra. rewrite Q.max_l by lra. reflexivity.
    + rewrite Hs in Hs'. injection Hs' as <-. eapply rgb_eq_trans; eassumption.
  - destruct (getColorForDepth_spec maxDepth minDepth maxDepth Hlt) as (c & spec & Hc & Hs & He & _).
    destruct (T_lookup 0) as (c0 & H0 & U0); [lia|].
    exists c, c0. split; [exact Hc|]. split; [exact H0|].
    destruct (colormap_at_integer (fractional_index maxDepth minDepth maxDepth) 0 c0)
      as (spec' & Hs' & He'); try assumption.
    + unfold fractional_index, clamp01.
      assert (E : ((maxDepth - minDepth) / (maxDepth - minDepth) == 1)%Q) by (field; lra).
      rewrite E. rewrite (Q.min_l 1 1) by lra. rewrite Q.max_r by lra. reflexivity.
    + rewrite Hs in Hs'. injection Hs' as <-. eapply rgb_eq_trans; eassumption.
Qed.
End ColourProof.

Lemma gray_unit : unit_rgb gray.
Proof. repeat split; (eexists; split; [reflexivity|lra]). Qed.

Lemma rgb_eq_refl_unit c : unit_rgb c -> rgb_eq c c.
Proof.
  destruct c as [[a b] c]. intros ((? & E1 & _) & (? & E2 & _) & (? & E3 & _)).
  cbn [fst snd] in *. subst. repeat split; simpl; reflexivity.
Qed.

Lemma flat_channels_lookup (f : nat -> rgb) (n i : nat) :
  (i < n)%nat ->
  let colors := flat_map (fun j => channels (f j)) (seq 0 n) in
  colors !! (i * 3)%nat = Some (f i).1.1 /\
  colors !! (i * 3 + 1)%nat = Some (f i).1.2 /\
  colors !! (i * 3 + 2)%nat = Some (f i).2.
Proof.
  intros Hi. cbv zeta.
  assert (G : forall s l k, (k < l)%nat ->
            let colors := flat_map (fun j => channels (f j)) (seq s l) in
            colors !! (k * 3)%nat = Some (f (s + k)%nat).1.1 /\
            colors !! (k * 3 + 1)%nat = Some (f (s + k)%nat).1.2 /\
            colors !! (k * 3 + 2)%nat = Some (f (s + k)%nat).2).
  { intros s l. revert s. induction l as [|l IH]; intros s k Hk; [lia|].
    cbn [seq flat_map channels app]. destruct k as [|k].
    - rewrite Nat.add_0_r. repeat split.
    - destruct (IH (S s) k) as (A & B & C); [lia|].
      replace (s + S k)%nat with (S s + k)%nat by lia.
      change (S k * 3)%nat with (S (S (S (k * 3)))). cbn [lookup list_lookup Nat.add].
      repeat split; assumption. }
  exact (G 0%nat n i Hi).
Qed.

Section VertexColours.
Variable T : list rgb.
Hypothesis T_length : length T = 256%nat.
Hypothesis T_unit : Forall unit_rgb T.
Variables (tm : TerrainMesh) (d : list num) (uvs : list (num * num)).
Variables (r minDepth maxDepth : Q).
Hypothesis Hd : elevationData tm = Some d.
Hypothesis Href : referenceElevation tm = Fin r.
Hypothesis Hdr : depthRange tm = (Fin minDepth, Fin maxDepth).
Hypothesis Hrange : (minDepth < maxDepth)%Q.

Local Abbreviation f := (vertex_rgb T tm uvs (Fin minDepth) (Fin maxDepth)).

Lemma color_vertex_eq i colors :
  color_vertex T tm uvs (Fin minDepth) (Fin maxDepth) i colors
  = Normal (set_rgb colors (i * 3) (f i)).
Proof.
  unfold color_vertex, f, vertex_rgb, vertex_sample.
  destruct (sampleElevation_total tm (uv_getX uvs i) (one - uv_getY uvs i)%js) as [e ->].
  cbn [bind returned].
  destruct e as [| | |e]; cbn [isFinite negb]; try reflexivity.
  destruct (ge (Fin e) (referenceElevation tm)); [reflexivity|].
  rewrite Href. cbn [sub].
  destruct (getColorForDepth_spec T T_length T_unit (r - e) minDepth maxDepth Hrange)
    as (c & _ & -> & _).
  reflexivity.
Qed.

Lemma set_rgb_next (pre rest : list num) (i : nat) (c : rgb) :
  length pre = (i * 3)%nat ->
  set_rgb (pre ++ zero :: zero :: zero :: rest) (i * 3) c = (pre ++ channels c) ++ rest.
Proof.
  intros H. unfold set_rgb, f32_set, channels.
  rewrite !insert_app_r_alt; rewrite ?length_insert, ?length_app; try lia.
  rewrite H, Nat.sub_diag.
  replace (i * 3 + 1 - i * 3)%nat with 1%nat by lia.
  replace (i * 3 + 2 - i * 3)%nat with 2%nat by lia.
  rewrite <- app_assoc. reflexivity.
Qed.

Lemma color_loop k : forall i m,
  for_range (color_vertex T tm uvs (Fin minDepth) (Fin maxDepth)) i k
    (flat_map (fun j => channels (f j)) (seq 0 i) ++ replicate ((k + m) * 3) zero)
  = Normal (flat_map (fun j => channels (f j)) (seq 0 (i + k)) ++ replicate (m * 3) zero).
Proof.
  induction k as [|k IH]; intros i m.
  - simpl. rewrite Nat.add_0_r. reflexivity.
  - cbn [for_range]. rewrite color_vertex_eq. cbn [bind].
    change ((S k + m) * 3)%nat with (S (S (S ((k + m) * 3)))). cbn [replicate].
    rewrite set_rgb_next.
    2:{ clear. induction i as [|i IHi]; [reflexivity|].
        rewrite seq_S, flat_map_app, length_app, IHi. simpl. lia. }
    replace (flat_map (fun j => channels (f j)) (seq 0 i) ++ channels (f i))
      with (flat_map (fun j => channels (f j)) (seq 0 (S i))).
    2:{ rewrite seq_S, flat_map_app. cbn [flat_map Nat.add]. rewrite app_nil_r. reflexivity. }
    rewrite IH. replace (i + S k)%nat with (S i + k)%nat by lia. reflexivity.
Qed.

Lemma vertex_rgb_spec i :
  exists spec, vertex_color T tm uvs i = Some spec /\ rgb_eq (f i) spec /\ unit_rgb (f i).
Proof.
  unfold vertex_color, f, vertex_rgb.
  destruct (vertex_sample tm uvs i) as [| | |e]; cbn [isFinite negb orb];
    try (exists gray; split; [reflexivity|]; split; [apply rgb_eq_refl_unit|]; apply gray_unit).
  destruct (ge (Fin e) (referenceElevation tm));
    try (exists gray; split; [reflexivity|]; split; [apply rgb_eq_refl_unit|]; apply gray_unit).
  rewrite Href, Hdr. cbn [sub].
  destruct (getColorForDepth_spec T T_length T_unit (r - e) minDepth maxDepth Hrange)
    as (c & spec & -> & Hs & He & Hu).
  exists spec. auto.
Qed.

Lemma computeVertexColors_eq (geo : BufferGeometry) :
  geometry tm = Some geo -> uv geo = Some uvs ->
  _computeVertexColorsAsync T tm =
    Normal (set_geometry tm
              {| uv := uv geo; index := index geo;
                 color := Some (flat_map (fun j => channels (f j)) (seq 0 (length uvs))) |}).
Proof.
  intros Hgeo Huv. unfold _computeVertexColorsAsync. rewrite Hgeo, Hd, Huv, Hdr.
  unfold processInChunks. rewrite Qceiling_Z, Nat2Z.id.
  pose proof (color_loop (length uvs) 0 0) as H. cbn [seq flat_map app Nat.add] in H.
  rewrite Nat.add_0_r in H. cbn [Nat.mul replicate] in H. rewrite app_nil_r in H.
  rewrite H. reflexivity.
Qed.
End VertexColours.

Lemma ramp_colormap_unit : Forall unit_rgb ramp_colormap.
Proof.
  apply Forall_forall. intros c Hc. apply list_elem_of_In, in_map_iff in Hc.
  destruct Hc as (i & <- & Hi). apply in_seq in Hi.
  assert (H0 : (0 <= inject_Z (Z.of_nat i))%Q) by (change 0%Q with (inject_Z 0); rewrite <- Zle_Qle; lia).
  assert (H1 : (inject_Z (Z.of_nat i) <= 255)%Q) by (change 255%Q with (inject_Z 255); rewrite <- Zle_Qle; lia).
  cbv zeta. repeat split; (eexists; split; [reflexivity|]); cbn [fst snd]; lra.
Qed.



(* ===================================================================== *)
(** * The vertex budget of contour generation *)
(* ===================================================================== *)

Lemma returns_bind {A B} (c : completion A) (k : A -> completion B) P Q :
  returns c P -> (forall a, P a -> returns (k a) Q) -> returns (bind c k) Q.
Proof. intros (a & -> & Ha) Hk. exact (Hk a Ha). Qed.

Lemma returns_Normal {A} (a : A) (P : A -> Prop) : P a -> returns (Normal a) P.
Proof. intros H. exists a. auto. Qed.

Lemma returns_weaken {A} (c : completion A) (P Q : A -> Prop) :
  returns c P -> (forall a, P a -> Q a) -> returns c Q.
Proof. intros (a & -> & Ha) H. exists a. auto. Qed.

Lemma for_range_returns {St} (body : nat -> St -> completion St) (P : St -> Prop) n :
  (forall i s, P s -> returns (body i s) P) ->
  forall i s, P s -> returns (for_range body i n s) P.
Proof.
  intros Hb. induction n as [|n IH]; intros i s Hs; simpl.
  - apply returns_Normal, Hs.
  - eapply returns_bind; [apply Hb, Hs|]. intros a Ha. apply IH, Ha.
Qed.

Lemma for_of_returns {A St} (body : A -> St -> completion St) (P : St -> Prop)
    (Q : A -> Prop) xs :
  (forall x s, Q x -> P s -> returns (body x s) P) ->
  Forall Q xs -> forall s, P s -> returns (for_of body xs s) P.
Proof.
  intros Hb. induction xs as [|x xs IH]; intros HQ s Hs; simpl.
  - apply returns_Normal, Hs.
  - inversion HQ as [|? ? Hx Hxs]; subst.
    eapply returns_bind; [apply Hb; assumption|]. intros a Ha. apply IH; assumption.
Qed.

Lemma cell_edges_returns tl tr br bl threshold :
  returns (cell_edges tl tr br bl threshold) (Forall valid_pair).
Proof.
  unfold cell_edges.
  destruct (strict_ne tl tl || strict_ne tr tr || strict_ne br br || strict_ne bl bl);
    [apply returns_Normal; constructor|].
  unfold caseBits.
  destruct (ge tl threshold), (ge tr threshold), (ge br threshold), (ge bl threshold);
    cbn; try destruct (ge _ threshold);
    apply returns_Normal; repeat constructor.
Qed.

Lemma emit_segment_returns vn threshold tl tr br bl x0 x1 z0 z1 ntl ntr nbr nbl
    contourY heightOffset e chunkData :
  valid_pair e ->
  returns (emit_segment vn threshold tl tr br bl x0 x1 z0 z1 ntl ntr nbr nbl
             contourY heightOffset e chunkData) anything.
Proof.
  destruct e as [e0 e1]. intros [H0 H1]. simpl in H0, H1. unfold emit_segment.
  destruct e0 as [|[|[|[|e0]]]]; try lia; destruct e1 as [|[|[|[|e1]]]]; try lia;
    cbn [_interpolateEdge edge_normals]; apply returns_Normal; exact I.
Qed.

Lemma march_returns grid modelX modelZ vn gw gh threshold contourY heightOffset :
  returns (march grid modelX modelZ vn gw gh threshold contourY heightOffset) anything.
Proof.
  unfold march. apply for_range_returns; [|exact I]. intros gy s _.
  apply for_range_returns; [|exact I]. intros gx s' _.
  unfold march_cell. eapply returns_bind; [apply cell_edges_returns|].
  intros edges Hedges. cbv zeta.
  eapply for_of_returns; [|exact Hedges|exact I].
  intros e s'' He _. apply emit_segment_returns, He.
Qed.

(** ** Chaining returns *)

Lemma unused_le_length used : (unused used <= length used)%nat.
Proof. induction used as [|[] used IH]; simpl; lia. Qed.

Lemma unused_insert used i :
  used !! i = Some false -> (unused (<[i := true]> used) + 1 = unused used)%nat.
Proof.
  revert i. induction used as [|b used IH]; intros i H; [discriminate|].
  destruct i as [|i]; simpl in *.
  - injection H as ->. lia.
  - rewrite <- (IH i H). lia.
Qed.

Lemma adj_get_ok adj n k l :
  adj_ok adj n -> adj_get adj k = Some l -> Forall (fun e : nat * nat => (e.1 < n)%nat) l.
Proof.
  induction adj as [|[k' l'] adj IH]; intros Hok H; simpl in H; [discriminate|].
  inversion Hok as [|? ? H1 H2]; subst.
  destruct (key_eqb k' k); [injection H as <-; exact H1|apply IH; assumption].
Qed.

Lemma adj_push_ok adj n k e :
  adj_ok adj n -> (e.1 < n)%nat -> adj_ok (adj_push adj k e) n.
Proof.
  intros Hok He. induction adj as [|[k' l'] adj IH]; simpl.
  - repeat constructor. exact He.
  - inversion Hok as [|? ? H1 H2]; subst. destruct (key_eqb k' k).
    + constructor; [|exact H2]. simpl. apply Forall_app. split; [exact H1|].
      repeat constructor. exact He.
    + constructor; [exact H1|]. apply IH, H2.
Qed.

Lemma build_adjacency_ok data segCount : adj_ok (build_adjacency data segCount) segCount.
Proof.
  unfold build_adjacency.
  assert (G : forall l adj, Forall (fun i => (i < segCount)%nat) l -> adj_ok adj segCount ->
            adj_ok (fold_left
              (fun adj i =>
                 adj_push (adj_push adj (num_at data (i * 6), num_at data (i * 6 + 2)) (i, 0%nat))
                   (num_at data (i * 6 + 3), num_at data (i * 6 + 5)) (i, 1%nat)) l adj) segCount).
  { induction l as [|i l IH]; intros adj Hl Hadj; simpl; [exact Hadj|].
    inversion Hl as [|? ? Hi Hl']; subst. apply IH; [exact Hl'|].
    apply adj_push_ok; [apply adj_push_ok|]; assumption. }
  apply G; [|constructor]. apply Forall_forall. intros i Hi.
  apply list_elem_of_In, in_seq in Hi. lia.
Qed.

Lemma first_unused_spec used l e :
  first_unused used l = Some e -> In e l /\ is_used used e.1 = false.
Proof.
  induction l as [|n l IH]; simpl; [discriminate|].
  destruct (is_used used n.1) eqn:E.
  - intros H. destruct (IH H). auto.
  - intros [= <-]. auto.
Qed.

Lemma walk_returns data adj fuel : forall used key out,
  adj_ok adj (length used) -> (unused used < fuel)%nat ->
  returns (walk fuel data adj used key out) (fun r => length r.1 = length used).
Proof.
  induction fuel as [|fuel IH]; intros used key out Hok Hfuel; [lia|].
  simpl. destruct (adj_get adj key) as [neighbors|] eqn:Hget;
    [|apply returns_Normal; reflexivity].
  destruct (first_unused used neighbors) as [n|] eqn:Hfirst;
    [|apply returns_Normal; reflexivity].
  apply first_unused_spec in Hfirst as [Hin Hun].
  pose proof (adj_get_ok _ _ _ _ Hok Hget) as Hall.
  rewrite Forall_forall in Hall. specialize (Hall n (proj2 (list_elem_of_In _ _) Hin)).
  destruct (lookup_lt_is_Some_2 used n.1 Hall) as [b Hb].
  unfold is_used in Hun. rewrite Hb in Hun. simpl in Hun. subst b.
  pose proof (unused_insert used n.1 Hb) as Hdec.
  eapply returns_weaken.
  - apply IH; [rewrite length_insert; exact Hok|lia].
  - intros r Hr. rewrite Hr, length_insert. reflexivity.
Qed.

Lemma chainAndSimplifySegments_returns data contourY tolerance :
  returns (_chainAndSimplifySegments data contourY tolerance) anything.
Proof.
  unfold _chainAndSimplifySegments. cbv zeta.
  destruct (length data / 6 =? 0)%nat; [apply returns_Normal; exact I|].
  set (segCount := (length data / 6)%nat).
  eapply returns_bind; [|intros a _; apply returns_Normal; exact I].
  apply (for_range_returns _ (fun st => length st.1 = segCount)); [|apply length_replicate].
  intros i [used result] Hlen. simpl in Hlen. unfold chain_from.
  destruct (is_used used i); [apply returns_Normal; exact Hlen|].
  pose proof (build_adjacency_ok data segCount) as Hok.
  eapply returns_bind.
  { apply walk_returns.
    - rewrite length_insert, Hlen. exact Hok.
    - pose proof (unused_le_length (<[i := true]> used)). rewrite length_insert in H. lia. }
  intros [used1 fwd] H1. simpl in H1. rewrite length_insert in H1.
  eapply returns_bind.
  { apply walk_returns.
    - rewrite H1, Hlen. exact Hok.
    - pose proof (unused_le_length used1). lia. }
  intros [used2 bwd] H2. simpl in H2.
  destruct (simplifyPolyline2D_total
              (rev bwd ++ [(num_at data (i * 6), num_at data (i * 6 + 2));
                           (num_at data (i * 6 + 3), num_at data (i * 6 + 5))] ++ fwd)
              tolerance) as [s ->].
  cbn [bind]. apply returns_Normal. simpl. lia.
Qed.

(** ** The threshold loop *)

Lemma threshold_step_returns grid modelX modelZ vn gw gh referenceElevation heightScale
    heightOffset simplifyTolerance threshold acc :
  returns (threshold_step grid modelX modelZ vn gw gh referenceElevation heightScale
             heightOffset simplifyTolerance threshold acc) anything.
Proof.
  destruct acc as [segmentChunks totalVertices]. unfold threshold_step.
  eapply returns_bind; [apply march_returns|]. intros chunkData _.
  destruct (0 <? length chunkData)%nat; [|apply returns_Normal; exact I].
  destruct (gt simplifyTolerance zero); [|apply returns_Normal; exact I].
  eapply returns_bind; [apply chainAndSimplifySegments_returns|].
  intros s _. apply returns_Normal; exact I.
Qed.

Lemma build_grid_returns tm gw gh : returns (build_grid tm gw gh) anything.
Proof.
  unfold build_grid. apply for_range_returns; [|exact I]. intros gy s _.
  apply for_range_returns; [|exact I]. intros gx s' _.
  destruct (sampleElevation_total tm (of_nat gx / (of_nat gw - one))%js
              (of_nat gy / (of_nat gh - one))%js) as [e ->].
  apply returns_Normal; exact I.
Qed.

Lemma build_axis_returns n size half : returns (build_axis n size half) anything.
Proof.
  unfold build_axis. apply for_range_returns; [|exact I]. intros g s _.
  apply returns_Normal; exact I.
Qed.

Lemma build_vertexNormals_returns Math_sqrt grid gw gh cellW cellH heightScale :
  returns (build_vertexNormals Math_sqrt grid gw gh cellW cellH heightScale) anything.
Proof.
  unfold build_vertexNormals. apply for_range_returns; [|exact I]. intros gy s _.
  apply for_range_returns; [|exact I]. intros gx s' _.
  destruct (strict_ne _ _); apply returns_Normal; exact I.
Qed.

(** The threshold loop ends: with a positive interval, one more unit of fuel
    than there are multiples of the interval up to the maximal depth. *)
Lemma build_thresholds_returns (r m i mx : Q) : forall (f : nat) (dq : Q) ts,
  (0 < i)%Q -> (mx - dq < i * inject_Z (Z.of_nat f))%Q ->
  returns (build_thresholds (S f) (Fin r) (Fin m) (Fin i) (Fin mx) (Fin dq) ts) anything.
Proof.
  induction f as [|f IH]; intros dq ts Hi Hf.
  - simpl. unfold le, cmp.
    assert ((dq ?= mx)%Q = Gt) as -> by (apply Qgt_alt; change (inject_Z (Z.of_nat 0)) with 0%Q in Hf; lra).
    apply returns_Normal; exact I.
  - cbn [build_thresholds]. destruct (le (Fin dq) (Fin mx)); [|apply returns_Normal; exact I].
    cbn [add]. apply IH; [exact Hi|].
    rewrite Nat2Z.inj_succ in Hf. unfold Z.succ in Hf. rewrite inject_Z_plus in Hf.
    change (inject_Z 1) with 1%Q in Hf. lra.
Qed.

Lemma build_thresholds_more_fuel' fuel fuel' r m i mx d ts res :
  (fuel <= fuel')%nat ->
  build_thresholds fuel r m i mx d ts = Normal res ->
  build_thresholds fuel' r m i mx d ts = Normal res.
Proof.
  intros Hle H. replace fuel' with (fuel + (fuel' - fuel))%nat by lia.
  apply build_thresholds_more_fuel, H.
Qed.

Lemma thresholds_return (r m i : Q) (fuel : nat) :
  (0 < i)%Q -> (threshold_fuel r m i <= fuel)%nat ->
  returns (build_thresholds fuel (Fin r) (Fin m) (Fin i) (round (Fin r - Fin m)%js) (Fin i) [])
    anything.
Proof.
  intros Hi Hfuel. cbn [sub round of_Z].
  set (mx := inject_Z (Qfloor (r - m + (1 # 2)))).
  destruct (build_thresholds_returns r m i mx (Z.to_nat (Qceiling (mx / i))) i [] Hi)
    as (ts & Hts & _).
  - pose proof (Qle_ceiling (mx / i)) as Hc.
    destruct (Z_le_gt_dec 0 (Qceiling (mx / i))) as [Hpos|Hneg].
    + rewrite Z2Nat.id by exact Hpos.
      assert (mx <= i * inject_Z (Qceiling (mx / i)))%Q.
      { apply (Qmult_le_l _ _ i) in Hc; [|exact Hi].
        assert (E : (i * (mx / i) == mx)%Q) by (field; lra).
        rewrite E in Hc. exact Hc. }
      lra.
    + replace (Z.to_nat (Qceiling (mx / i))) with 0%nat by lia.
      assert (Hc0 : (inject_Z (Qceiling (mx / i)) <= 0)%Q)
        by (change 0%Q with (inject_Z 0); rewrite <- Zle_Qle; lia).
      assert (mx / i <= 0)%Q by lra.
      assert (mx <= 0)%Q.
      { apply (Qmult_le_l _ _ i) in H; [|exact Hi].
        assert (E : (i * (mx / i) == mx)%Q) by (field; lra).
        rewrite E in H. lra. }
      change (inject_Z (Z.of_nat 0)) with 0%Q. lra.
  - exists ts. split; [|exact I].
    eapply build_thresholds_more_fuel'; [exact Hfuel|]. exact Hts.
Qed.

Section Loop.
Variables (grid modelX modelZ vn : list num) (gw gh : nat).
Variables (referenceElevation heightScale heightOffset simplifyTolerance maxVertices : num).
Variable count : nat.

Local Abbreviation step :=
  (threshold_step grid modelX modelZ vn gw gh referenceElevation heightScale
     heightOffset simplifyTolerance).
Local Abbreviation loop :=
  (contour_loop grid modelX modelZ vn gw gh referenceElevation heightScale
     heightOffset simplifyTolerance maxVertices count).

Lemma contour_loop_abort k : forall ts ti acc progress chunks T,
  (k < length ts)%nat ->
  for_of step (take (S k) ts) acc = Normal (chunks, T) ->
  over_budget maxVertices T = true ->
  (forall j a, (1 <= j <= k)%nat -> for_of step (take j ts) acc = Normal a ->
               over_budget maxVertices a.2 = false) ->
  loop ts ti acc progress =
    Normal ({| segments := []; vertexCount := T; aborted := Some true |},
            progress ++ progress_reports ti (S k) count).
Proof.
  induction k as [|k IH]; intros ts ti acc progress chunks T Hlen Hrun Hover Hbefore;
    (destruct ts as [|t ts]; [simpl in Hlen; lia|]);
    cbn [take for_of] in Hrun; unfold loop; cbn [contour_loop]; fold step;
    destruct (step t acc) as [acc1| |] eqn:Hstep; try discriminate; cbn [bind] in Hrun |- *.
  - injection Hrun as ->. cbn [snd]. unfold over_budget in Hover. rewrite Hover. reflexivity.
  - assert (H1 : over_budget maxVertices acc1.2 = false).
    { apply (Hbefore 1%nat acc1); [lia|]. cbn [take for_of]. rewrite Hstep. reflexivity. }
    unfold over_budget in H1. rewrite H1. fold loop.
    rewrite (IH ts (S ti) acc1 _ chunks T); try assumption.
    + unfold progress_reports. cbn [seq map]. rewrite <- app_assoc. reflexivity.
    + simpl in Hlen. lia.
    + intros j a Hj Ha. apply (Hbefore (S j) a); [lia|].
      cbn [take for_of]. rewrite Hstep. exact Ha.
Qed.

Lemma steps_return ts acc : returns (for_of step ts acc) anything.
Proof.
  apply (for_of_returns _ anything anything); [|apply Forall_forall; intros; exact I|exact I].
  intros x s _ _. apply threshold_step_returns.
Qed.
End Loop.




(* ===================================================================== *)
(** * Elevation analysis *)
(* ===================================================================== *)

Lemma loop_range_S {St} (body : nat -> St -> St) n s :
  loop_range body (S n) s = body n (loop_range body n s).
Proof. unfold loop_range. rewrite seq_S, fold_left_app. reflexivity. Qed.

Lemma analyze_sample_eq tm d i st :
  analyze_sample d (noDataValue tm) i st =
    if _isNoData tm (elem d i) then st
    else let v := sample_of (elem d i) in
         (if lt v st.1.1 then v else st.1.1, if gt v st.1.2 then v else st.1.2,
          (st.2 + one)%js).
Proof.
  unfold analyze_sample, _isNoData. destruct st as [[mn mx] c].
  destruct (elem d i) as [|v]; [reflexivity|]. cbn [Number_isFinite sample_of fst snd].
  destruct (isFinite v); cbn [negb]; [|reflexivity].
  destruct (ge v (Fin 100000)); [reflexivity|].
  destruct (noDataValue tm) as [nd|]; [|reflexivity].
  destruct (strict_eq v nd); reflexivity.
Qed.

Lemma valid_count_snoc tm d x :
  valid_count tm (d ++ [x]) =
    (valid_count tm d + if _isNoData tm (Num x) then 0 else 1)%nat.
Proof.
  unfold valid_count. rewrite List.filter_app, length_app. simpl.
  destruct (_isNoData tm (Num x)); reflexivity.
Qed.

Lemma valid_count_le tm d : (valid_count tm d <= length d)%nat.
Proof.
  unfold valid_count. induction d as [|x d IH]; simpl; [lia|].
  destruct (negb _); simpl; lia.
Qed.

(** The counter of the two scans after [k] samples. *)
Lemma count_loop tm d k :
  (k <= length d)%nat ->
  exists c,
    loop_range (fun i validCount =>
                  if negb (_isNoData tm (elem d i)) then (validCount + one)%js
                  else validCount) k zero = Fin c /\
    (c == inject_Z (Z.of_nat (valid_count tm (take k d))))%Q.
Proof.
  induction k as [|k IH]; intros Hk.
  - exists 0%Q. split; reflexivity.
  - destruct IH as (c & Hc & Ec); [lia|]. rewrite loop_range_S, Hc.
    destruct (lookup_lt_is_Some_2 d k ltac:(lia)) as [x Hx].
    rewrite (take_S_r _ _ _ Hx), valid_count_snoc. unfold elem. rewrite Hx.
    destruct (_isNoData tm (Num x)); cbn [negb].
    + exists c. split; [reflexivity|]. rewrite Nat.add_0_r. exact Ec.
    + eexists. split; [reflexivity|]. rewrite Nat2Z.inj_add, inject_Z_plus, Ec.
      reflexivity.
Qed.

Lemma analyze_loop_count tm d k :
  (loop_range (analyze_sample d (noDataValue tm)) k (PosInf, NegInf, zero)).2 =
  loop_range (fun i validCount =>
                if negb (_isNoData tm (elem d i)) then (validCount + one)%js
                else validCount) k zero.
Proof.
  induction k as [|k IH]; [reflexivity|].
  rewrite !loop_range_S, analyze_sample_eq, <- IH.
  destruct (_isNoData tm (elem d k)); reflexivity.
Qed.

(** X5.  The valid fraction that [analyzeElevation] reports for a raster is
    the one that [_analyzeValidDataFraction] computes for a terrain holding
    that raster and the same NoData value: the two scans skip the same
    samples. *)
Theorem analyzeElevation_validFraction (tm : TerrainMesh) (d : list num) :
  elevationData tm = Some d ->
  ElevationInfo.validFraction (analyzeElevation d (noDataValue tm))
  = _analyzeValidDataFraction tm.
Proof.
  intros Hd. unfold analyzeElevation, _analyzeValidDataFraction. rewrite Hd.
  pose proof (analyze_loop_count tm d (length d)) as H.
  destruct (loop_range (analyze_sample _ _) _ _) as [[mn mx] c]. cbn [snd] in H.
  cbn [ElevationInfo.validFraction]. rewrite H. reflexivity.
Qed.

Lemma analyzeElevation_validFraction_witness :
  ElevationInfo.validFraction
    (analyzeElevation [Fin 0; Fin 100; Fin 0; Fin 100] (noDataValue tm_ramp))
  = _analyzeValidDataFraction tm_ramp.
Proof. apply (analyzeElevation_validFraction tm_ramp). reflexivity. Defined.

(** X6.  On a raster that is not empty [_analyzeValidDataFraction] returns
    the number of valid samples divided by the number of samples, a number
    in [[0, 1]]. *)
Theorem analyzeValidDataFraction_range (tm : TerrainMesh) (d : list num) :
  elevationData tm = Some d -> d <> [] ->
  exists q, _analyzeValidDataFraction tm = Fin q /\
    (q == inject_Z (Z.of_nat (valid_count tm d)) / inject_Z (Z.of_nat (length d)))%Q /\
    (0 <= q <= 1)%Q.
Proof.
  intros Hd Hne. unfold _analyzeValidDataFraction. rewrite Hd.
  destruct (count_loop tm d (length d) (le_n _)) as (c & -> & Ec).
  rewrite firstn_all in Ec.
  assert (Hlen : (0 < length d)%nat) by (destruct d; [congruence|simpl; lia]).
  pose proof (valid_count_le tm d) as Hle.
  set (n := valid_count tm d) in *. set (t := length d) in *.
  assert (Ht : (0 < inject_Z (Z.of_nat t))%Q) by (rewrite <- (Zlt_Qlt 0); lia).
  assert (Hn0 : (0 <= inject_Z (Z.of_nat n))%Q) by (rewrite <- (Zle_Qle 0); lia).
  assert (Hnt : (inject_Z (Z.of_nat n) <= inject_Z (Z.of_nat t))%Q) by (rewrite <- Zle_Qle; lia).
  unfold of_nat, of_Z, div.
  assert (E0 : Qeq_bool (inject_Z (Z.of_nat t)) 0 = false).
  { destruct (Qeq_bool _ 0) eqn:E; [|reflexivity]. apply Qeq_bool_iff in E. lra. }
  rewrite E0. eexists. split; [reflexivity|]. split.
  - rewrite Ec. reflexivity.
  - rewrite Ec. split.
    + apply Qle_shift_div_l; lra.
    + apply Qle_shift_div_r; lra.
Qed.

Lemma analyzeValidDataFraction_range_witness :
  exists q, _analyzeValidDataFraction tm_ramp = Fin q /\ (0 <= q <= 1)%Q.
Proof.
  destruct (analyzeValidDataFraction_range tm_ramp [Fin 0; Fin 100; Fin 0; Fin 100])
    as (q & Hq & _ & Hr); [reflexivity|discriminate|].
  exists q. split; [exact Hq|exact Hr].
Defined.

Lemma valid_within_snoc_skip tm d x lo hi :
  valid_within tm d lo hi -> _isNoData tm (Num x) = true -> valid_within tm (d ++ [x]) lo hi.
Proof.
  intros H Hx q Hin Hq. apply in_app_or in Hin as [Hin|[->|[]]]; [apply H; assumption|].
  congruence.
Qed.

Lemma valid_within_snoc tm d q lo hi lo' hi' :
  valid_within tm d lo hi -> (lo' <= lo)%Q -> (hi <= hi')%Q -> (lo' <= q <= hi')%Q ->
  valid_within tm (d ++ [Fin q]) lo' hi'.
Proof.
  intros H Hlo Hhi Hq p Hin Hp. apply in_app_or in Hin as [Hin|[E|[]]].
  - specialize (H p Hin Hp). lra.
  - assert (Epq : q = p) by congruence. subst p. exact Hq.
Qed.

Lemma analyze_loop_extremes tm d k :
  (k <= length d)%nat ->
  let st := loop_range (analyze_sample d (noDataValue tm)) k (PosInf, NegInf, zero) in
  extremes tm (take k d) st.1.1 st.1.2.
Proof.
  induction k as [|k IH]; intros Hk; cbv zeta.
  - left. repeat split.
  - specialize (IH ltac:(lia)). cbv zeta in IH.
    rewrite loop_range_S, analyze_sample_eq.
    destruct (lookup_lt_is_Some_2 d k ltac:(lia)) as [x Hx].
    rewrite (take_S_r _ _ _ Hx). unfold elem. rewrite Hx.
    destruct (loop_range _ k _) as [[mn mx] c]. cbn [fst snd] in *.
    destruct (_isNoData tm (Num x)) eqn:Ex.
    + cbn [fst snd]. destruct IH as [(H0 & -> & ->)|(lo & hi & -> & -> & Il & Vl & Ih & Vh & W)].
      * left. rewrite valid_count_snoc, Ex. repeat split. lia.
      * right. exists lo, hi.
        assert (Il' : In (Fin lo) (take k d ++ [x])) by (apply in_or_app; left; assumption).
        assert (Ih' : In (Fin hi) (take k d ++ [x])) by (apply in_or_app; left; assumption).
        do 6 (split; [first [reflexivity|assumption]|]).
        apply valid_within_snoc_skip; assumption.
    + destruct (isNoData_false_inv _ _ Ex) as [q Eq]. injection Eq as ->.
      cbn [sample_of fst snd]. right.
      destruct IH as [(H0 & -> & ->)|(lo & hi & -> & -> & Il & Vl & Ih & Vh & W)].
      * exists q, q. cbn.
        assert (Hq : In (Fin q) (take k d ++ [Fin q])) by (apply in_or_app; right; left; reflexivity).
        do 6 (split; [first [reflexivity|assumption]|]).
        intros p Hin Hp. apply in_app_or in Hin as [Hin|[E|[]]].
        -- exfalso. clear -H0 Hin Hp. unfold valid_count in H0.
           assert (In (Fin p) (List.filter (fun x => negb (_isNoData tm (Num x))) (take k d))).
           { apply filter_In. split; [exact Hin|]. rewrite Hp. reflexivity. }
           destruct (List.filter _ _); [contradiction|discriminate].
        -- assert (Epq : q = p) by congruence. subst p. lra.
      * unfold lt, gt, cmp.
        assert (Hq : In (Fin q) (take k d ++ [Fin q])) by (apply in_or_app; right; left; reflexivity).
        assert (Il' : In (Fin lo) (take k d ++ [Fin q])) by (apply in_or_app; left; assumption).
        assert (Ih' : In (Fin hi) (take k d ++ [Fin q])) by (apply in_or_app; left; assumption).
        pose proof (W lo Il Vl) as Wl.
        destruct (q ?= lo)%Q eqn:Cl; destruct (q ?= hi)%Q eqn:Ch;
          first [apply Qeq_alt in Cl|apply Qlt_alt in Cl|apply Qgt_alt in Cl];
          first [apply Qeq_alt in Ch|apply Qlt_alt in Ch|apply Qgt_alt in Ch];
          eexists; eexists; (split; [reflexivity|]); (split; [reflexivity|]);
          do 4 (split; [assumption|]);
          (eapply valid_within_snoc; [exact W|lra|lra|split; lra]).
Qed.

(** X3.  [analyzeElevation] returns as [minElevation] and [maxElevation] the
    least and the greatest valid sample of the raster, both of them samples
    of the raster, and [+Infinity] and [-Infinity] when no sample is valid;
    the reference elevation it proposes is the maximum. *)
Theorem analyzeElevation_extremes (tm : TerrainMesh) (d : list num) :
  let info := analyzeElevation d (noDataValue tm) in
  ElevationInfo.referenceElevation info = ElevationInfo.maxElevation info /\
  extremes tm d (ElevationInfo.minElevation info) (ElevationInfo.maxElevation info).
Proof.
  cbv zeta. unfold analyzeElevation.
  pose proof (analyze_loop_extremes tm d (length d) (le_n _)) as H. cbv zeta in H.
  rewrite firstn_all in H.
  destruct (loop_range _ _ _) as [[mn mx] c]. cbn [fst snd] in H.
  split; [reflexivity|exact H].
Qed.

(** X4.  The depth range that [analyzeElevation] returns is [[0, z]] for an
    integer [z] of at least 1, whatever the raster holds: a flat, an empty
    or an all-NoData raster gives [[0, 1]], so the range is never empty. *)
Theorem analyzeElevation_depthRange (tm : TerrainMesh) (d : list num) :
  exists z : Z,
    ElevationInfo.depthRange (analyzeElevation d (noDataValue tm)) = (zero, of_Z z) /\
    (1 <= z)%Z.
Proof.
  pose proof (analyze_loop_extremes tm d (length d) (le_n _)) as H. cbv zeta in H.
  rewrite firstn_all in H. unfold analyzeElevation.
  destruct (loop_range _ _ _) as [[mn mx] c]. cbn [fst snd] in H.
  cbn [ElevationInfo.depthRange ElevationInfo.minElevation ElevationInfo.maxElevation] in *.
  destruct H as [(_ & -> & ->)|(lo & hi & -> & -> & _)].
  - exists 1%Z. split; [reflexivity|lia].
  - cbn [sub round]. unfold JS.max, cmp, one, of_Z.
    destruct (1 ?= inject_Z _)%Q eqn:C.
    + exists 1%Z. split; [reflexivity|lia].
    + eexists. split; [reflexivity|]. apply Qlt_alt in C.
      change 1%Q with (inject_Z 1) in C. rewrite <- Zlt_Qlt in C. lia.
    + exists 1%Z. split; [reflexivity|lia].
Qed.

(* ===================================================================== *)
(** * Position queries *)
(* ===================================================================== *)

Lemma div_Fin a b : ~ (b == 0)%Q -> (Fin a / Fin b)%js = Fin (a / b).
Proof.
  intros Hb. unfold div. destruct (Qeq_bool b 0) eqn:E; [|reflexivity].
  apply Qeq_bool_iff in E. contradiction.
Qed.

Lemma max_zero_pos a dq :
  max zero a = Fin dq -> (0 < dq)%Q -> a = Fin dq.
Proof.
  unfold max, cmp, zero. destruct a as [| | |q]; try discriminate.
  - intros [= <-]. lra.
  - destruct (0 ?= q)%Q eqn:C; intros [= <-]; try lra. reflexivity.
Qed.



Lemma binary64_not_NaN q : Binary64.binary64 q <> NaN.
Proof.
  unfold Binary64.binary64, Binary64.round_to. destruct (Qle_bool _ _) eqn:E; [|discriminate].
  apply Qle_bool_iff in E. destruct (q ?= 0)%Q eqn:C; try discriminate.
  apply Qeq_alt in C. rewrite (round_fin_zero 53 (-1074) q C) in E.
  pose proof (pow2_pos 1024). change (Qabs 0) with 0%Q in E. lra.
Qed.

Lemma rounded_sampleElevation_total tm u v :
  exists e, Rounded._sampleElevation tm u v = Normal e.
Proof.
  destruct (elevationData tm) as [d|] eqn:Hd.
  - rewrite (rounded_sampleElevation_eq tm d u v Hd). eauto.
  - unfold Rounded._sampleElevation. rewrite Hd. eauto.
Qed.

Lemma max_zero_nonneg t : max zero t = NaN \/ ge (max zero t) zero = true.
Proof.
  unfold max, cmp, zero. destruct t as [| | |q]; try (left; reflexivity);
    try (right; reflexivity).
  destruct (0 ?= q)%Q eqn:C; right; [reflexivity| |reflexivity].
  unfold ge, cmp. apply Qlt_alt in C. destruct (q ?= 0)%Q eqn:C'; try reflexivity.
  apply Qlt_alt in C'. lra.
Qed.

Lemma max_zero_NaN t : max zero t = NaN <-> t = NaN.
Proof.
  unfold max, cmp, zero. destruct t as [| | |q]; split; try discriminate; try reflexivity.
  destruct (0 ?= q)%Q; discriminate.
Qed.

Lemma f64_sub_NaN (r : Q) e : (Fin r - e)%f64 = NaN <-> e = NaN.
Proof.
  destruct e as [| | |q]; cbn; split; try discriminate; try reflexivity.
  intros H. exfalso. exact (binary64_not_NaN _ H).
Qed.

(** X8.  [getDepthAtLocalPosition] always returns.  It returns [null]
    exactly when there is no mesh or the position lies outside the model, by
    the four comparisons with the half extents.  Otherwise it returns a depth
    that is NaN or at least 0, never negative; with a finite reference
    elevation the depth is NaN exactly when the sample at the position is
    NaN, so that over NoData the call returns NaN, not [null] and not 0. *)
Theorem getDepthAtLocalPosition_never_negative (this : TerrainObject) (localPos : Vector3.t) :
  let halfWidth := (modelWidth this / Fin 2)%f64 in
  let halfHeight := (modelHeight this / Fin 2)%f64 in
  let outside :=
    lt (Vector3.x localPos) (neg halfWidth) || gt (Vector3.x localPos) halfWidth ||
    lt (Vector3.z localPos) (neg halfHeight) || gt (Vector3.z localPos) halfHeight in
  let u := ((Vector3.x localPos + halfWidth) / modelWidth this)%f64 in
  let v := ((Vector3.z localPos + halfHeight) / modelHeight this)%f64 in
  exists r, Rounded.getDepthAtLocalPosition this localPos = Normal r /\
    (r = None <-> mesh this = false \/ outside = true) /\
    (forall depth, r = Some depth ->
       (depth = NaN \/ ge depth zero = true) /\
       (isFinite (referenceElevation this) = true ->
        (depth = NaN <-> Rounded._sampleElevation this u v = Normal NaN))).
Proof.
  intros halfWidth halfHeight outside u v. unfold Rounded.getDepthAtLocalPosition.
  fold halfWidth halfHeight. fold outside. fold u v.
  destruct (mesh this); cbn [negb].
  2: { exists None. split; [reflexivity|]. split; [tauto|discriminate]. }
  destruct outside.
  { exists None. split; [reflexivity|]. split; [tauto|discriminate]. }
  destruct (rounded_sampleElevation_total this u v) as [e He]. rewrite He. cbn [bind].
  eexists. split; [reflexivity|]. split.
  - split; [discriminate|]. intros [H|H]; discriminate.
  - intros depth [= <-]. split; [apply max_zero_nonneg|].
    intros Hf. destruct (referenceElevation this) as [| | |r]; try discriminate.
    rewrite max_zero_NaN, f64_sub_NaN. split; [intros ->; reflexivity|congruence].
Qed.

Lemma getDepthAtLocalPosition_never_negative_witness :
  exists depth,
    Rounded.getDepthAtLocalPosition terrain_ramp (Vector3.new (Fin (-1 # 4)) zero zero)
      = Normal (Some depth) /\ ge depth zero = true.
Proof.
  destruct (getDepthAtLocalPosition_never_negative terrain_ramp
              (Vector3.new (Fin (-1 # 4)) zero zero)) as (r & Hr & _ & Hd).
  vm_compute in Hr. injection Hr as <-.
  eexists. split; [vm_compute; reflexivity|].
  destruct (Hd _ eq_refl) as [[H|H] _]; [discriminate H|exact H].
Defined.

(* ===================================================================== *)
(** * CPU displacement and exaggeration *)
(* ===================================================================== *)

Lemma displace_vertex_eq (this : TerrainMesh) uvs i positions :
  displace_vertex this uvs (getHeightScale this) i positions
  = Normal (setY positions i (displaced_height this uvs i)).
Proof.
  unfold displace_vertex, displaced_height.
  destruct (sampleElevation_total this (uv_getX uvs i) (uv_getY uvs i)) as [e ->].
  cbn [bind returned]. destruct (isFinite e); reflexivity.
Qed.

Lemma displace_loop (this : TerrainMesh) uvs k : forall i positions,
  exists positions',
    for_range (displace_vertex this uvs (getHeightScale this)) i k positions
      = Normal positions' /\
    length positions' = length positions /\
    forall j p, positions !! j = Some p ->
      positions' !! j =
        Some (if (i <=? j)%nat && (j <? i + k)%nat
              then Vector3.new (Vector3.x p) (displaced_height this uvs j) (Vector3.z p)
              else p).
Proof.
  induction k as [|k IH]; intros i positions.
  - exists positions. split; [reflexivity|]. split; [reflexivity|].
    intros j p Hp. rewrite Hp. f_equal.
    destruct (i <=? j)%nat eqn:E1; [|reflexivity].
    destruct (j <? i + 0)%nat eqn:E2; [|reflexivity].
    apply Nat.leb_le in E1. apply Nat.ltb_lt in E2. lia.
  - cbn [for_range]. rewrite displace_vertex_eq. cbn [bind].
    destruct (IH (S i) (setY positions i (displaced_height this uvs i)))
      as (ps & -> & Hlen & Hps).
    exists ps. split; [reflexivity|]. split.
    + rewrite Hlen. unfold setY. apply length_alter.
    + intros j p Hp. destruct (decide (i = j)) as [<-|Hne].
      * rewrite (Hps i (Vector3.new (Vector3.x p) (displaced_height this uvs i) (Vector3.z p))).
        2:{ unfold setY. rewrite list_lookup_alter_eq, Hp. reflexivity. }
        assert ((S i <=? i)%nat = false) as -> by (apply Nat.leb_gt; lia).
        assert ((i <=? i)%nat = true) as -> by (apply Nat.leb_le; lia).
        assert ((i <? i + S k)%nat = true) as -> by (apply Nat.ltb_lt; lia).
        reflexivity.
      * rewrite (Hps j p).
        2:{ unfold setY. rewrite list_lookup_alter_ne by exact Hne. exact Hp. }
        f_equal.
        destruct (i <=? j)%nat eqn:E1, (S i <=? j)%nat eqn:E2,
                 (j <? i + S k)%nat eqn:E3, (j <? S i + k)%nat eqn:E4; try reflexivity;
          repeat match goal with
          | H : (_ <=? _)%nat = true |- _ => apply Nat.leb_le in H
          | H : (_ <=? _)%nat = false |- _ => apply Nat.leb_gt in H
          | H : (_ <? _)%nat = true |- _ => apply Nat.ltb_lt in H
          | H : (_ <? _)%nat = false |- _ => apply Nat.ltb_ge in H
          end; lia.
Qed.



Ltac qcompare :=
  repeat match goal with
  | |- context [(?a ?= ?b)%Q] =>
      let C := fresh "C" in
      destruct (a ?= b)%Q eqn:C;
      first [apply Qeq_alt in C|apply Qlt_alt in C|apply Qgt_alt in C]
  end.

Lemma clamp_range (lo hi : Q) (factor : num) :
  (lo <= hi)%Q -> factor <> NaN ->
  exists q, max (Fin lo) (min (Fin hi) factor) = Fin q /\ (lo <= q <= hi)%Q /\
            (forall f, factor = Fin f -> (lo <= f <= hi)%Q -> (q == f)%Q).
Proof.
  intros Hle Hf. destruct factor as [| | |f]; [congruence| | |].
  - unfold min, max, cmp. qcompare; eexists; (split; [reflexivity|]);
      (split; [lra|]); intros ? [=].
  - unfold min, max, cmp. eexists; (split; [reflexivity|]); (split; [lra|]); intros ? [=].
  - unfold min, cmp. destruct (hi ?= f)%Q eqn:C1;
      first [apply Qeq_alt in C1|apply Qlt_alt in C1|apply Qgt_alt in C1];
      unfold max, cmp; qcompare; eexists; (split; [reflexivity|]); (split; [lra|]);
      intros f' [= <-] Hr; lra.
Qed.

(** X14.  On the GPU path [setZExaggeration] stores the factor clamped to
    the configured range: the stored exaggeration lies between
    [minZExaggeration] and [maxZExaggeration], it is the factor itself when
    that lies in the range, and the [heightScale] uniform of the material,
    where there is one, is set to what [getHeightScale] returns afterwards
    (for a positive real-world scale and a positive lower bound). *)
Theorem setZExaggeration_clamps (T : list rgb) (this : TerrainObject) (factor : num)
    (lo hi : Q) :
  minZExaggeration (config this) = Fin lo -> maxZExaggeration (config this) = Fin hi ->
  (lo <= hi)%Q -> useGPUDisplacement this = true -> factor <> NaN ->
  exists this' q,
    setZExaggeration T this factor = Normal this' /\
    zExaggeration this' = Fin q /\ (lo <= q <= hi)%Q /\
    (forall f, factor = Fin f -> (lo <= f <= hi)%Q -> (q == f)%Q) /\
    (forall s, realWorldScale this = Fin s -> (0 < s)%Q -> (0 < lo)%Q ->
       heightScale_uniform this <> None ->
       heightScale_uniform this' = Some (getHeightScale this')).
Proof.
  intros Hlo Hhi Hle Hgpu Hf. unfold setZExaggeration. rewrite Hlo, Hhi.
  cbn [useGPUDisplacement set_core]. rewrite Hgpu.
  cbn [heightScale_uniform core].
  destruct (clamp_range lo hi factor Hle Hf) as (q & Eq & Hq & Hqf). rewrite Eq.
  change (heightScale_uniform (set_core this (set_zExaggeration this (Fin q))))
    with (heightScale_uniform this).
  destruct (heightScale_uniform this) as [h|] eqn:Eh.
  - eexists. exists q. split; [reflexivity|]. split; [reflexivity|].
    split; [exact Hq|]. split; [exact Hqf|].
    intros s Hs Hs0 Hlo0 _. cbn [heightScale_uniform set_heightScale_uniform]. f_equal.
    unfold getHeightScale.
    cbn [zExaggeration realWorldScale core set_core set_zExaggeration set_heightScale_uniform].
    rewrite Hs. rewrite (div_Fin q s ltac:(lra)). cbn [isFinite andb].
    unfold gt, cmp, zero. destruct (q / s ?= 0)%Q eqn:C; try reflexivity; exfalso;
      first [apply Qeq_alt in C|apply Qlt_alt in C];
      assert (0 < q / s)%Q by (apply Qlt_shift_div_l; lra); lra.
  - eexists. exists q. split; [reflexivity|]. split; [reflexivity|].
    split; [exact Hq|]. split; [exact Hqf|]. intros s _ _ _ Hn. congruence.
Qed.

Lemma setZExaggeration_clamps_witness :
  exists this' q,
    setZExaggeration ramp_colormap terrain_ramp (Fin 20) = Normal this' /\
    zExaggeration this' = Fin q /\ (1 <= q <= 10)%Q.
Proof.
  destruct (setZExaggeration_clamps ramp_colormap terrain_ramp (Fin 20) 1 10)
    as (this' & q & H1 & H2 & H3 & _); try reflexivity; try discriminate.
  exists this', q. split; [exact H1|]. split; [exact H2|exact H3].
Defined.

(* ===================================================================== *)
(** * Model and grid dimensions *)
(* ===================================================================== *)

Lemma grid_dimension (g : num) (W : Q) :
  g <> NaN ->
  exists q, max (min (round g + one)%js (Fin W)) (Fin 2) = Fin q /\
            (2 <= q)%Q /\ (q <= Qmax 2 W)%Q.
Proof.
  intros Hg. destruct g as [| | |x]; [congruence| | |]; cbn [round add one of_Z].
  - unfold min, max, cmp. qcompare; eexists; (split; [reflexivity|]);
      (split; [lra|]); first [apply Q.max_le_iff; left; lra|apply Q.max_le_iff; right; lra].
  - unfold min, max, cmp. eexists; (split; [reflexivity|]);
      (split; [lra|]); apply Q.max_le_iff; left; lra.
  - unfold min, cmp.
    destruct (_ ?= W)%Q eqn:C1;
      first [apply Qeq_alt in C1|apply Qlt_alt in C1|apply Qgt_alt in C1];
      unfold max, cmp; qcompare; eexists; (split; [reflexivity|]); (split; [lra|]);
      first [apply Q.max_le_iff; left; lra|apply Q.max_le_iff; right; lra].
Qed.

(** X13.  For a raster of positive width and height,
    [_calculateGridDimensions] returns a grid width between 2 and the larger
    of 2 and the raster width, and a grid height between 2 and the larger of
    2 and the raster height, whatever the valid fraction and the target
    polygon count, as long as the square root it takes is not NaN. *)
Theorem calculateGridDimensions_bounds (Math_sqrt : num -> num) (this : TerrainObject)
    (validFraction : num) (W H : Q) :
  elevationWidth this = Fin W -> elevationHeight this = Fin H ->
  (0 < W)%Q -> (0 < H)%Q ->
  Math_sqrt (targetPolygons (config this) / (Fin 2 * validFraction) / Fin (W / H))%js <> NaN ->
  exists gw gh,
    _calculateGridDimensions Math_sqrt this validFraction = (Fin gw, Fin gh) /\
    (2 <= gw <= Qmax 2 W)%Q /\ (2 <= gh <= Qmax 2 H)%Q.
Proof.
  intros HW HH HW0 HH0 Hs. unfold _calculateGridDimensions. rewrite HW, HH.
  rewrite (div_Fin W H ltac:(lra)).
  set (h := Math_sqrt _) in *.
  assert (Hw : (h * Fin (W / H))%js <> NaN).
  { assert (0 < W / H)%Q by (apply Qlt_shift_div_l; lra).
    destruct h as [| | |x]; try congruence; cbn; try discriminate.
    - unfold sign_mul. destruct (W / H ?= 0)%Q eqn:C; try discriminate.
      apply Qeq_alt in C. lra.
    - unfold sign_mul. destruct (W / H ?= 0)%Q eqn:C; try discriminate.
      apply Qeq_alt in C. lra. }
  destruct (grid_dimension _ W Hw) as (gw & -> & Hgw).
  destruct (grid_dimension _ H Hs) as (gh & -> & Hgh).
  exists gw, gh. split; [reflexivity|]. split; [exact Hgw|exact Hgh].
Qed.

Lemma calculateGridDimensions_bounds_witness :
  exists gw gh,
    _calculateGridDimensions sqrt_approx terrain_ramp one = (Fin gw, Fin gh) /\
    (2 <= gw <= Qmax 2 2)%Q /\ (2 <= gh <= Qmax 2 2)%Q.
Proof.
  apply (calculateGridDimensions_bounds sqrt_approx terrain_ramp one 2 2);
    try reflexivity. vm_compute. discriminate.
Defined.

(* ===================================================================== *)
(** * Further properties of the triangle filter *)
(* ===================================================================== *)

Lemma filterAboveWater_eq (tm : TerrainMesh) (geo : BufferGeometry) (d : list num)
    (uvs : list (num * num)) (index_array : list N) :
  geometry tm = Some geo -> elevationData tm = Some d ->
  uv geo = Some uvs -> index geo = Some index_array ->
  let original :=
    match originalIndices tm with Some o => o | None => index_array end in
  (length original mod 3 = 0)%nat ->
  Forall (fun i => (N.to_nat i < length uvs)%nat) original ->
  _filterAboveWaterTrianglesAsync tm =
    Normal (set_geometry (set_originalIndices tm original)
              {| uv := uv geo;
                 index := Some (flat_map triangle_indices
                                  (List.filter (kept tm uvs) (triangles original)));
                 color := color geo |}).
Proof.
  intros Hgeo Hd Huv Hidx original Hmod Hall.
  assert (Hlen : exists n, length original = (n * 3)%nat).
  { exists (length original / 3)%nat.
    pose proof (Nat.div_mod_eq (length original) 3). lia. }
  destruct Hlen as [n Hn].
  unfold _filterAboveWaterTrianglesAsync. rewrite Hgeo, Hd, Huv, Hidx.
  fold original. rewrite (classify_all tm d uvs Hd). cbn [bind].
  unfold processInChunks. rewrite Hn, Qceiling_thirds, Nat2Z.id.
  pose proof (filter_loop tm uvs n [] original 0 [] eq_refl Hn Hall) as Hloop.
  cbn [app] in Hloop. rewrite Hloop. cbn [bind app].
  rewrite to_uint32_Some. reflexivity.
Qed.

(** X16.  The filter has no memory beyond the original index buffer: after a
    first call, changing the elevation configuration and filtering again
    gives the very object that changing the configuration and filtering
    the fresh geometry gives.  A second pass starts from all the original
    triangles, not from those the first pass kept. *)
Theorem refilter_from_original (tm : TerrainMesh) (geo : BufferGeometry) (d : list num)
    (uvs : list (num * num)) (index_array : list N)
    (referenceElevation : num) (depthRange : num * num) (noDataValue : option num) :
  geometry tm = Some geo -> elevationData tm = Some d ->
  uv geo = Some uvs -> index geo = Some index_array -> originalIndices tm = None ->
  (length index_array mod 3 = 0)%nat ->
  Forall (fun i => (N.to_nat i < length uvs)%nat) index_array ->
  exists tm1 tm2,
    _filterAboveWaterTrianglesAsync tm = Normal tm1 /\
    _filterAboveWaterTrianglesAsync
      (setElevationConfig tm1 referenceElevation depthRange noDataValue) = Normal tm2 /\
    _filterAboveWaterTrianglesAsync
      (setElevationConfig tm referenceElevation depthRange noDataValue) = Normal tm2 /\
    originalIndices tm2 = Some index_array.
Proof.
  intros Hgeo Hd Huv Hidx Horig Hmod Hall.
  pose proof (filterAboveWater_eq tm geo d uvs index_array Hgeo Hd Huv Hidx) as H1.
  rewrite Horig in H1. specialize (H1 Hmod Hall).
  eexists. eexists. split; [exact H1|].
  set (tm1 := set_geometry _ _).
  pose proof (filterAboveWater_eq
                (setElevationConfig tm1 referenceElevation depthRange noDataValue)
                {| uv := uv geo;
                   index := Some (flat_map triangle_indices
                                    (List.filter (kept tm uvs) (triangles index_array)));
                   color := color geo |}
                d uvs
                (flat_map triangle_indices
                   (List.filter (kept tm uvs) (triangles index_array)))
                eq_refl Hd Huv eq_refl Hmod Hall) as H2.
  pose proof (filterAboveWater_eq
                (setElevationConfig tm referenceElevation depthRange noDataValue)
                geo d uvs index_array Hgeo Hd Huv Hidx) as H3.
  cbn [originalIndices setElevationConfig] in H3. rewrite Horig in H3.
  specialize (H3 Hmod Hall).
  split; [exact H2|]. split; [|reflexivity].
  rewrite H3. reflexivity.
Qed.

Lemma refilter_from_original_witness :
  exists tm1 tm2,
    _filterAboveWaterTrianglesAsync tm_ramp = Normal tm1 /\
    _filterAboveWaterTrianglesAsync
      (setElevationConfig tm1 (Fin 50) (zero, Fin 50) None) = Normal tm2 /\
    _filterAboveWaterTrianglesAsync
      (setElevationConfig tm_ramp (Fin 50) (zero, Fin 50) None) = Normal tm2 /\
    originalIndices tm2 = Some [0; 2; 1; 2; 3; 1]%N.
Proof.
  apply (refilter_from_original tm_ramp
           {| uv := Some [(Fin 0, Fin 1); (Fin 1, Fin 1); (Fin 0, Fin 0); (Fin 1, Fin 0)];
              index := Some [0; 2; 1; 2; 3; 1]%N;
              color := None |}
           [Fin 0; Fin 100; Fin 0; Fin 100]
           [(Fin 0, Fin 1); (Fin 1, Fin 1); (Fin 0, Fin 0); (Fin 1, Fin 0)]
           [0; 2; 1; 2; 3; 1]%N (Fin 50) (zero, Fin 50) None); try reflexivity.
  repeat constructor.
Defined.

Lemma filter_all {A} (f : A -> bool) (l : list A) :
  Forall (fun x => f x = true) l -> List.filter f l = l.
Proof.
  induction l as [|x l IH]; intros H; [reflexivity|].
  inversion H as [|? ? Hx Hl]; subst. simpl. rewrite Hx, (IH Hl). reflexivity.
Qed.

Lemma filter_none {A} (f : A -> bool) (l : list A) :
  Forall (fun x => f x = false) l -> List.filter f l = [].
Proof.
  induction l as [|x l IH]; intros H; [reflexivity|].
  inversion H as [|? ? Hx Hl]; subst. simpl. rewrite Hx. apply IH, Hl.
Qed.



(** X18.  Colouring and filtering are independent: running
    [_computeVertexColorsAsync] and then [_filterAboveWaterTrianglesAsync]
    ends in the same object, or fails alike, as running them the other way
    round, on every terrain and with every colour table. *)
Theorem colours_and_filter_commute (T : list rgb) (tm : TerrainMesh) :
  (tm1 <- _computeVertexColorsAsync T tm ;; _filterAboveWaterTrianglesAsync tm1)
  = (tm1 <- _filterAboveWaterTrianglesAsync tm ;; _computeVertexColorsAsync T tm1).
Proof.
  unfold _computeVertexColorsAsync, _filterAboveWaterTrianglesAsync.
  destruct (geometry tm) as [geo|] eqn:Hgeo; [|cbn [bind]; rewrite Hgeo; reflexivity].
  destruct (elevationData tm) as [d|] eqn:Hd; [|cbn [bind]; rewrite Hgeo, Hd; reflexivity].
  destruct (uv geo) as [uvs|] eqn:Huv; [|cbn [bind]; rewrite Hgeo, Hd, Huv; reflexivity].
  destruct (depthRange tm) as [minDepth maxDepth] eqn:Hdr.
  destruct (index geo) as [index_array|] eqn:Hidx.
  - rewrite (classify_all tm d uvs Hd). cbn [bind].
    set (indices := match originalIndices tm with Some o => o | None => index_array end).
    destruct (for_range_returns
                (filter_triangle indices (map (vertex_belowRef tm uvs) (seq 0 (length uvs)))
                   (map (vertex_noData tm uvs) (seq 0 (length uvs))))
                anything
                (Z.to_nat (Qceiling (inject_Z (Z.of_nat (length indices)) / 3)))
                ltac:(intros i s _; unfold filter_triangle;
                      repeat match goal with |- context [if ?b then _ else _] => destruct b end;
                      apply returns_Normal; exact I)
                0%nat [] I) as (newIndices & Hnew & _).
    assert (Hfilt : processInChunks (inject_Z (Z.of_nat (length indices)) / 3) 5000
                      (filter_triangle indices
                         (map (vertex_belowRef tm uvs) (seq 0 (length uvs)))
                         (map (vertex_noData tm uvs) (seq 0 (length uvs)))) []
                    = Normal newIndices) by exact Hnew.
    rewrite Hfilt. cbn [bind].
    cbn [geometry elevationData set_geometry set_originalIndices uv depthRange].
    rewrite Hd, Hdr.
    change (color_vertex T (set_geometry (set_originalIndices tm indices) _) uvs
              minDepth maxDepth)
      with (color_vertex T tm uvs minDepth maxDepth).
    destruct (processInChunks _ _ (color_vertex T tm uvs minDepth maxDepth) _)
      as [colors| |]; cbn [bind]; [|reflexivity..].
    cbn [geometry elevationData set_geometry uv index originalIndices]. rewrite Hd.
    fold indices.
    change (for_range (classify_vertex (set_geometry tm _) uvs) 0 (length uvs) _)
      with (for_range (classify_vertex tm uvs) 0 (length uvs)
              (replicate (length uvs) false, replicate (length uvs) false)).
    rewrite (classify_all tm d uvs Hd). cbn [bind].
    rewrite Hfilt. cbn [bind]. reflexivity.
  - cbn [bind]. rewrite Hgeo, Hd, Huv, Hdr.
    destruct (processInChunks _ _ _ _) as [colors| |]; cbn [bind]; [|reflexivity..].
    cbn [geometry elevationData set_geometry uv index]. rewrite Hd, Hidx. reflexivity.
Qed.

(* ===================================================================== *)
(** * Further properties of the simplifier *)
(* ===================================================================== *)

(** The simplified polyline keeps the two ends and a sub-list of what lies between. *)
Lemma simplify_fuel_ends fuel : forall (first last : point) (inner : list point) tolerance,
  (length inner + 2 < fuel)%nat ->
  exists mid, simplify_fuel fuel (first :: inner ++ [last]) tolerance
              = Normal (first :: mid ++ [last]) /\ sublist mid inner.
Proof.
  induction fuel as [|fuel IH]; intros first last inner tolerance Hlen; [lia|].
  destruct inner as [|p inner].
  - exists []. split; [reflexivity|constructor].
  - set (pts := first :: (p :: inner) ++ [last]).
    assert (Hl : (2 < length pts)%nat) by (subst pts; simpl; rewrite length_app; simpl; lia).
    rewrite (simplify_fuel_long _ _ _ first Hl eq_refl). cbv zeta.
    assert (Hlast : List.last pts first = last).
    { subst pts. change (first :: (p :: inner) ++ [last]) with ((first :: p :: inner) ++ [last]).
      apply last_last. }
    rewrite Hlast.
    pose proof (farthest_from_chord_idx pts first last tolerance) as Hidx. cbv zeta in Hidx.
    destruct (gt _ _) eqn:E.
    2:{ exists []. split; [reflexivity|apply sublist_nil_l]. }
    specialize (Hidx eq_refl).
    set (k := (farthest_from_chord pts first last).2) in *.
    assert (Hpl : length pts = (length inner + 3)%nat)
      by (subst pts; simpl; rewrite length_app; simpl; lia).
    destruct k as [|j]; [lia|].
    assert (Hj : (j < length (p :: inner))%nat) by (simpl; lia).
    destruct (lookup_lt_is_Some_2 _ _ Hj) as [x Hx].
    assert (Htake : take (S j + 1) pts = first :: take j (p :: inner) ++ [x]).
    { subst pts. replace (S j + 1)%nat with (S (S j)) by lia. rewrite firstn_cons. f_equal.
      rewrite take_app_le by lia. apply take_S_r. exact Hx. }
    assert (Hdrop : drop (S j) pts = x :: drop (S j) (p :: inner) ++ [last]).
    { subst pts. rewrite skipn_cons. rewrite drop_app_le by lia.
      rewrite (drop_S _ _ _ Hx). reflexivity. }
    rewrite Htake, Hdrop.
    destruct (IH first x (take j (p :: inner)) tolerance) as (ml & -> & Hml).
    { rewrite length_take. simpl in *. lia. }
    destruct (IH x last (drop (S j) (p :: inner)) tolerance) as (mr & -> & Hmr).
    { rewrite length_drop. simpl in *. lia. }
    cbn [bind].
    exists (ml ++ x :: mr). split.
    + f_equal. change (first :: ml ++ [x]) with ((first :: ml) ++ [x]).
      rewrite removelast_last. simpl. rewrite <- app_assoc. reflexivity.
    + rewrite <- (take_drop j (p :: inner)). apply sublist_app; [exact Hml|].
      rewrite (drop_S _ _ _ Hx). apply sublist_skip. exact Hmr.
Qed.

(** X19.  [_simplifyPolyline2D] returns for every polyline and every
    tolerance, NaN and negative ones included; the result starts and ends
    with the points the input starts and ends with, and has at least two
    points when the input has. *)
Theorem simplifyPolyline2D_keeps_ends (points : list point) (tolerance : num) :
  exists r, _simplifyPolyline2D points tolerance = Normal r /\
    head r = head points /\ last r = last points /\
    (2 <= length points -> 2 <= length r)%nat.
Proof.
  unfold _simplifyPolyline2D.
  destruct points as [|first rest]; [exists []; repeat split; simpl; lia|].
  destruct rest as [|p rest] using rev_ind; [exists [first]; repeat split; simpl; lia|].
  clear IHrest.
  destruct (simplify_fuel_ends (S (length (first :: rest ++ [p]))) first p rest tolerance)
    as (mid & -> & _); [simpl; rewrite length_app; simpl; lia|].
  eexists. split; [reflexivity|]. split; [reflexivity|]. split.
  - change (first :: mid ++ [p]) with ((first :: mid) ++ [p]).
    change (first :: rest ++ [p]) with ((first :: rest) ++ [p]).
    rewrite !last_snoc. reflexivity.
  - intros _. simpl. rewrite length_app. simpl. lia.
Qed.

(** X20.  The result of [_simplifyPolyline2D] is a sub-list of the input: it
    drops points, never adds, moves or reorders one; so it is no longer
    than the input. *)
Theorem simplifyPolyline2D_sublist (points : list point) (tolerance : num) :
  exists r, _simplifyPolyline2D points tolerance = Normal r /\
    sublist r points /\ (length r <= length points)%nat.
Proof.
  unfold _simplifyPolyline2D.
  assert (H : exists r, simplify_fuel (S (length points)) points tolerance = Normal r /\
                        sublist r points).
  { destruct points as [|first rest]; [exists []; split; [reflexivity|constructor]|].
    destruct rest as [|p rest] using rev_ind;
      [exists [first]; split; [reflexivity|apply sublist_skip; constructor]|].
    clear IHrest.
    destruct (simplify_fuel_ends (S (length (first :: rest ++ [p]))) first p rest tolerance)
      as (mid & -> & Hm); [simpl; rewrite length_app; simpl; lia|].
    eexists. split; [reflexivity|]. apply sublist_skip. apply sublist_app; [exact Hm|reflexivity]. }
  destruct H as (r & Hr & Hs). exists r. split; [exact Hr|]. split; [exact Hs|].
  apply sublist_length. exact Hs.
Qed.

(* ===================================================================== *)
(** * Further properties of contour generation *)
(* ===================================================================== *)

Lemma cmp_int_val x y a b :
  int_val x a -> int_val y b -> cmp x y = Some (a ?= b)%Z.
Proof.
  intros (p & -> & Hp) (q & -> & Hq). unfold cmp.
  rewrite Hp, Hq, inject_Z_compare. reflexivity.
Qed.

Lemma le_int_val x y a b : int_val x a -> int_val y b -> le x y = (a <=? b)%Z.
Proof.
  intros Hx Hy. unfold le. rewrite (cmp_int_val _ _ _ _ Hx Hy), Z.leb_compare.
  destruct (a ?= b)%Z; reflexivity.
Qed.

Lemma ge_int_val x y a b : int_val x a -> int_val y b -> ge x y = (b <=? a)%Z.
Proof.
  intros Hx Hy. unfold ge. rewrite (cmp_int_val _ _ _ _ Hx Hy), Z.leb_compare.
  rewrite (Z.compare_antisym a b). destruct (a ?= b)%Z; reflexivity.
Qed.

Lemma int_val_round x z : int_val x z -> int_val (round x) z.
Proof.
  intros (q & -> & Hq). cbn [round].
  assert (Qfloor (q + (1 # 2)) = z) as ->; [|apply int_val_of_Z].
  rewrite Hq. pose proof (Qfloor_le (inject_Z z + (1 # 2))) as H1.
  pose proof (Qlt_floor (inject_Z z + (1 # 2))) as H2.
  set (f := Qfloor (inject_Z z + (1 # 2))) in *.
  assert (inject_Z f < inject_Z (z + 1))%Q
    by (rewrite inject_Z_plus; change (inject_Z 1) with 1%Q; lra).
  assert (inject_Z z < inject_Z (f + 1))%Q by lra.
  rewrite <- Zlt_Qlt in *. lia.
Qed.

Lemma levels_S r i j k : levels r i j (S k) = (r - j * i)%Z :: levels r i (j + 1) k.
Proof.
  unfold levels. cbn [seq map]. f_equal; [f_equal; lia|].
  rewrite <- seq_shift, map_map. apply map_ext. intros t. f_equal. lia.
Qed.

Section ThresholdLoop.

Variables r m i : Z.
Hypothesis Hi : (1 <= i <= 2 ^ 51)%Z.
Hypothesis Hr : (Z.abs r <= 2 ^ 51)%Z.
Hypothesis Hm : (Z.abs m <= 2 ^ 51)%Z.
Variable maxContourDepth : num.
Hypothesis Hmax : int_val maxContourDepth (r - m).

(** [k] more passes from the depth [j i]. *)
Lemma rounded_thresholds_loop (k : nat) : forall (j : Z) depth ts fuel,
  int_val depth (j * i) -> (1 <= j)%Z ->
  (r - m < (j + Z.of_nat k) * i)%Z ->
  ((0 < k)%nat -> ((j + Z.of_nat k - 1) * i <= r - m)%Z) ->
  (k < fuel)%nat ->
  exists extra,
    Rounded.build_thresholds fuel (of_Z r) (of_Z m) (of_Z i) maxContourDepth depth ts
      = Normal (ts ++ extra) /\
    Forall2 int_val extra (levels r i j k).
Proof.
  induction k as [|k IH]; intros j depth ts fuel Hd Hj Hup Hlo Hfuel;
    (destruct fuel as [|fuel]; [lia|]); cbn [Rounded.build_thresholds];
    rewrite (le_int_val _ _ _ _ Hd Hmax).
  - assert ((j * i <=? r - m)%Z = false) as -> by (apply Z.leb_gt; lia).
    exists []. rewrite app_nil_r. split; [reflexivity|constructor].
  - specialize (Hlo ltac:(lia)).
    assert (Hji : (j * i <= r - m)%Z) by nia.
    assert ((j * i <=? r - m)%Z = true) as -> by (apply Z.leb_le; exact Hji).
    assert (Ha : int_val (of_Z r - depth)%f64 (r - j * i))
      by (apply f64_sub_int; [apply int_val_of_Z|exact Hd|lia]).
    rewrite (ge_int_val _ _ _ _ Ha (int_val_of_Z m)).
    assert ((m <=? r - j * i)%Z = true) as -> by (apply Z.leb_le; lia).
    assert (Hd' : int_val (depth + of_Z i)%f64 ((j + 1) * i)).
    { replace ((j + 1) * i)%Z with (j * i + i)%Z by lia.
      apply f64_add_int; [exact Hd|apply int_val_of_Z|lia]. }
    destruct (IH (j + 1)%Z _ (ts ++ [(of_Z r - depth)%f64]) fuel Hd') as (extra & Hrun & Hex);
      try lia.
    exists ((of_Z r - depth)%f64 :: extra). rewrite Hrun, <- app_assoc. split; [reflexivity|].
    rewrite levels_S. constructor; assumption.
Qed.

End ThresholdLoop.

(** X22.  The thresholds in closed form, for whole numbers: when the
    reference elevation [r], the minimum elevation [m] and the interval [i]
    are integers of magnitude at most [2^51] and [i >= 1], the threshold loop
    returns exactly the levels [r - i], [r - 2 i], ..., [r - n i], in that
    order, with [n] the quotient of [r - m] by [i] (none when [r - m < i]);
    every threshold lies between the minimum elevation and [r - i].  On such
    numbers no operation of the loop rounds. *)
Theorem thresholds_evenly_spaced (r m i : Z) (fuel : nat) :
  (1 <= i <= 2 ^ 51)%Z -> (Z.abs r <= 2 ^ 51)%Z -> (Z.abs m <= 2 ^ 51)%Z ->
  (Z.to_nat ((r - m) / i) < fuel)%nat ->
  exists thresholds,
    Rounded.build_thresholds fuel (of_Z r) (of_Z m) (of_Z i)
      (round (of_Z r - of_Z m)%f64) (of_Z i) [] = Normal thresholds /\
    Forall2 int_val thresholds (levels r i 1 (Z.to_nat ((r - m) / i))) /\
    Forall (fun t => exists z, int_val t z /\ (m <= z <= r - i)%Z) thresholds.
Proof.
  intros Hi Hr Hm Hfuel.
  assert (Hmax : int_val (round (of_Z r - of_Z m)%f64) (r - m)).
  { apply int_val_round, f64_sub_int; [apply int_val_of_Z..|lia]. }
  pose proof (Z.mul_div_le (r - m) i ltac:(lia)) as D1.
  pose proof (Z.mul_succ_div_gt (r - m) i ltac:(lia)) as D2.
  set (n := ((r - m) / i)%Z) in *.
  destruct (rounded_thresholds_loop r m i Hi Hr Hm _ Hmax (Z.to_nat n) 1 (of_Z i) [] fuel)
    as (extra & Hrun & Hex); try lia.
  - replace (1 * i)%Z with i by lia. apply int_val_of_Z.
  - exists extra. split; [exact Hrun|]. split; [exact Hex|].
    assert (Hall : Forall (fun z => (m <= z <= r - i)%Z) (levels r i 1 (Z.to_nat n))).
    { unfold levels. apply Forall_forall. intros z Hz.
      apply list_elem_of_In, in_map_iff in Hz as (t & <- & Ht). apply in_seq in Ht. nia. }
    clear Hrun. revert Hex Hall. generalize (levels r i 1 (Z.to_nat n)) as l.
    induction extra as [|t extra IH]; intros l Hex Hall; [constructor|].
    inversion Hex as [|? z ? l' Ht Hts]; subst. inversion Hall; subst.
    constructor; [exists z; split; assumption|]. apply (IH l'); assumption.
Qed.

Lemma thresholds_evenly_spaced_witness :
  exists thresholds,
    Rounded.build_thresholds 11 (of_Z 100) (of_Z 0) (of_Z 10)
      (round (of_Z 100 - of_Z 0)%f64) (of_Z 10) [] = Normal thresholds /\
    Forall2 int_val thresholds [90; 80; 70; 60; 50; 40; 30; 20; 10; 0]%Z.
Proof.
  destruct (thresholds_evenly_spaced 100 0 10 11) as (ts & H1 & H2 & _);
    [lia|lia|lia|vm_compute; lia|].
  exists ts. split; [exact H1|exact H2].
Defined.

(** X23.  When the interval exceeds the range, no threshold is derived and
    [generateContours] on a terrain with its grid set returns an empty
    result, [{ segments: [], vertexCount: 0 }] without the [aborted] field,
    and reports no progress; it does not return [null].  Stated for integer
    reference and minimum elevations of magnitude at most [2^52], whose
    difference no arithmetic rounds, and any interval greater than that
    difference. *)
Theorem generateContours_no_thresholds (Math_sqrt : num -> num) (tm : TerrainMesh)
    (d : list num) (fuel : nat) (r m : Z) (i : Q)
    (heightOffset simplifyTolerance maxVertices : num) :
  elevationData tm = Some d -> gridWidth tm <> 0%nat -> gridHeight tm <> 0%nat ->
  (Z.abs r <= 2 ^ 52)%Z -> (Z.abs m <= 2 ^ 52)%Z ->
  (inject_Z (r - m) < i)%Q -> (0 < fuel)%nat ->
  generateContours Math_sqrt tm fuel (of_Z r) (of_Z m) (Fin i) heightOffset
    simplifyTolerance maxVertices
  = Normal (Some {| segments := []; vertexCount := zero; aborted := None |}, []).
Proof.
  intros Hd Hw Hh _ _ Hi Hfuel. unfold generateContours. rewrite Hd.
  assert ((gridWidth tm =? 0)%nat = false) as -> by (apply Nat.eqb_neq; exact Hw).
  assert ((gridHeight tm =? 0)%nat = false) as -> by (apply Nat.eqb_neq; exact Hh).
  cbn [orb]. destruct fuel as [|fuel]; [lia|]. cbn [build_thresholds].
  destruct (int_val_round _ _ (int_val_sub _ _ _ _ (int_val_of_Z r) (int_val_of_Z m)))
    as (q & -> & Hq).
  assert (le (Fin i) (Fin q) = false) as ->; [|reflexivity].
  unfold le, cmp. destruct (i ?= q)%Q eqn:C; try reflexivity.
  - apply Qeq_alt in C. rewrite C, Hq in Hi. exfalso. exact (Qlt_irrefl _ Hi).
  - apply Qlt_alt in C. rewrite Hq in C. exfalso. exact (Qlt_irrefl _ (Qlt_trans _ _ _ C Hi)).
Qed.

(** X24.  Every edge that a cell emits is crossed by the contour: for corner
    values other than NaN, infinite ones included, the two corners at the
    ends of each edge of each emitted pair lie on different sides of the
    threshold.  This holds for the twelve entries of [MS_EDGE_TABLE] that
    emit and for both resolutions of the two saddles. *)
Theorem cell_edges_cross (tl tr br bl threshold : num) :
  tl <> NaN -> tr <> NaN -> br <> NaN -> bl <> NaN ->
  exists edges,
    cell_edges tl tr br bl threshold = Normal edges /\
    forallb (fun e : nat * nat =>
               crosses (ge tl threshold) (ge tr threshold) (ge br threshold)
                 (ge bl threshold) e.1 &&
               crosses (ge tl threshold) (ge tr threshold) (ge br threshold)
                 (ge bl threshold) e.2) edges = true.
Proof.
  intros Htl Htr Hbr Hbl.
  assert (Hnan : forall c, c <> NaN -> strict_ne c c = false).
  { intros [| | |q] Hc; try congruence; try reflexivity.
    unfold strict_ne, strict_eq, cmp.
    assert ((q ?= q)%Q = Eq) as -> by (apply Qeq_alt; reflexivity). reflexivity. }
  unfold cell_edges. rewrite (Hnan _ Htl), (Hnan _ Htr), (Hnan _ Hbr), (Hnan _ Hbl).
  cbn [orb]. unfold caseBits.
  generalize (ge ((tl + tr + br + bl) * Fin (1 # 4))%js threshold) as c.
  destruct (ge tl threshold), (ge tr threshold), (ge br threshold), (ge bl threshold);
    intros [|]; eexists; (split; [reflexivity|reflexivity]).
Qed.

Lemma ge_Fin a b : ge (Fin a) (Fin b) = true <-> (b <= a)%Q.
Proof.
  unfold ge, cmp. destruct (a ?= b)%Q eqn:C;
    first [apply Qeq_alt in C|apply Qlt_alt in C|apply Qgt_alt in C];
    split; intros H; try reflexivity; try discriminate; lra.
Qed.

Lemma ge_Fin_false a b : ge (Fin a) (Fin b) = false <-> (a < b)%Q.
Proof.
  unfold ge, cmp. destruct (a ?= b)%Q eqn:C;
    first [apply Qeq_alt in C|apply Qlt_alt in C|apply Qgt_alt in C];
    split; intros H; try reflexivity; try discriminate; lra.
Qed.

Lemma div_Fin' a b : ~ (b == 0)%Q -> (Fin a / Fin b)%js = Fin (a / b).
Proof.
  intros Hb. unfold div. destruct (Qeq_bool b 0) eqn:E; [|reflexivity].
  apply Qeq_bool_iff in E. contradiction.
Qed.

(** The fraction along an edge whose ends lie on either side of the
    threshold. *)
Lemma crossing_fraction (a b thr : Q) :
  ge (Fin a) (Fin thr) <> ge (Fin b) (Fin thr) ->
  exists t, ((Fin thr - Fin a) / (Fin b - Fin a))%js = Fin t /\ (0 <= t <= 1)%Q.
Proof.
  intros H. cbn [sub].
  assert (Hab : (thr <= a /\ b < thr)%Q \/ (a < thr /\ thr <= b)%Q).
  { destruct (ge (Fin a) (Fin thr)) eqn:Ea, (ge (Fin b) (Fin thr)) eqn:Eb; try congruence.
    - left. apply ge_Fin in Ea. apply ge_Fin_false in Eb. split; assumption.
    - right. apply ge_Fin_false in Ea. apply ge_Fin in Eb. split; assumption. }
  rewrite div_Fin' by (destruct Hab; lra).
  eexists. split; [reflexivity|].
  destruct Hab as [[H1 H2]|[H1 H2]].
  - assert (E : ((thr - a) / (b - a) == (a - thr) / (a - b))%Q) by (field; lra).
    rewrite E. split; [apply Qle_shift_div_l; lra|apply Qle_shift_div_r; lra].
  - split; [apply Qle_shift_div_l; lra|apply Qle_shift_div_r; lra].
Qed.

Lemma lerp_between (x0 x1 t : Q) :
  (0 <= t <= 1)%Q -> (Qmin x0 x1 <= x0 + t * (x1 - x0) <= Qmax x0 x1)%Q.
Proof.
  intros Ht. destruct (Qlt_le_dec x0 x1) as [H|H].
  - rewrite Q.min_l, Q.max_r by lra. nra.
  - rewrite Q.min_r, Q.max_l by lra. nra.
Qed.

Lemma end_between (x0 x1 : Q) :
  (Qmin x0 x1 <= x0 <= Qmax x0 x1)%Q /\ (Qmin x0 x1 <= x1 <= Qmax x0 x1)%Q.
Proof.
  destruct (Qlt_le_dec x0 x1) as [H|H].
  - rewrite Q.min_l, Q.max_r by lra. lra.
  - rewrite Q.min_r, Q.max_l by lra. lra.
Qed.

Lemma cell_edges_cross_witness :
  exists edges,
    cell_edges (Fin 0) (Fin 100) (Fin 100) (Fin 0) (Fin 75) = Normal edges /\
    forallb (fun e : nat * nat =>
               crosses (ge (Fin 0) (Fin 75)) (ge (Fin 100) (Fin 75)) (ge (Fin 100) (Fin 75))
                 (ge (Fin 0) (Fin 75)) e.1 &&
               crosses (ge (Fin 0) (Fin 75)) (ge (Fin 100) (Fin 75)) (ge (Fin 100) (Fin 75))
                 (ge (Fin 0) (Fin 75)) e.2) edges = true.
Proof.
  apply (cell_edges_cross (Fin 0) (Fin 100) (Fin 100) (Fin 0) (Fin 75)); discriminate.
Defined.

Section Cell.
Variables tl tr br bl thr x0 x1 z0 z1 : Q.

Local Abbreviation ok := (vertex_ok tl tr br bl thr x0 x1 z0 z1).

Lemma vertex_top : ge (Fin tl) (Fin thr) <> ge (Fin tr) (Fin thr) -> ok 0%nat.
Proof.
  intros H. destruct (crossing_fraction tl tr thr H) as (t & Et & Ht).
  unfold vertex_ok. cbn [_interpolateEdge]. rewrite Et. cbn [sub mul add].
  do 3 eexists. split; [reflexivity|]. split; [exact Ht|]. split.
  - split; [apply lerp_between, Ht|apply end_between].
  - right. right. left. reflexivity.
Qed.

Lemma vertex_right : ge (Fin tr) (Fin thr) <> ge (Fin br) (Fin thr) -> ok 1%nat.
Proof.
  intros H. destruct (crossing_fraction tr br thr H) as (t & Et & Ht).
  unfold vertex_ok. cbn [_interpolateEdge]. rewrite Et. cbn [sub mul add].
  do 3 eexists. split; [reflexivity|]. split; [exact Ht|]. split.
  - split; [apply end_between|apply lerp_between, Ht].
  - right. left. reflexivity.
Qed.

Lemma vertex_bottom : ge (Fin bl) (Fin thr) <> ge (Fin br) (Fin thr) -> ok 2%nat.
Proof.
  intros H. destruct (crossing_fraction bl br thr H) as (t & Et & Ht).
  unfold vertex_ok. cbn [_interpolateEdge]. rewrite Et. cbn [sub mul add].
  do 3 eexists. split; [reflexivity|]. split; [exact Ht|]. split.
  - split; [apply lerp_between, Ht|apply end_between].
  - right. right. right. reflexivity.
Qed.

Lemma vertex_left : ge (Fin tl) (Fin thr) <> ge (Fin bl) (Fin thr) -> ok 3%nat.
Proof.
  intros H. destruct (crossing_fraction tl bl thr H) as (t & Et & Ht).
  unfold vertex_ok. cbn [_interpolateEdge]. rewrite Et. cbn [sub mul add].
  do 3 eexists. split; [reflexivity|]. split; [exact Ht|]. split.
  - split; [apply end_between|apply lerp_between, Ht].
  - left. reflexivity.
Qed.

Lemma crosses_vertex (e : nat) :
  crosses (ge (Fin tl) (Fin thr)) (ge (Fin tr) (Fin thr)) (ge (Fin br) (Fin thr))
    (ge (Fin bl) (Fin thr)) e = true -> ok e.
Proof.
  destruct e as [|[|[|[|e]]]]; cbn [crosses]; intros H; try discriminate;
    [apply vertex_top|apply vertex_right|apply vertex_bottom|apply vertex_left];
    intros E; rewrite E in H; destruct (ge _ _); discriminate.
Qed.

End Cell.

(** The edges of a cell with finite corners, each of them crossed. *)
Lemma cell_edges_finite (tl tr br bl thr : Q) :
  exists edges,
    cell_edges (Fin tl) (Fin tr) (Fin br) (Fin bl) (Fin thr) = Normal edges /\
    forallb (fun e : nat * nat =>
               crosses (ge (Fin tl) (Fin thr)) (ge (Fin tr) (Fin thr))
                 (ge (Fin br) (Fin thr)) (ge (Fin bl) (Fin thr)) e.1 &&
               crosses (ge (Fin tl) (Fin thr)) (ge (Fin tr) (Fin thr))
                 (ge (Fin br) (Fin thr)) (ge (Fin bl) (Fin thr)) e.2) edges = true.
Proof.
  assert (Hself : forall q, strict_ne (Fin q) (Fin q) = false).
  { intros q. unfold strict_ne, strict_eq, cmp.
    assert ((q ?= q)%Q = Eq) as -> by (apply Qeq_alt; reflexivity). reflexivity. }
  unfold cell_edges. rewrite !Hself. cbn [orb]. unfold caseBits.
  generalize (ge ((Fin tl + Fin tr + Fin br + Fin bl) * Fin (1 # 4))%js (Fin thr)) as c.
  destruct (ge (Fin tl) (Fin thr)), (ge (Fin tr) (Fin thr)), (ge (Fin br) (Fin thr)),
    (ge (Fin bl) (Fin thr)); intros [|]; eexists; (split; [reflexivity|reflexivity]).
Qed.

(** X25.  Every contour vertex lies on the boundary of its cell: for a cell
    with finite corners, a finite threshold and finite bounds, each edge of
    each pair that the cell emits is interpolated by [_interpolateEdge] at a
    fraction in [[0, 1]], to a point of the closed cell that lies on one of
    its four sides. *)
Theorem contour_vertices_on_cell_boundary (tl tr br bl thr x0 x1 z0 z1 : Q) :
  exists edges,
    cell_edges (Fin tl) (Fin tr) (Fin br) (Fin bl) (Fin thr) = Normal edges /\
    Forall (fun e : nat * nat =>
              vertex_ok tl tr br bl thr x0 x1 z0 z1 e.1 /\
              vertex_ok tl tr br bl thr x0 x1 z0 z1 e.2) edges.
Proof.
  destruct (cell_edges_finite tl tr br bl thr) as (edges & He & Hc).
  exists edges. split; [exact He|].
  apply Forall_forall. intros e Hin. rewrite forallb_forall in Hc.
  specialize (Hc e (proj1 (list_elem_of_In _ _) Hin)).
  apply andb_true_iff in Hc as [H1 H2]. split; apply crosses_vertex; assumption.
Qed.

Lemma generateContours_no_thresholds_witness :
  generateContours sqrt_approx tm_ramp 5 (of_Z 100) (of_Z 0) (Fin 200) (Fin (8 # 10000))
    zero zero
  = Normal (Some {| segments := []; vertexCount := zero; aborted := None |}, []).
Proof.
  apply (generateContours_no_thresholds sqrt_approx tm_ramp [Fin 0; Fin 100; Fin 0; Fin 100]);
    [reflexivity|discriminate|discriminate|lia|lia|reflexivity|lia].
Defined.

Lemma whole_segments_app a b : whole_segments a -> whole_segments b -> whole_segments (a ++ b).
Proof.
  unfold whole_segments. intros Ha Hb. rewrite length_app.
  rewrite Nat.Div0.add_mod, Ha, Hb. reflexivity.
Qed.

Lemma emit_segment_whole vn threshold tl tr br bl x0 x1 z0 z1 ntl ntr nbr nbl
    contourY heightOffset e chunkData :
  valid_pair e -> whole_segments chunkData ->
  returns (emit_segment vn threshold tl tr br bl x0 x1 z0 z1 ntl ntr nbr nbl
             contourY heightOffset e chunkData) whole_segments.
Proof.
  destruct e as [e0 e1]. intros [H0 H1] Hc. simpl in H0, H1. unfold emit_segment.
  destruct e0 as [|[|[|[|e0]]]]; try lia; destruct e1 as [|[|[|[|e1]]]]; try lia;
    cbn [_interpolateEdge edge_normals]; apply returns_Normal;
    (apply whole_segments_app; [exact Hc|reflexivity]).
Qed.

Lemma march_whole grid modelX modelZ vn gw gh threshold contourY heightOffset :
  returns (march grid modelX modelZ vn gw gh threshold contourY heightOffset) whole_segments.
Proof.
  unfold march. apply for_range_returns; [|reflexivity]. intros gy s Hs.
  apply for_range_returns; [|exact Hs]. intros gx s' Hs'.
  unfold march_cell. eapply returns_bind; [apply cell_edges_returns|].
  intros edges Hedges. cbv zeta.
  eapply for_of_returns; [|exact Hedges|exact Hs'].
  intros e s'' He Hs''. apply emit_segment_whole; assumption.
Qed.

Lemma polyline_segments_whole pts contourY : whole_segments (polyline_segments pts contourY).
Proof.
  induction pts as [|a [|b rest] IH]; try reflexivity.
  change (polyline_segments (a :: b :: rest) contourY)
    with ([a.1; contourY; a.2; b.1; contourY; b.2] ++ polyline_segments (b :: rest) contourY).
  apply whole_segments_app; [reflexivity|exact IH].
Qed.

Lemma chainAndSimplifySegments_whole data contourY tolerance :
  whole_segments data ->
  returns (_chainAndSimplifySegments data contourY tolerance) whole_segments.
Proof.
  intros Hdata. unfold _chainAndSimplifySegments. cbv zeta.
  destruct (length data / 6 =? 0)%nat; [apply returns_Normal; exact Hdata|].
  set (segCount := (length data / 6)%nat).
  apply (returns_bind _ _ (fun st => length st.1 = segCount /\ whole_segments st.2));
    [|intros a Ha; apply returns_Normal; exact (proj2 Ha)].
  apply (for_range_returns _ (fun st => length st.1 = segCount /\ whole_segments st.2));
    [|split; [apply length_replicate|reflexivity]].
  intros i [used result] [Hlen Hres]. simpl in Hlen, Hres. unfold chain_from.
  destruct (is_used used i); [apply returns_Normal; split; assumption|].
  pose proof (build_adjacency_ok data segCount) as Hok.
  eapply returns_bind.
  { apply walk_returns.
    - rewrite length_insert, Hlen. exact Hok.
    - pose proof (unused_le_length (<[i := true]> used)). rewrite length_insert in H. lia. }
  intros [used1 fwd] H1. simpl in H1. rewrite length_insert in H1.
  eapply returns_bind.
  { apply walk_returns.
    - rewrite H1, Hlen. exact Hok.
    - pose proof (unused_le_length used1). lia. }
  intros [used2 bwd] H2. simpl in H2.
  destruct (simplifyPolyline2D_total
              (rev bwd ++ [(num_at data (i * 6), num_at data (i * 6 + 2));
                           (num_at data (i * 6 + 3), num_at data (i * 6 + 5))] ++ fwd)
              tolerance) as [s ->].
  cbn [bind]. apply returns_Normal. split; [simpl; lia|].
  cbn [snd]. apply whole_segments_app; [exact Hres|apply polyline_segments_whole].
Qed.

Lemma acc_ok_push chunks total chunk :
  acc_ok (chunks, total) -> whole_segments chunk ->
  acc_ok (chunks ++ [chunk], (total + of_nat (length chunk) / Fin 3)%js).
Proof.
  intros [Hw (q & Hq & Eq)] Hc. cbn [fst snd] in *. subst total. split; cbn [fst snd].
  - rewrite concat_app. apply whole_segments_app; [exact Hw|].
    simpl. rewrite app_nil_r. exact Hc.
  - unfold of_nat, of_Z, div.
    assert (Qeq_bool 3 0 = false) as -> by reflexivity. cbn [add].
    eexists. split; [reflexivity|].
    rewrite concat_app, length_app. simpl. rewrite app_nil_r.
    rewrite Nat2Z.inj_add, inject_Z_plus.
    set (n := inject_Z (Z.of_nat (length chunk))) in *. clearbody n.
    assert (E : (n / 3 * 3 == n)%Q) by (field; lra). lra.
Qed.

Lemma threshold_step_ok grid modelX modelZ vn gw gh referenceElevation heightScale
    heightOffset simplifyTolerance threshold acc :
  acc_ok acc ->
  returns (threshold_step grid modelX modelZ vn gw gh referenceElevation heightScale
             heightOffset simplifyTolerance threshold acc) acc_ok.
Proof.
  destruct acc as [segmentChunks totalVertices]. intros Hacc. unfold threshold_step.
  eapply returns_bind; [apply march_whole|]. intros chunkData Hchunk.
  destruct (0 <? length chunkData)%nat; [|apply returns_Normal; exact Hacc].
  destruct (gt simplifyTolerance zero).
  - eapply returns_bind; [apply chainAndSimplifySegments_whole; exact Hchunk|].
    intros s Hs. apply returns_Normal. apply acc_ok_push; assumption.
  - apply returns_Normal. apply acc_ok_push; assumption.
Qed.

Lemma contour_loop_ok grid modelX modelZ vn gw gh referenceElevation heightScale
    heightOffset simplifyTolerance maxVertices count ts :
  forall ti acc progress,
    acc_ok acc ->
    returns (contour_loop grid modelX modelZ vn gw gh referenceElevation heightScale
               heightOffset simplifyTolerance maxVertices count ts ti acc progress)
      (fun r => result_ok maxVertices r.1 /\ aborted r.1 <> None /\
                (length r.2 <= length progress + length ts)%nat).
Proof.
  induction ts as [|t ts IH]; intros ti acc progress Hacc; cbn [contour_loop].
  - apply returns_Normal. cbn [fst snd]. split; [exact Hacc|]. split; [discriminate|].
    simpl. lia.
  - eapply returns_bind; [apply threshold_step_ok; exact Hacc|].
    intros acc' Hacc'. cbv zeta.
    destruct (gt maxVertices zero && gt acc'.2 maxVertices) eqn:E.
    + apply returns_Normal. cbn [fst snd]. split; [|split; [discriminate|]].
      * split; [reflexivity|exact E].
      * rewrite length_app. simpl. lia.
    + eapply returns_weaken; [apply IH; exact Hacc'|].
      intros r (H1 & H2 & H3). split; [exact H1|]. split; [exact H2|].
      rewrite length_app in H3. simpl in *. lia.
Qed.

(** X26.  The shape of what [generateContours] returns on a terrain with its
    grid set, for a positive interval: a result, never [null].  Unless it
    aborted, [segments] holds whole segments of six numbers and
    [vertexCount] times 3 is the length of [segments]; when it aborted,
    [segments] is empty and [vertexCount] exceeds the positive
    [maxVertices].  With [maxVertices] not positive, 0 being the default,
    the call never aborts. *)
Theorem generateContours_result_shape (Math_sqrt : num -> num) (tm : TerrainMesh)
    (d : list num) (fuel : nat) (r m i : Q)
    (heightOffset simplifyTolerance maxVertices : num) :
  elevationData tm = Some d -> gridWidth tm <> 0%nat -> gridHeight tm <> 0%nat ->
  (0 < i)%Q -> (threshold_fuel r m i <= fuel)%nat ->
  exists res progress,
    generateContours Math_sqrt tm fuel (Fin r) (Fin m) (Fin i) heightOffset
      simplifyTolerance maxVertices = Normal (Some res, progress) /\
    match aborted res with
    | Some true => segments res = [] /\ over_budget maxVertices (vertexCount res) = true
    | _ => whole_segments (segments res) /\
           counts_vertices (vertexCount res) (segments res)
    end /\
    (gt maxVertices zero = false -> aborted res <> Some true).
Proof.
  intros Hd Hw Hh Hi Hfuel. unfold generateContours. rewrite Hd.
  assert ((gridWidth tm =? 0)%nat = false) as -> by (apply Nat.eqb_neq; exact Hw).
  assert ((gridHeight tm =? 0)%nat = false) as -> by (apply Nat.eqb_neq; exact Hh).
  cbn [orb].
  destruct (thresholds_return r m i fuel Hi Hfuel) as (ts & -> & _). cbn [bind].
  destruct (length ts =? 0)%nat.
  { do 2 eexists. split; [reflexivity|]. cbn [aborted segments vertexCount].
    split; [|discriminate]. split; [reflexivity|].
    exists 0%Q. split; reflexivity. }
  destruct (build_grid_returns tm (gridWidth tm) (gridHeight tm)) as (grid & -> & _).
  cbn [bind].
  destruct (build_axis_returns (gridWidth tm) (modelWidth tm) (modelWidth tm / Fin 2)%js)
    as (modelX & -> & _). cbn [bind].
  destruct (build_axis_returns (gridHeight tm) (modelHeight tm) (modelHeight tm / Fin 2)%js)
    as (modelZ & -> & _). cbn [bind].
  destruct (build_vertexNormals_returns Math_sqrt grid (gridWidth tm) (gridHeight tm)
              (modelWidth tm / (of_nat (gridWidth tm) - one))%js
              (modelHeight tm / (of_nat (gridHeight tm) - one))%js (getHeightScale tm))
    as (vn & -> & _). cbn [bind].
  destruct (contour_loop_ok grid modelX modelZ vn (gridWidth tm) (gridHeight tm) (Fin r)
              (getHeightScale tm) heightOffset simplifyTolerance maxVertices (length ts)
              ts 0 ([], zero) [])
    as ([res progress] & -> & Hres & Hab & _).
  { split; [reflexivity|]. exists 0%Q. split; reflexivity. }
  cbn [bind fst snd] in *. exists res, progress. split; [reflexivity|].
  split; [exact Hres|].
  intros Hmv Ht. unfold result_ok in Hres. rewrite Ht in Hres.
  destruct Hres as [_ Ho]. unfold over_budget in Ho. rewrite Hmv in Ho. discriminate.
Qed.

Lemma generateContours_result_shape_witness :
  exists res progress,
    generateContours sqrt_approx tm_ramp 5 (Fin 100) (Fin 0) (Fin 25) (Fin (8 # 10000))
      zero zero = Normal (Some res, progress) /\
    aborted res <> Some true.
Proof.
  destruct (generateContours_result_shape sqrt_approx tm_ramp
              [Fin 0; Fin 100; Fin 0; Fin 100] 5 100 0 25 (Fin (8 # 10000)) zero zero)
    as (res & progress & H1 & _ & H2);
    [reflexivity|discriminate|discriminate|reflexivity|vm_compute; lia|].
  exists res, progress. split; [exact H1|]. apply H2. reflexivity.
Defined.

(* ===================================================================== *)
(** * Downsampling to the texture limit *)
(* ===================================================================== *)

Lemma for_range_invariant {St} (body : nat -> St -> completion St)
    (Inv : nat -> St -> Prop) n : forall i s,
  (forall j s, (i <= j < i + n)%nat -> Inv j s -> returns (body j s) (Inv (S j))) ->
  Inv i s -> returns (for_range body i n s) (Inv (i + n)%nat).
Proof.
  induction n as [|n IH]; intros i s Hb Hs; simpl.
  - rewrite Nat.add_0_r. apply returns_Normal, Hs.
  - eapply returns_bind; [apply Hb; [lia|exact Hs]|].
    intros a Ha. replace (i + S n)%nat with (S i + n)%nat by lia.
    apply IH; [|exact Ha]. intros j s' Hj. apply Hb. lia.
Qed.

Lemma array_get_In d i x : array_get d i = Num x -> In x d.
Proof.
  unfold array_get. destruct (index_of i) as [n|]; [|discriminate].
  destruct (d !! n) as [y|] eqn:E; [|discriminate]. intros [= <-].
  apply list_elem_of_In. apply (list_elem_of_lookup_2 _ _ _ E).
Qed.

(** A read from a raster without a valid sample. *)
Lemma array_get_void tm d i :
  Forall (fun x => _isNoData tm (Num x) = true) d -> _isNoData tm (array_get d i) = true.
Proof.
  intros Hall. destruct (array_get d i) as [|x] eqn:E; [reflexivity|].
  rewrite List.Forall_forall in Hall. apply Hall. exact (array_get_In _ _ _ E).
Qed.

(** The value that a pass of the loops writes from such a raster. *)
Lemma downsample_at_void (tm : TerrainMesh) (d : list num)
    (srcWidth srcHeight newWidth newHeight : num) (y x : nat) (newData : list num) :
  Forall (fun x => _isNoData tm (Num x) = true) d ->
  downsample_at tm d srcWidth srcHeight newWidth newHeight y x newData
    = f32_store newData (of_nat y * newWidth + of_nat x)%js
        (Fin 100000000000000000000000000000000000000).
Proof.
  intros Hall. unfold downsample_at. cbv zeta.
  rewrite (array_get_void tm d _ Hall). reflexivity.
Qed.

Lemma store_index (w : Z) (y x : nat) :
  (0 <= w)%Z ->
  index_of (of_nat y * of_Z w + of_nat x)%js = Some (y * Z.to_nat w + x)%nat.
Proof.
  intros Hw.
  rewrite (index_of_int_val _ (Z.of_nat y * w + Z.of_nat x)).
  - f_equal. nia.
  - apply int_val_add; [apply int_val_mul|]; apply int_val_of_Z.
  - nia.
Qed.

Section Downsample.
Variables (tm : TerrainMesh) (d : list num) (srcWidth srcHeight : num) (w h : Z).
Variable P : num -> Prop.
Hypothesis Hw : (0 <= w)%Z.
Hypothesis Hh : (0 <= h)%Z.
Hypothesis Hvalue : forall y x newData,
  (y < Z.to_nat h)%nat -> (x < Z.to_nat w)%nat ->
  exists v, downsample_at tm d srcWidth srcHeight (of_Z w) (of_Z h) y x newData
            = f32_store newData (of_nat y * of_Z w + of_nat x)%js v /\
            P (Binary64.fround v).

Local Abbreviation nw := (Z.to_nat w).
Local Abbreviation nh := (Z.to_nat h).
Local Abbreviation cell y :=
  (fun x newData =>
     Normal (downsample_at tm d srcWidth srcHeight (of_Z w) (of_Z h) y x newData)).

Lemma downsample_row (y : nat) (data : list num) :
  (y < nh)%nat -> length data = (nh * nw)%nat -> Forall P (take (y * nw) data) ->
  returns (for_counter (of_Z w) (cell y) data)
    (fun data' => length data' = (nh * nw)%nat /\ Forall P (take (S y * nw) data')).
Proof.
  intros Hy Hlen Hpre. unfold for_counter, of_Z. rewrite Qceiling_Z.
  pose proof (for_range_invariant (cell y)
                (fun x data' => length data' = (nh * nw)%nat /\
                                Forall P (take (y * nw + x) data')) nw 0 data) as H.
  replace (S y * nw)%nat with (y * nw + (0 + nw))%nat by lia.
  apply H; [|split; [exact Hlen|replace (y * nw + 0)%nat with (y * nw)%nat by lia; exact Hpre]].
  intros x s Hx [Hs Hall].
  destruct (Hvalue y x s Hy (proj2 Hx)) as (v & -> & Hv).
  unfold f32_store. rewrite (store_index w y x Hw).
  apply returns_Normal.
  assert (Hk : (y * nw + x < length s)%nat) by (rewrite Hs; nia).
  split; [rewrite length_insert; exact Hs|].
  replace (y * nw + S x)%nat with (S (y * nw + x)) by lia.
  rewrite (take_S_r _ _ (Binary64.fround v)) by (apply list_lookup_insert_eq; exact Hk).
  rewrite take_insert_ge by lia.
  apply Forall_app. split; [exact Hall|]. repeat constructor. exact Hv.
Qed.

Lemma downsample_all (data : list num) :
  length data = (nh * nw)%nat ->
  returns (for_counter (of_Z h) (fun y newData => for_counter (of_Z w) (cell y) newData) data)
    (fun data' => length data' = (nh * nw)%nat /\ Forall P data').
Proof.
  intros Hlen. unfold for_counter at 1, of_Z at 1. rewrite Qceiling_Z.
  pose proof (for_range_invariant
                (fun y newData => for_counter (of_Z w) (cell y) newData)
                (fun y data' => length data' = (nh * nw)%nat /\
                                Forall P (take (y * nw) data')) nh 0 data) as H.
  eapply returns_weaken; [apply H|].
  - intros y s Hy [Hs Hall]. apply downsample_row; [lia|exact Hs|exact Hall].
  - split; [exact Hlen|]. simpl. constructor.
  - intros data' [Hl Hall]. split; [exact Hl|].
    rewrite take_ge in Hall by (rewrite Hl; lia). exact Hall.
Qed.
End Downsample.

Lemma round_bounds (x : Q) (M : Z) :
  (0 <= x)%Q -> (x <= inject_Z M)%Q ->
  (0 <= Qfloor (x + (1 # 2)) <= M)%Z.
Proof.
  intros H0 HM. split.
  - change 0%Z with (Qfloor 0). apply Qfloor_resp_le. lra.
  - pose proof (Qfloor_le (x + (1 # 2))) as Hf.
    assert (Hlt : (inject_Z (Qfloor (x + (1 # 2))) < inject_Z (M + 1))%Q).
    { rewrite inject_Z_plus. change (inject_Z 1) with 1%Q. lra. }
    rewrite <- Zlt_Qlt in Hlt. lia.
Qed.

Lemma gt_of_Z a b : gt (of_Z a) (of_Z b) = (b <? a)%Z.
Proof.
  unfold gt, cmp, of_Z. rewrite inject_Z_compare. rewrite Z.ltb_compare.
  rewrite (Z.compare_antisym a b). destruct (a ?= b)%Z; reflexivity.
Qed.

Lemma le_of_Z a b : le (of_Z a) (of_Z b) = (a <=? b)%Z.
Proof.
  unfold le, cmp, of_Z. rewrite inject_Z_compare. rewrite Z.leb_compare.
  destruct (a ?= b)%Z; reflexivity.
Qed.

Lemma min_of_Z_r a b : (b < a)%Z -> min (of_Z a) (of_Z b) = of_Z b.
Proof.
  intros H. unfold min, cmp, of_Z. rewrite inject_Z_compare.
  assert ((a ?= b)%Z = Gt) as -> by (apply Z.compare_gt_iff; exact H). reflexivity.
Qed.

(** The dimensions that the downsampling chooses for a raster that exceeds
    the limit. *)
Lemma new_dimensions (W H M : Z) :
  (1 <= W)%Z -> (1 <= H)%Z -> (1 <= M)%Z -> (M < W \/ M < H)%Z ->
  exists w h,
    (let srcWidth := of_Z W in
     let srcHeight := of_Z H in
     let aspect := (srcWidth / srcHeight)%js in
     if gt srcWidth srcHeight then
       let newWidth := min srcWidth (of_Z M) in
       let newHeight := round (newWidth / aspect)%js in
       if gt newHeight (of_Z M)
       then (round (of_Z M * aspect)%js, of_Z M)
       else (newWidth, newHeight)
     else
       let newHeight := min srcHeight (of_Z M) in
       let newWidth := round (newHeight * aspect)%js in
       if gt newWidth (of_Z M)
       then (of_Z M, round (of_Z M / aspect)%js)
       else (newWidth, newHeight)) = (of_Z w, of_Z h) /\
    (0 <= w <= M)%Z /\ (0 <= h <= M)%Z /\ Z.max w h = M.
Proof.
  intros HW HH HM Hex. cbv zeta.
  assert (HWq : (1 <= inject_Z W)%Q) by (change 1%Q with (inject_Z 1); rewrite <- Zle_Qle; lia).
  assert (HHq : (1 <= inject_Z H)%Q) by (change 1%Q with (inject_Z 1); rewrite <- Zle_Qle; lia).
  assert (HMq : (1 <= inject_Z M)%Q) by (change 1%Q with (inject_Z 1); rewrite <- Zle_Qle; lia).
  assert (Ha : (of_Z W / of_Z H)%js = Fin (inject_Z W / inject_Z H)).
  { unfold of_Z, div. destruct (Qeq_bool (inject_Z H) 0) eqn:E; [|reflexivity].
    apply Qeq_bool_iff in E. lra. }
  assert (Ha0 : (0 < inject_Z W / inject_Z H)%Q) by (apply Qlt_shift_div_l; lra).
  rewrite Ha, gt_of_Z.
  destruct (H <? W)%Z eqn:C.
  - apply Z.ltb_lt in C. rewrite (min_of_Z_r W M) by lia.
    assert (Hd : (of_Z M / Fin (inject_Z W / inject_Z H))%js
                 = Fin (inject_Z M / (inject_Z W / inject_Z H))).
    { unfold of_Z, div. destruct (Qeq_bool (inject_Z W / inject_Z H) 0) eqn:E; [|reflexivity].
      apply Qeq_bool_iff in E. lra. }
    rewrite Hd. cbn [round].
    assert (Hb : (0 <= Qfloor (inject_Z M / (inject_Z W / inject_Z H) + (1 # 2)) <= M)%Z).
    { apply round_bounds.
      - apply Qle_shift_div_l; lra.
      - apply Qle_shift_div_r; [exact Ha0|].
        assert (HWH : (inject_Z H <= inject_Z W)%Q) by (rewrite <- Zle_Qle; lia).
        assert (1 <= inject_Z W / inject_Z H)%Q by (apply Qle_shift_div_l; lra).
        set (a := (inject_Z W / inject_Z H)%Q) in *. clearbody a. nra. }
    rewrite gt_of_Z.
    assert ((M <? Qfloor (inject_Z M / (inject_Z W / inject_Z H) + (1 # 2)))%Z = false) as ->
      by (apply Z.ltb_ge; lia).
    do 2 eexists. split; [reflexivity|]. lia.
  - apply Z.ltb_ge in C. rewrite (min_of_Z_r H M) by lia.
    cbn [mul of_Z round].
    assert (Hb : (0 <= Qfloor (inject_Z M * (inject_Z W / inject_Z H) + (1 # 2)) <= M)%Z).
    { assert (HWH : (inject_Z W <= inject_Z H)%Q) by (rewrite <- Zle_Qle; lia).
      assert (inject_Z W / inject_Z H <= 1)%Q by (apply Qle_shift_div_r; lra).
      set (a := (inject_Z W / inject_Z H)%Q) in *. clearbody a.
      apply round_bounds; nra. }
    fold (of_Z (Qfloor (inject_Z M * (inject_Z W / inject_Z H) + (1 # 2)))).
    fold (of_Z M). rewrite gt_of_Z.
    assert ((M <? Qfloor (inject_Z M * (inject_Z W / inject_Z H) + (1 # 2)))%Z = false) as ->
      by (apply Z.ltb_ge; lia).
    do 2 eexists. split; [reflexivity|]. lia.
Qed.

Lemma allocate (w h M : Z) :
  (0 <= w <= M)%Z -> (0 <= h <= M)%Z -> (M * M <= 9007199254740991)%Z ->
  new_Float32Array (of_Z w * of_Z h)%js = Normal (replicate (Z.to_nat h * Z.to_nat w) zero).
Proof.
  intros Hw Hh HM. unfold new_Float32Array, of_Z. cbn [mul].
  assert (E : (inject_Z w * inject_Z h == inject_Z (w * h))%Q)
    by (rewrite inject_Z_mult; reflexivity).
  assert (Hpos : Qle_bool 0 (inject_Z w * inject_Z h) = true).
  { apply Qle_bool_iff. rewrite E. rewrite <- (Zle_Qle 0). nia. }
  assert (F : Qfloor (inject_Z w * inject_Z h) = (w * h)%Z) by (rewrite E; apply Qfloor_Z).
  rewrite Hpos, F.
  assert ((w * h <? 0)%Z = false) as -> by (apply Z.ltb_ge; nia).
  assert ((9007199254740991 <? w * h)%Z = false) as -> by (apply Z.ltb_ge; nia).
  cbn [orb]. f_equal. f_equal. rewrite Z2Nat.inj_mul by lia. apply Nat.mul_comm.
Qed.

Lemma constrain_exceeding (this : TerrainObject) (d : list num) (W H M : Z)
    (P : Z -> Z -> num -> Prop) :
  elevationData this = Some d ->
  elevationWidth this = of_Z W -> elevationHeight this = of_Z H ->
  maxTextureSize this = of_Z M ->
  (1 <= W)%Z -> (1 <= H)%Z -> (1 <= M)%Z -> (M * M <= 9007199254740991)%Z ->
  (M < W \/ M < H)%Z ->
  (forall w h y x newData,
     (y < Z.to_nat h)%nat -> (x < Z.to_nat w)%nat ->
     exists v, downsample_at this d (of_Z W) (of_Z H) (of_Z w) (of_Z h) y x newData
               = f32_store newData (of_nat y * of_Z w + of_nat x)%js v /\
               P w h (Binary64.fround v)) ->
  exists w h d',
    _constrainElevationToGPULimits this
      = Normal (set_core this (set_elevation this d' (of_Z w) (of_Z h))) /\
    (0 <= w <= M)%Z /\ (0 <= h <= M)%Z /\ Z.max w h = M /\
    length d' = Z.to_nat (w * h) /\ Forall (P w h) d'.
Proof.
  intros Hd HW HH HM HW1 HH1 HM1 Hbig Hex Hval.
  unfold _constrainElevationToGPULimits. rewrite Hd, HW, HH, HM.
  rewrite !le_of_Z.
  assert ((W <=? M)%Z && (H <=? M)%Z = false) as ->.
  { apply andb_false_iff. destruct Hex; [left|right]; apply Z.leb_gt; assumption. }
  destruct (new_dimensions W H M HW1 HH1 HM1 Hex) as (w & h & Hdim & Hw & Hh & Hmax).
  cbv zeta in Hdim. rewrite Hdim.
  rewrite (allocate w h M Hw Hh Hbig). cbn [bind].
  destruct (downsample_all this d (of_Z W) (of_Z H) w h (P w h) (proj1 Hw)
              (Hval w h) (replicate (Z.to_nat h * Z.to_nat w) zero))
    as (d' & -> & Hlen & Hall); [apply length_replicate|].
  cbn [bind]. exists w, h, d'. split; [reflexivity|].
  repeat split; try lia; assumption.
Qed.

Lemma fround_marker :
  Binary64.fround (Fin 100000000000000000000000000000000000000) = marker32.
Proof. vm_compute. reflexivity. Qed.

(** A pass of the loops for a raster one sample wide or high: the source
    coordinate is [0 / 0]. *)
Lemma downsample_at_single (tm : TerrainMesh) (d : list num)
    (srcWidth srcHeight : num) (w h : Z) (y x : nat) (newData : list num) :
  (w = 1 \/ h = 1)%Z -> (y < Z.to_nat h)%nat -> (x < Z.to_nat w)%nat ->
  downsample_at tm d srcWidth srcHeight (of_Z w) (of_Z h) y x newData
    = f32_store newData (of_nat y * of_Z w + of_nat x)%js
        (Fin 100000000000000000000000000000000000000).
Proof.
  intros Hone Hy Hx. unfold downsample_at. cbv zeta.
  assert (Hnan : array_get d
            (floor (of_nat y / (of_Z h - one) * (srcHeight - one)) * srcWidth +
             floor (of_nat x / (of_Z w - one) * (srcWidth - one)))%js = Undefined).
  { destruct Hone as [-> | ->].
    - assert (x = 0%nat) as -> by (change (Z.to_nat 1) with 1%nat in Hx; lia).
      change (of_nat 0 / (of_Z 1 - one))%js with NaN.
      change (NaN * (srcWidth - one))%js with NaN. cbn [floor].
      destruct (_ * srcWidth)%js; reflexivity.
    - assert (y = 0%nat) as -> by (change (Z.to_nat 1) with 1%nat in Hy; lia).
      change (of_nat 0 / (of_Z 1 - one))%js with NaN.
      change (NaN * (srcHeight - one))%js with NaN. cbn [floor].
      change (NaN * srcWidth)%js with NaN. reflexivity. }
  rewrite Hnan. reflexivity.
Qed.

(** X27. [_constrainElevationToGPULimits] on a raster of W x H samples
    (W, H >= 1) with a texture limit M >= 1 returns normally.  A raster
    within the limit is left as it is.  A raster that exceeds it is replaced
    by one of w x h samples, with w and h integers in [[0, M]], the longer
    side exactly M, and w * h samples in the new array; the shorter side
    may round to 0. *)
Theorem constrain_within_texture_limit (this : TerrainObject) (d : list num)
    (W H M : Z) :
  elevationData this = Some d ->
  elevationWidth this = of_Z W -> elevationHeight this = of_Z H ->
  maxTextureSize this = of_Z M ->
  (1 <= W)%Z -> (1 <= H)%Z -> (1 <= M)%Z -> (M * M <= 9007199254740991)%Z ->
  exists this' : TerrainObject,
    _constrainElevationToGPULimits this = Normal this' /\
    ((W <= M)%Z /\ (H <= M)%Z -> this' = this) /\
    ((M < W)%Z \/ (M < H)%Z ->
     exists w h d',
       elevationWidth this' = of_Z w /\ elevationHeight this' = of_Z h /\
       elevationData this' = Some d' /\
       (0 <= w <= M)%Z /\ (0 <= h <= M)%Z /\ Z.max w h = M /\
       length d' = Z.to_nat (w * h)).
Proof.
  intros Hd HW HH HM HW1 HH1 HM1 Hbig.
  destruct (Z_le_gt_dec W M) as [Cw|Cw]; [destruct (Z_le_gt_dec H M) as [Ch|Ch]|].
  - exists this. split; [|split; [reflexivity|lia]].
    unfold _constrainElevationToGPULimits. rewrite Hd, HW, HH, HM, !le_of_Z.
    assert ((W <=? M)%Z = true) as -> by (apply Z.leb_le; exact Cw).
    assert ((H <=? M)%Z = true) as -> by (apply Z.leb_le; exact Ch).
    reflexivity.
  - destruct (constrain_exceeding this d W H M (fun _ _ _ => True)
                Hd HW HH HM HW1 HH1 HM1 Hbig) as (w & h & d' & -> & Hw & Hh & Hmax & Hlen & _).
    + right. lia.
    + intros w h y x newData _ _. unfold downsample_at. cbv zeta.
      destruct (_ || _ || _ || _); eexists; (split; [reflexivity|exact I]).
    + eexists. split; [reflexivity|]. split; [lia|]. intros _.
      exists w, h, d'. repeat split; try lia; assumption.
  - destruct (constrain_exceeding this d W H M (fun _ _ _ => True)
                Hd HW HH HM HW1 HH1 HM1 Hbig) as (w & h & d' & -> & Hw & Hh & Hmax & Hlen & _).
    + left. lia.
    + intros w h y x newData _ _. unfold downsample_at. cbv zeta.
      destruct (_ || _ || _ || _); eexists; (split; [reflexivity|exact I]).
    + eexists. split; [reflexivity|]. split; [lia|]. intros _.
      exists w, h, d'. repeat split; try lia; assumption.
Qed.

Lemma constrain_within_texture_limit_witness :
  exists this' : TerrainObject,
    _constrainElevationToGPULimits terrain_wide = Normal this' /\
    exists w h d',
      elevationWidth this' = of_Z w /\ elevationHeight this' = of_Z h /\
      elevationData this' = Some d' /\
      (0 <= w <= 3)%Z /\ (0 <= h <= 3)%Z /\ Z.max w h = 3%Z /\
      length d' = Z.to_nat (w * h).
Proof.
  destruct (constrain_within_texture_limit terrain_wide
              [Fin 0; Fin 10; Fin 20; Fin 30;
               Fin 40; Fin 50; Fin 60; Fin 70;
               Fin 80; Fin 90; Fin 100; Fin 1000000] 4 3 3)
    as (this' & H1 & _ & H2);
    [reflexivity|reflexivity|reflexivity|reflexivity|lia|lia|lia|lia|].
  exists this'. split; [exact H1|]. apply H2. left. lia.
Defined.

(** X28.  Downsampling never makes data out of NoData: when no sample of a
    raster that exceeds the limit is valid, every sample of the raster that
    [_constrainElevationToGPULimits] leaves behind is the NoData marker, the
    number that a [Float32Array] holds for [1e38], which [_isNoData]
    recognises. *)
Theorem constrain_keeps_void (this : TerrainObject) (d : list num) (W H M : Z) :
  elevationData this = Some d ->
  elevationWidth this = of_Z W -> elevationHeight this = of_Z H ->
  maxTextureSize this = of_Z M ->
  (1 <= W)%Z -> (1 <= H)%Z -> (1 <= M)%Z -> (M * M <= 9007199254740991)%Z ->
  (M < W)%Z \/ (M < H)%Z ->
  Forall (fun x => _isNoData this (Num x) = true) d ->
  exists (this' : TerrainObject) d',
    _constrainElevationToGPULimits this = Normal this' /\
    elevationData this' = Some d' /\
    Forall (fun x => x = marker32) d' /\
    Forall (fun x => _isNoData this' (Num x) = true) d'.
Proof.
  intros Hd HW HH HM HW1 HH1 HM1 Hbig Hex Hvoid.
  destruct (constrain_exceeding this d W H M (fun _ _ v => v = marker32)
              Hd HW HH HM HW1 HH1 HM1 Hbig Hex) as (w & h & d' & -> & _ & _ & _ & _ & Hall).
  - intros w h y x newData _ _. eexists. split; [apply downsample_at_void, Hvoid|].
    apply fround_marker.
  - eexists. exists d'. split; [reflexivity|]. split; [reflexivity|]. split; [exact Hall|].
    eapply Forall_impl; [exact Hall|]. intros x ->. reflexivity.
Qed.

Lemma constrain_keeps_void_witness :
  exists (this' : TerrainObject) d',
    _constrainElevationToGPULimits terrain_void = Normal this' /\
    elevationData this' = Some d' /\ Forall (fun x => x = marker32) d'.
Proof.
  destruct (constrain_keeps_void terrain_void
              [Fin 1000000; Fin 1000000; Fin 1000000; Fin 1000000;
               Fin 1000000; Fin 1000000; Fin 1000000; Fin 1000000;
               Fin 1000000; Fin 1000000; Fin 1000000; Fin 1000000] 4 3 3)
    as (this' & d' & H1 & H2 & H3 & _);
    [reflexivity|reflexivity|reflexivity|reflexivity|lia|lia|lia|lia|left; lia| |].
  - repeat constructor.
  - exists this', d'. split; [exact H1|]. split; [exact H2|exact H3].
Defined.

(** X29.  A raster that is downsampled to a single row or a single column
    loses all its data: when the new width or the new height is 1, every
    sample written by [_constrainElevationToGPULimits] is the NoData marker,
    the number that a [Float32Array] holds for [1e38], whatever the source
    raster holds, because the source coordinate is computed as
    [0 / (1 - 1)]. *)
Theorem constrain_single_row_all_NoData (this : TerrainObject) (d : list num)
    (W H M : Z) :
  elevationData this = Some d ->
  elevationWidth this = of_Z W -> elevationHeight this = of_Z H ->
  maxTextureSize this = of_Z M ->
  (1 <= W)%Z -> (1 <= H)%Z -> (1 <= M)%Z -> (M * M <= 9007199254740991)%Z ->
  (M < W)%Z \/ (M < H)%Z ->
  exists (this' : TerrainObject) w h d',
    _constrainElevationToGPULimits this = Normal this' /\
    elevationWidth this' = of_Z w /\ elevationHeight this' = of_Z h /\
    elevationData this' = Some d' /\
    (w = 1 \/ h = 1 ->
     d' = replicate (Z.to_nat (w * h)) marker32 /\
     Forall (fun x => _isNoData this' (Num x) = true) d')%Z.
Proof.
  intros Hd HW HH HM HW1 HH1 HM1 Hbig Hex.
  destruct (constrain_exceeding this d W H M
              (fun w h v => (w = 1 \/ h = 1)%Z -> v = marker32)
              Hd HW HH HM HW1 HH1 HM1 Hbig Hex) as (w & h & d' & -> & _ & _ & _ & Hlen & Hall).
  - intros w h y x newData Hy Hx.
    destruct (Z.eq_dec w 1%Z) as [Ew|Ew]; [|destruct (Z.eq_dec h 1%Z) as [Eh|Eh]].
    + eexists. split; [apply downsample_at_single; [left; exact Ew|exact Hy|exact Hx]|].
      intros _. apply fround_marker.
    + eexists. split; [apply downsample_at_single; [right; exact Eh|exact Hy|exact Hx]|].
      intros _. apply fround_marker.
    + unfold downsample_at. cbv zeta.
      destruct (_ || _ || _ || _); eexists; (split; [reflexivity|intros [?|?]; contradiction]).
  - eexists. exists w, h, d'. split; [reflexivity|]. split; [reflexivity|].
    split; [reflexivity|]. split; [reflexivity|]. intros Hone. split.
    + rewrite <- Hlen. clear Hlen.
      induction Hall as [|v l Hv _ IH]; [reflexivity|].
      cbn [length replicate]. rewrite (Hv Hone). f_equal. exact IH.
    + eapply Forall_impl; [exact Hall|]. intros x Hx. rewrite (Hx Hone). reflexivity.
Qed.

Lemma constrain_single_row_all_NoData_witness :
  exists this' : TerrainObject,
    _constrainElevationToGPULimits terrain_strip = Normal this' /\
    elevationWidth this' = of_Z 2 /\ elevationHeight this' = of_Z 1 /\
    elevationData this' = Some [marker32; marker32].
Proof.
  destruct (constrain_single_row_all_NoData terrain_strip
              [Fin 0; Fin 10; Fin 20; Fin 30;
               Fin 40; Fin 50; Fin 60; Fin 70] 4 2 2)
    as (this' & w & h & d' & H1 & _);
    [reflexivity|reflexivity|reflexivity|reflexivity|lia|lia|lia|lia|left; lia|].
  exists this'. split; [exact H1|].
  vm_compute in H1. injection H1 as <-. repeat split; reflexivity.
Defined.
